(** * The hybrid hyper-torus environment of gflownet, and its utilities

    A shallow embedding of [gflownet/envs/htorus.py] (class [HybridTorus]) and
    of [gflownet/utils/common.py].

    - Python floats are IEEE binary64 numbers: they are modelled by Rocq's
      primitive floats, whose operations are the same binary64 operations.
      The float [%] of CPython (C's [fmod] followed by a sign fix-up) is
      written out below on the decoded mantissa and exponent.
    - A Python list is a mutable object: lists live in a store indexed by
      references, and a method that receives or returns a list receives or
      returns its reference.
    - The elements of a state list are Python numbers, floats for the angles
      and an int for the step counter: they are a tagged union.
    - Methods run in a state-and-exception monad over the environment object
      and the store.
    - A tensor is the list of its rows, and a float64 tensor unless said
      otherwise. The float32 tensor that [torch.FloatTensor] makes holds
      binary64 numbers that float32 has: the numbers given, rounded to
      float32.

    The properties come in two parts: the binary64 facts and the case
    analyses of [step], [get_parents], the masks, sampling and the readable
    form; then what trajectories keep, which list objects the methods share
    or copy, the indices that [step] does not check, the fixed policy
    outputs, and the utilities. *)

From Stdlib Require Import ZArith Floats Lia String Ascii Bool DecimalString DecimalZ.
From stdpp Require Import base option list gmap.

Open Scope Z_scope.

(** ** Binary64 arithmetic *)

Module Float64.

(** [np.pi], the binary64 number nearest to pi. *)
Definition np_pi : float := 0x1.921fb54442d18p+1%float.

(** [2 * np.pi], the modulus of every angle. *)
Definition two_pi : float := Eval vm_compute in (2 * np_pi)%float.

(** The canonical representation of [r * 2^e], for a mantissa [r] of at
    most 53 bits: no rounding takes place. *)
Definition sf_exact (s : bool) (r : positive) (e : Z) : spec_float :=
  let '(m, e') := shl_align r e (fexp prec emax (Zpos (digits2_pos r) + e)) in
  S754_finite s m e'.

(** The binary64 number that a binary64 number becomes when it is stored
    in a format of [p] bits of precision whose exponents stay below [E]: it
    is rounded to the nearest number of the format, to the even one of two
    that are as near, and to an infinity beyond the largest. *)
Definition round_to (p E : Z) (x : float) : float :=
  match Prim2SF x with
  | S754_finite s m e =>
      match binary_round p E s m e with
      | S754_finite s' m' e' => SF2Prim (sf_exact s' m' e')
      | r => SF2Prim r
      end
  | _ => x
  end.

(** C's [fmod]: the remainder of the division truncated towards zero. It
    is exact, has the sign of [x], and is NaN when [x] is infinite or [y]
    is zero. *)
Definition sf_fmod (x y : spec_float) : spec_float :=
  match x, y with
  | S754_nan, _ | _, S754_nan => S754_nan
  | S754_infinity _, _ => S754_nan
  | _, S754_zero _ => S754_nan
  | S754_zero _, _ => x
  | S754_finite _ _ _, S754_infinity _ => x
  | S754_finite sx mx ex, S754_finite _ my ey =>
      let e := Z.min ex ey in
      match (Zpos mx * 2 ^ (ex - e)) mod (Zpos my * 2 ^ (ey - e)) with
      | Zpos r => sf_exact sx r e
      | _ => S754_zero sx
      end
  end.

Definition fmod (x y : float) : float :=
  SF2Prim (sf_fmod (Prim2SF x) (Prim2SF y)).

(** [copysign(0.0, w)] *)
Definition copysign_zero (w : float) : float :=
  if get_sign w then PrimFloat.neg_zero else PrimFloat.zero.

(** CPython's [float_rem], the float [%], after its test for a zero
    modulus (every modulus below is [2 * np.pi]):
<<
    mod = fmod(vx, wx);
    if (mod) { if ((wx < 0) != (mod < 0)) mod += wx; }
    else mod = copysign(0.0, wx);
>> *)
Definition float_rem (vx wx : float) : float :=
  let md := fmod vx wx in
  if negb (md =? 0)%float then
    if xorb (wx <? 0)%float (md <? 0)%float then (md + wx)%float else md
  else copysign_zero wx.

(** [float(z)] for a Python int: round to nearest even. The value [None]
    stands for Python's [OverflowError] (int too large for a float). *)
Definition float_of_int (z : Z) : option float :=
  let f := SF2Prim (binary_normalize prec emax z 0 false) in
  if is_infinity f then None else Some f.

(** The exact order between a float and an integer, as Python compares
    them; [None] when the float is NaN. *)
Definition compare_float_int (f : float) (z : Z) : option comparison :=
  match Prim2SF f with
  | S754_nan => None
  | S754_infinity s => Some (if s then Lt else Gt)
  | S754_zero _ => Some (0 ?= z)
  | S754_finite s m e =>
      let v := if s then Zneg m else Zpos m in
      Some (if 0 <=? e then (v * 2 ^ e ?= z) else (v ?= z * 2 ^ (- e)))
  end.

(** The value of a finite float in units of [2^-1074], the smallest
    positive binary64 number. *)
Definition sf_val (m : positive) (e : Z) : Z := Zpos m * 2 ^ (e + 1074).

(** [r] lies in the closed interval from [0] to [w]. *)
Definition in_closed (w r : float) : bool :=
  ((0 <=? r) && (r <=? w))%float.

(** [r] is NaN or lies in the closed interval from [0] to [w]. *)
Definition in_range (w r : float) : Prop :=
  is_nan r = true \/ in_closed w r = true.

(** [r] lies in the half-open interval from [0] to [w], [w] excluded. *)
Definition in_half_open (w r : float) : bool :=
  ((0 <=? r) && (r <? w))%float.

End Float64.
Import Float64.

(** ** Python values, lists and exceptions *)

Inductive exn : Set :=
  | IndexError
  | OverflowError
  | ValueError
  | NameError
  | RuntimeError.

Inductive result (A : Type) : Type :=
  | Ok (a : A)
  | Raise (e : exn).
Arguments Ok {A} a.
Arguments Raise {A} e.

(** A number in a state list. *)
Inductive pyval : Set :=
  | PyInt (z : Z)
  | PyFloat (f : float).

Definition of_option {A : Type} (e : exn) (o : option A) : result A :=
  match o with
  | Some a => Ok a
  | None => Raise e
  end.

(** The position that a Python index designates in a list of length [len]:
    negative indices count from the end. *)
Definition py_index (len : nat) (i : Z) : option nat :=
  if (0 <=? i) && (i <? Z.of_nat len) then Some (Z.to_nat i)
  else if (- Z.of_nat len <=? i) && (i <? 0) then Some (Z.to_nat (Z.of_nat len + i))
  else None.

(** [l[i]] *)
Definition list_getitem {A : Type} (l : list A) (i : Z) : result A :=
  match py_index (length l) i with
  | Some n => of_option IndexError (l !! n)
  | None => Raise IndexError
  end.

(** [l[i] = v] *)
Definition list_setitem {A : Type} (l : list A) (i : Z) (v : A) : result (list A) :=
  match py_index (length l) i with
  | Some n => Ok (<[n := v]> l)
  | None => Raise IndexError
  end.

(** [float(v)] as Python's arithmetic converts an operand. *)
Definition py_float (v : pyval) : result float :=
  match v with
  | PyFloat f => Ok f
  | PyInt z => of_option OverflowError (float_of_int z)
  end.

(** [v + a], [v - a] and [v % m] for a float [a] or [m]. *)
Definition py_add_float (v : pyval) (a : float) : result pyval :=
  match py_float v with
  | Ok f => Ok (PyFloat (f + a))
  | Raise e => Raise e
  end.

Definition py_sub_float (v : pyval) (a : float) : result pyval :=
  match py_float v with
  | Ok f => Ok (PyFloat (f - a))
  | Raise e => Raise e
  end.

Definition py_mod_float (v : pyval) (m : float) : result pyval :=
  match py_float v with
  | Ok f => Ok (PyFloat (float_rem f m))
  | Raise e => Raise e
  end.

(** [v - 1] *)
Definition py_pred (v : pyval) : pyval :=
  match v with
  | PyInt z => PyInt (z - 1)
  | PyFloat f => PyFloat (f - 1)
  end.

(** Comparison of a number with an int; [None] when the number is NaN. *)
Definition py_compare_int (v : pyval) (z : Z) : option comparison :=
  match v with
  | PyInt c => Some (c ?= z)
  | PyFloat f => compare_float_int f z
  end.

(** [v >= z], [z > v], [z == v], [z >= v] *)
Definition py_ge_int (v : pyval) (z : Z) : bool :=
  match py_compare_int v z with
  | Some (Gt | Eq) => true
  | _ => false
  end.

Definition int_gt_py (z : Z) (v : pyval) : bool :=
  match py_compare_int v z with
  | Some Lt => true
  | _ => false
  end.

Definition int_eq_py (z : Z) (v : pyval) : bool :=
  match py_compare_int v z with
  | Some Eq => true
  | _ => false
  end.

Definition int_ge_py (z : Z) (v : pyval) : bool :=
  match py_compare_int v z with
  | Some (Lt | Eq) => true
  | _ => false
  end.

(** [v == f] for a float [f] *)
Definition py_eq_float (v : pyval) (f : float) : bool :=
  match v with
  | PyFloat g => (g =? f)%float
  | PyInt z => int_eq_py z (PyFloat f)
  end.

(** ** The environment object and the store *)

(** A reference to a list object. *)
Definition loc := positive.

(** An action: the dimension it acts on (or [eos]) and the angle increment. *)
Definition action : Set := (Z * float)%type.

(** The attributes of a [HybridTorus] instance that its methods read or
    write. [state] is the reference of the state list; [source] is the copy
    of the angles taken by the constructor. *)
Record HybridTorus : Type := {
  n_dim : nat;
  length_traj : Z;
  n_params_per_dim : nat;
  source : list float;
  n_actions : Z;
  state : loc;
  done : bool
}.

(** [self.eos = self.n_dim] *)
Definition eos (self : HybridTorus) : Z := Z.of_nat (n_dim self).

(** [len(self.action_space)]: one entry for each dimension, and [eos]. *)
Definition len_action_space (self : HybridTorus) : nat := S (n_dim self).

(** What a method can change: the object, the store of list objects, and
    the lines printed. *)
Record world : Type := {
  self_ : HybridTorus;
  heap : gmap loc (list pyval);
  stdout : list string
}.

(** The monad of methods: a result or an exception, and the world after. *)
Definition M (A : Type) : Type := world -> result A * world.

Definition ret {A : Type} (a : A) : M A := fun w => (Ok a, w).

Definition raise {A : Type} (e : exn) : M A := fun w => (Raise e, w).

Definition bind {A B : Type} (m : M A) (k : A -> M B) : M B :=
  fun w =>
    match m w with
    | (Ok a, w') => k a w'
    | (Raise e, w') => (Raise e, w')
    end.

Declare Scope py_scope.
Delimit Scope py_scope with py.
Notation "x <- m ;; k" := (bind m (fun x => k))
  (at level 100, m at next level, right associativity) : py_scope.
Notation "m ;;; k" := (bind m (fun _ => k))
  (at level 100, right associativity) : py_scope.
Open Scope py_scope.

Definition lift {A : Type} (r : result A) : M A := fun w => (r, w).

Definition get_self : M HybridTorus := fun w => (Ok (self_ w), w).

Definition put_self (s : HybridTorus) : M unit :=
  fun w => (Ok tt, {| self_ := s; heap := heap w; stdout := stdout w |}).

(** The object with one attribute replaced. *)
Definition with_n_actions (z : Z) (s : HybridTorus) : HybridTorus :=
  {| n_dim := n_dim s; length_traj := length_traj s;
     n_params_per_dim := n_params_per_dim s; source := source s;
     n_actions := z; state := state s; done := done s |}.

Definition with_done (b : bool) (s : HybridTorus) : HybridTorus :=
  {| n_dim := n_dim s; length_traj := length_traj s;
     n_params_per_dim := n_params_per_dim s; source := source s;
     n_actions := n_actions s; state := state s; done := b |}.

Definition with_state (l : loc) (s : HybridTorus) : HybridTorus :=
  {| n_dim := n_dim s; length_traj := length_traj s;
     n_params_per_dim := n_params_per_dim s; source := source s;
     n_actions := n_actions s; state := l; done := done s |}.

(** [self.n_actions = z], [self.done = b], [self.state = l] *)
Definition set_n_actions (z : Z) : M unit :=
  s <- get_self ;; put_self (with_n_actions z s).

Definition set_done (b : bool) : M unit :=
  s <- get_self ;; put_self (with_done b s).

Definition set_state (l : loc) : M unit :=
  s <- get_self ;; put_self (with_state l s).

(** The contents of a list object. A reference that the store does not hold
    reads as the empty list: no method below creates such a reference. *)
Definition deref (h : gmap loc (list pyval)) (l : loc) : list pyval :=
  match h !! l with
  | Some v => v
  | None => []
  end.

Definition load (l : loc) : M (list pyval) :=
  fun w => (Ok (deref (heap w) l), w).

(** Overwrite a list object in place. *)
Definition store (l : loc) (v : list pyval) : M unit :=
  fun w => (Ok tt, {| self_ := self_ w; heap := <[l := v]> (heap w); stdout := stdout w |}).

(** A new list object. *)
Definition alloc (v : list pyval) : M loc :=
  fun w =>
    let l := fresh (dom (heap w)) in
    (Ok l, {| self_ := self_ w; heap := <[l := v]> (heap w); stdout := stdout w |}).

(** [print(s)] *)
Definition print (s : string) : M unit :=
  fun w => (Ok tt, {| self_ := self_ w; heap := heap w; stdout := stdout w ++ [s] |}).

(** ** The methods of [HybridTorus] *)

(** [reset]: the angles are [0.0], the counter is the int [0], and the state
    is a new list. (The attributes [angles] and [id] are not read by the
    methods below and are left out.) *)
Definition reset : M unit :=
  self <- get_self ;;
  set_n_actions 0 ;;;
  l <- alloc (map PyFloat (replicate (n_dim self) 0%float) ++ [PyInt 0]) ;;
  set_state l ;;;
  set_done false.

(** The world that the constructor leaves: [__init__] stores its arguments,
    calls [reset] and copies the angles into [source]. *)
Definition init_world (n : nat) (lt : Z) (do_nonzero_source_prob : bool) : world :=
  snd (reset {| self_ := {| n_dim := n; length_traj := lt;
                            n_params_per_dim := if do_nonzero_source_prob then 4 else 3;
                            source := replicate n 0%float;
                            n_actions := 0; state := 1%positive; done := false |};
                heap := ∅; stdout := [] |}).

(** The [state] argument of a method that only reads it: the list given, or
    [self.state.copy()]. *)
Definition state_arg (st : option (list pyval)) : M (list pyval) :=
  match st with
  | Some s => ret s
  | None => self <- get_self ;; load (state self)
  end.

Definition done_arg (d : option bool) : M bool :=
  match d with
  | Some b => ret b
  | None => self <- get_self ;; ret (done self)
  end.

(** [get_mask_invalid_actions_forward]: [true] marks an invalid action. *)
Definition get_mask_invalid_actions_forward
    (st : option (list pyval)) (d : option bool) : M (list bool) :=
  self <- get_self ;;
  st <- state_arg st ;;
  d <- done_arg d ;;
  if d then ret (replicate (len_action_space self) true)
  else
    c <- lift (list_getitem st (-1)) ;;
    if py_ge_int c (length_traj self) then
      lift (list_setitem (replicate (len_action_space self) true) (-1) false)
    else
      lift (list_setitem (replicate (len_action_space self) false) (-1) true).

(** [zip] of two and of three lists *)
Fixpoint zip2 {A B : Type} (l1 : list A) (l2 : list B) : list (A * B) :=
  match l1, l2 with
  | a :: l1', b :: l2' => (a, b) :: zip2 l1' l2'
  | _, _ => []
  end.

Fixpoint zip3 {A B C : Type} (l1 : list A) (l2 : list B) (l3 : list C)
  : list (A * B * C) :=
  match l1, l2, l3 with
  | a :: l1', b :: l2', c :: l3' => (a, b, c) :: zip3 l1' l2' l3'
  | _, _, _ => []
  end.

(** [[s for s, ss in zip(state[:-1], self.source) if s != ss]] *)
Definition noninit_states (st : list pyval) (src : list float) : list pyval :=
  map fst (filter (fun p => negb (py_eq_float (fst p) (snd p)) = true)
                  (zip2 (removelast st) src)).

(** [get_mask_invalid_actions_backward] *)
Definition get_mask_invalid_actions_backward
    (st : option (list pyval)) (d : option bool) : M (list bool) :=
  self <- get_self ;;
  st <- state_arg st ;;
  d <- done_arg d ;;
  mask <- lift (if d then
                  list_setitem (replicate (len_action_space self) true) (-1) false
                else
                  list_setitem (replicate (len_action_space self) false) (-1) true) ;;
  let n := Z.of_nat (length (noninit_states st (source self))) in
  c <- lift (list_getitem st (-1)) ;;
  if int_gt_py n c then
    print "This point in the code should never be reached!" ;;;
    ret mask
  else if int_eq_py n c && int_ge_py n (py_pred c) then
    last_m <- lift (list_getitem mask (-1)) ;;
    ret (map (fun p : bool * pyval * float =>
                let '(m, s, ss) := p in if py_eq_float s ss then true else m)
             (zip3 mask (removelast st) (source self)) ++ [last_m])
  else ret mask.

(** [get_parents]. The state is the reference given, or a copy of
    [self.state]; a state that is not done is overwritten in place, and the
    reference itself is returned as the parent. *)
Definition get_parents (st : option loc) (d : option bool) (a : action)
  : M (list loc * list action) :=
  self <- get_self ;;
  l <- match st with
       | Some l => ret l
       | None => s <- load (state self) ;; alloc s
       end ;;
  d <- done_arg d ;;
  if d then ret ([l], [(eos self, 0%float)])
  else
    (* state[action[0]] = (state[action[0]] - action[1]) % (2 * np.pi) *)
    s <- load l ;;
    v <- lift (list_getitem s (fst a)) ;;
    v <- lift (py_sub_float v (snd a)) ;;
    v <- lift (py_mod_float v two_pi) ;;
    s <- lift (list_setitem s (fst a) v) ;;
    store l s ;;;
    (* state[-1] -= 1 *)
    s <- load l ;;
    c <- lift (list_getitem s (-1)) ;;
    s <- lift (list_setitem s (-1) (py_pred c)) ;;
    store l s ;;;
    ret ([l], [a]).

(** [step]: the list returned is [self.state] itself. *)
Definition step (a : action) : M (loc * action * bool) :=
  self <- get_self ;;
  if done self then ret (state self, a, false)
  else if n_actions self =? length_traj self then
    set_done true ;;;
    set_n_actions (n_actions self + 1) ;;;
    ret (state self, (eos self, 0%float), true)
  else if negb (fst a =? eos self) then
    set_n_actions (n_actions self + 1) ;;;
    (* self.state[action[0]] += action[1] *)
    s <- load (state self) ;;
    v <- lift (list_getitem s (fst a)) ;;
    v <- lift (py_add_float v (snd a)) ;;
    s <- lift (list_setitem s (fst a) v) ;;
    store (state self) s ;;;
    (* self.state[action[0]] = self.state[action[0]] % (2 * np.pi) *)
    s <- load (state self) ;;
    v <- lift (list_getitem s (fst a)) ;;
    v <- lift (py_mod_float v two_pi) ;;
    s <- lift (list_setitem s (fst a) v) ;;
    store (state self) s ;;;
    (* self.state[-1] = self.n_actions *)
    s <- load (state self) ;;
    s <- lift (list_setitem s (-1) (PyInt (n_actions self + 1))) ;;
    store (state self) s ;;;
    ret (state self, a, true)
  else ret (state self, a, false).

(** The worlds that a sequence of [step] calls reaches after the constructor
    (which calls [reset]), when the actions given satisfy [P]; a call that
    raises leaves the world it had reached. *)
Inductive reachable_by (P : action -> Prop) (n : nat) (lt : Z) (b : bool)
  : world -> Prop :=
  | reach_init : reachable_by P n lt b (init_world n lt b)
  | reach_reset (w : world) :
      reachable_by P n lt b w -> reachable_by P n lt b (snd (reset w))
  | reach_step (w : world) (a : action) :
      P a -> reachable_by P n lt b w -> reachable_by P n lt b (snd (step a w)).

(** With any actions at all, and with actions whose increment is a finite
    float. *)
Definition reachable : nat -> Z -> bool -> world -> Prop :=
  reachable_by (fun _ => True).

Definition finite_increment (a : action) : Prop := is_finite (snd a) = true.


(** ** Strings *)

Module PyStr.

Open Scope string_scope.

(** [s.split(sep)] for a separator that is not empty: the pieces between
    the occurrences of [sep], found from left to right. [skip] counts the
    characters of a separator still to pass over, [cur] is the piece being
    read, last character first. *)
Fixpoint split_aux (sep : string) (skip : nat) (cur : list ascii) (s : string)
  : list string :=
  match s with
  | EmptyString => [string_of_list_ascii (rev cur)]
  | String c s' =>
      match skip with
      | S k => split_aux sep k cur s'
      | O =>
          if String.prefix sep s then
            string_of_list_ascii (rev cur)
              :: split_aux sep (String.length sep - 1) [] s'
          else split_aux sep 0 (c :: cur) s'
      end
  end.

Definition split (sep s : string) : list string := split_aux sep 0 [] s.

Definition mem (c : ascii) (chars : string) : bool :=
  existsb (Ascii.eqb c) (list_ascii_of_string chars).

Fixpoint lstrip_list (chars : string) (l : list ascii) : list ascii :=
  match l with
  | c :: l' => if mem c chars then lstrip_list chars l' else l
  | [] => []
  end.

(** [s.strip(chars)] *)
Definition strip (chars s : string) : string :=
  string_of_list_ascii
    (rev (lstrip_list chars (rev (lstrip_list chars (list_ascii_of_string s))))).

(** [s.replace(old, new)] for a pattern [old] of one character *)
Fixpoint replace (old : ascii) (new : string) (s : string) : string :=
  match s with
  | EmptyString => EmptyString
  | String c s' =>
      if Ascii.eqb c old then new ++ replace old new s'
      else String c (replace old new s')
  end.

Definition lower_ascii (c : ascii) : ascii :=
  let n := nat_of_ascii c in
  if (65 <=? n)%nat && (n <=? 90)%nat then ascii_of_nat (n + 32) else c.

(** [s.lower()], on ASCII letters *)
Fixpoint lower (s : string) : string :=
  match s with
  | EmptyString => EmptyString
  | String c s' => String (lower_ascii c) (lower s')
  end.

Definition digit_of (c : ascii) : option Z :=
  let n := nat_of_ascii c in
  if (48 <=? n)%nat && (n <=? 57)%nat then Some (Z.of_nat (n - 48)) else None.

(** The digits of a decimal literal, where single underscores may stand
    between digits; [seen] tells whether a digit came just before. *)
Fixpoint digits (acc : Z) (seen : bool) (l : list ascii) : option Z :=
  match l with
  | [] => if seen then Some acc else None
  | c :: l' =>
      match digit_of c with
      | Some d => digits (10 * acc + d) true l'
      | None =>
          if Ascii.eqb c "_" && seen then
            match l' with
            | [] => None
            | _ => digits acc false l'
            end
          else None
      end
  end.

(** [int(s)] for a string: white space around, a sign, decimal digits.
    [None] stands for [ValueError]. *)
Definition int_of_str (s : string) : option Z :=
  let ws := String (ascii_of_nat 32) (String (ascii_of_nat 9) (String (ascii_of_nat 10)
            (String (ascii_of_nat 11) (String (ascii_of_nat 12)
            (String (ascii_of_nat 13) EmptyString))))) in
  match list_ascii_of_string (strip ws s) with
  | c :: l =>
      if Ascii.eqb c "-" then option_map Z.opp (digits 0 false l)
      else if Ascii.eqb c "+" then digits 0 false l
      else digits 0 false (c :: l)
  | [] => None
  end.

(** [str(z)] for an int *)
Definition str_of_int (z : Z) : string :=
  DecimalString.NilZero.string_of_int (Z.to_int z).

End PyStr.

(** ** The readable form of a state *)

(** [int(v)]: a float is truncated towards zero. *)
Definition py_int (v : pyval) : result Z :=
  match v with
  | PyInt z => Ok z
  | PyFloat f =>
      match Prim2SF f with
      | S754_nan => Raise ValueError
      | S754_infinity _ => Raise OverflowError
      | S754_zero _ => Ok 0
      | S754_finite s m e =>
          let v := if s then Zneg m else Zpos m in
          Ok (if 0 <=? e then v * 2 ^ e else Z.quot v (2 ^ (- e)))
      end
  end.

(** A list of results, in order, up to the first exception. *)
Fixpoint sequence {A : Type} (l : list (result A)) : result (list A) :=
  match l with
  | [] => Ok []
  | Ok a :: l' =>
      match sequence l' with
      | Ok r => Ok (a :: r)
      | Raise e => Raise e
      end
  | Raise e :: _ => Raise e
  end.

Section Readable.

(** numpy's [str] of a one-dimensional float64 array, and numpy's
    [np.float32] of a string ([None] stands for [ValueError]), with the
    value read as a binary64 number: they are numpy's, not this
    repository's. *)
Variable np_array_str : list float -> string.
Variable np_float32 : string -> option float.

(** [state2readable]: [np.array(state[:-1]) * 180 / np.pi] is computed
    element by element in binary64. *)
Definition state2readable (st : list pyval) : result string :=
  match sequence (map py_float (removelast st)) with
  | Raise e => Raise e
  | Ok angles =>
      let angles := map (fun a => (a * 180 / np_pi)%float) angles in
      let angles :=
        PyStr.replace "," "" (PyStr.replace ")" "]" (PyStr.replace "(" "[" (np_array_str angles))) in
      match list_getitem st (-1) with
      | Raise e => Raise e
      | Ok c =>
          match py_int c with
          | Raise e => Raise e
          | Ok n => Ok (angles ++ " | " ++ PyStr.str_of_int n)%string
          end
      end
  end.

(** [readable2state] *)
Definition readable2state (readable : string) : result (list pyval) :=
  let pair := PyStr.split " | " readable in
  match list_getitem pair 0 with
  | Raise e => Raise e
  | Ok p0 =>
      match sequence (map (fun el => match np_float32 el with
                                     | Some x => Ok (PyFloat (x * np_pi / 180))
                                     | None => Raise ValueError
                                     end)
                          (PyStr.split " " (PyStr.strip "[]" p0))) with
      | Raise e => Raise e
      | Ok angles =>
          match list_getitem pair 1 with
          | Raise e => Raise e
          | Ok p1 =>
              match PyStr.int_of_str p1 with
              | None => Raise ValueError
              | Some n => Ok (angles ++ [PyInt n])
              end
          end
      end
  end.

End Readable.

(** ** The utilities of [gflownet/utils/common.py] *)

Module Common.

Inductive dtype : Set := float16 | float32 | float64.

Inductive device : Set := cuda | cpu.

(** [set_float_precision] *)
Definition set_float_precision (precision : Z) : result dtype :=
  if precision =? 16 then Ok float16
  else if precision =? 32 then Ok float32
  else if precision =? 64 then Ok float64
  else Raise ValueError.

(** [set_device]; [cuda_is_available] is the answer of
    [torch.cuda.is_available()]. *)
Definition set_device (dev : string) (cuda_is_available : bool) : result device :=
  if String.eqb (PyStr.lower dev) "cuda" && cuda_is_available then Ok cuda
  else Ok cpu.

(** A tensor, with the device it lives on. *)
Record tensor : Type := { is_cuda : bool; data : list float }.

(** [torch2np]: the data, moved to the cpu first. *)
Definition torch2np (x : tensor) : result (list float) :=
  let x := if is_cuda x then {| is_cuda := false; data := data x |} else x in
  Ok (data x).

(** A configuration: a value, or a mapping from keys to configurations
    with its items in insertion order. *)
#[warnings="-register-all"] Inductive config : Type :=
  | Value (v : string)
  | Mapping (items : list (string * config)).

(** [d[k] = v] on a dict held as its list of items. *)
Fixpoint dict_set (d : list (string * string)) (k v : string)
  : list (string * string) :=
  match d with
  | [] => [(k, v)]
  | (k', v') :: d' =>
      if String.eqb k' k then (k', v) :: d' else (k', v') :: dict_set d' k v
  end.

(** [dict(items)] *)
Definition dict_of_items (items : list (string * string)) : list (string * string) :=
  fold_left (fun d kv => dict_set d (fst kv) (snd kv)) items [].

(** The items that one item [(k, v)] of a mapping contributes: its value
    under the joined key, or the items of the flattened inner mapping. *)
Fixpoint flatten_item (parent_key sep k : string) (v : config) {struct v}
  : list (string * string) :=
  let new_key :=
    match parent_key with
    | EmptyString => k
    | _ => (parent_key ++ sep ++ k)%string
    end in
  match v with
  | Value x => [(new_key, x)]
  | Mapping items =>
      dict_of_items
        ((fix go (l : list (string * config)) : list (string * string) :=
            match l with
            | [] => []
            | (k', v') :: l' => flatten_item new_key sep k' v' ++ go l'
            end) items)
  end.

(** [flatten_config]: the items of the flattened dict. *)
Definition flatten_config (d : list (string * config)) (parent_key sep : string)
  : result (list (string * string)) :=
  Ok (dict_of_items
        (flat_map (fun kv => flatten_item parent_key sep (fst kv) (snd kv)) d)).

(** [handle_logdir] reads the global name [config], which the module
    never binds. *)
Definition handle_logdir : result unit := Raise NameError.

End Common.

(** ** Sampling actions and scoring them *)

Definition result_bind {A B : Type} (r : result A) (k : A -> result B) : result B :=
  match r with
  | Ok a => k a
  | Raise e => Raise e
  end.

Notation "'let*' x ':=' r 'in' k" := (result_bind r (fun x => k))
  (at level 10, x name, r at level 100, k at level 200).

(** [l[k::n]], the elements at the positions [k], [k + n], ... *)
Fixpoint stride_aux {A : Type} (n skip : nat) (l : list A) : list A :=
  match l with
  | [] => []
  | x :: l' =>
      match skip with
      | O => x :: stride_aux n (n - 1) l'
      | S s => stride_aux n s l'
      end
  end.

Definition stride {A : Type} (k n : nat) (l : list A) : list A := stride_aux n k l.

(** [l[k::n] = vals], for as many values as the slice has places. *)
Fixpoint set_stride_aux {A : Type} (n skip : nat) (l vals : list A) : list A :=
  match l with
  | [] => []
  | x :: l' =>
      match skip with
      | O =>
          match vals with
          | v :: vs => v :: set_stride_aux n (n - 1) l' vs
          | [] => l
          end
      | S s => x :: set_stride_aux n s l' vals
      end
  end.

Definition set_stride {A : Type} (k n : nat) (l vals : list A) : list A :=
  set_stride_aux n k l vals.

(** [t[mask] = v] for a mask of the shape of [t] *)
Definition mask_row (v : float) (m : list bool) (r : list float) : result (list float) :=
  if Nat.eqb (length m) (length r)
  then Ok (zip_with (fun (b : bool) x => if b then v else x) m r)
  else Raise IndexError.

Definition apply_mask (v : float) (mask : option (list (list bool)))
    (t : list (list float)) : result (list (list float)) :=
  match mask with
  | None => Ok t
  | Some m =>
      if Nat.eqb (length m) (length t) then sequence (zip_with (mask_row v) m t)
      else Raise IndexError
  end.

(** Elementwise [!=] of two rows with torch's broadcasting of a row of one
    element: the number of places that differ. Rows that do not fit are
    torch's [RuntimeError]. *)
Definition count_ne (r1 r2 : list float) : result Z :=
  let cnt (l : list (float * float)) :=
    Z.of_nat (length (filter (fun p => negb (fst p =? snd p)%float = true) l)) in
  if Nat.eqb (length r1) (length r2) then Ok (cnt (zip2 r1 r2))
  else
    match r1, r2 with
    | [x], _ => Ok (cnt (zip2 (replicate (length r2) x) r2))
    | _, [y] => Ok (cnt (zip2 r1 (replicate (length r1) y)))
    | _, _ => Raise RuntimeError
    end.

Inductive sampling_method : Set := uniform | policy.

(** The number that a binary64 number becomes in a tensor of the given
    dtype. A tensor of a narrower dtype holds numbers of that format; they
    are read here as the binary64 numbers of the same value, so that a
    float32 number is a number that the conversion to float32 returns as it
    is. *)
Definition torch_cast (d : Common.dtype) (x : float) : float :=
  match d with
  | Common.float16 => round_to 11 16 x
  | Common.float32 => round_to 24 128 x
  | Common.float64 => x
  end.

(** One operation on the tensors of a batch, as it acts on the rows: [f] on
    every row. The operation raises when [f] raises on some row. *)
Definition rows {A B : Type} (f : A -> result B) (l : list A) : result (list B) :=
  sequence (map f l).

(** The same, for an operation that makes a new tensor: the rows come back
    with their entry of the new tensor. *)
Definition with_tensor {A B : Type} (f : A -> result B) (l : list A)
  : result (list (A * B)) :=
  rows (fun x => let* y := f x in Ok (x, y)) l.

(** An operation on the rows that an index selects; the other rows have no
    entry in the tensor that it makes. *)
Definition selected {A : Type} (sel : bool) (r : result A) : result (option A) :=
  if sel then let* y := r in Ok (Some y) else Ok None.

(** Two computations return the same values, whatever they raise. *)
Definition ok_equiv {C : Type} (P Q : result C) : Prop :=
  forall r, P = Ok r <-> Q = Ok r.

(** The batch that [get_logprobs] is given: one row of policy outputs, one
    action and one target state for each state. [batch_of] makes it from
    three tensors of as many rows, [policy_outputs_of] is its tensor of
    policy outputs, and [with_policy_outputs] puts another one in its
    place. *)
Definition batch_of (policy_outputs : list (list float)) (actions : list action)
    (states_target : list (list float)) : list (list float * action * list float) :=
  zip2 (zip2 policy_outputs actions) states_target.

Definition policy_outputs_of (batch : list (list float * action * list float))
  : list (list float) :=
  map (fun b => fst (fst b)) batch.

Definition with_policy_outputs (policy_outputs : list (list float))
    (batch : list (list float * action * list float))
  : list (list float * action * list float) :=
  zip_with (fun row b => (row, snd (fst b), snd b)) policy_outputs batch.

Section Logprobs.

Variable self : HybridTorus.

(** All tensors are float64 tensors: the policy outputs and the target
    states that the methods are given and, float64 being the default dtype
    of the program, the tensors that they make with [torch.zeros],
    [torch.ones] and [torch.tensor]. The one exception is the tensor that
    [torch.FloatTensor] makes, which is a float32 tensor whatever the
    default dtype is.

    torch's kernels are parameters: [LogSoftmax] over a row and [exp];
    then the distributions. torch validates the arguments of a
    distribution: the value [None] stands for the [ValueError] that it
    raises when it rejects the parameters ([VonMises(loc, concentration)],
    [Bernoulli(logits)], [Categorical(logits)]) or the value given to
    [log_prob]. The draws are those of the row numbered [i]. *)
Variable logsoftmax : list float -> list float.
Variable torch_exp : float -> float.
Variable vonmises_log_prob : float -> float -> float -> option float.
Variable uniform_log_prob : float -> option float.
Variable bernoulli_log_prob : float -> float -> option float.
Variable categorical_draw : nat -> list float -> option Z.
Variable vonmises_draw : nat -> float -> float -> option float.
Variable uniform_draw : nat -> float.

(** [self.vonmises_concentration_epsilon = 1e-3] *)
Definition vonmises_concentration_epsilon : float := 0x1.0624dd2f1a9fcp-10%float.

(** [self.policy_output_dim] *)
Definition policy_output_dim : nat := n_dim self * n_params_per_dim self + 1.

(** [torch.exp(concentrations) + self.vonmises_concentration_epsilon] *)
Definition concentration_of (c : float) : float :=
  (torch_exp c + vonmises_concentration_epsilon)%float.

(** [sample_actions]: the actions, their log-probabilities, and the
    contents of the tensor [policy_outputs] after the call: the logits are
    a view of it, so dividing and masking them writes into it. Each
    statement of the source that acts on tensors is one pass over the rows
    of the batch, so that an exception of an earlier statement comes before
    those of a later one, whichever rows raise them. *)
Definition sample_actions (policy_outputs : list (list float))
    (method : sampling_method) (mask_invalid_actions : option (list (list bool)))
    (temperature_logits loginf : float)
  : result (list action * list float * list (list float)) :=
  let noeos (d : Z) := negb (d =? eos self) in
  let* logits_dims :=
    match method with
    | uniform =>
        Ok (replicate (length policy_outputs) (replicate policy_output_dim 1%float))
    | policy =>
        if Nat.eqb (n_params_per_dim self) 0 then Raise ValueError
        else Ok (map (fun row => map (fun x => (x / temperature_logits)%float)
                                     (stride 0 (n_params_per_dim self) row))
                     policy_outputs)
    end in
  let* logits_dims := apply_mask (- loginf)%float mask_invalid_actions logits_dims in
  let policy_outputs :=
    match method with
    | uniform => policy_outputs
    | policy => zip_with (set_stride 0 (n_params_per_dim self)) policy_outputs logits_dims
    end in
  let t := imap (fun i (p : list float * list float) => (i, fst p, snd p))
                (zip2 policy_outputs logits_dims) in
  let* sampled :=
    (* dimensions = Categorical(logits=logits_dims).sample() *)
    let* t := with_tensor (fun '(i, _, logits) =>
                             of_option ValueError (categorical_draw i logits)) t in
    (* logprobs_dim = self.logsoftmax(logits_dims)[ns_range, dimensions] *)
    let* t := with_tensor (fun '(_, _, logits, d) =>
                             list_getitem (logsoftmax logits) d) t in
    match method with
    | uniform =>
        (* angles[ns_range_noeos] = distr_angles.sample() *)
        let t := map (fun '(i, _, _, d, logprob_dim) =>
                        (d, logprob_dim,
                         if noeos d then uniform_draw i else 0%float)) t in
        (* logprobs_angles[ns_range_noeos] = distr_angles.log_prob(...) *)
        let* t := with_tensor (fun '(d, _, angle) =>
                                 if noeos d then
                                   of_option ValueError (uniform_log_prob angle)
                                 else Ok 0%float) t in
        Ok (map (fun '(d, logprob_dim, angle, logprob_angle) =>
                   ((d, angle), (logprob_dim + logprob_angle)%float)) t)
    | policy =>
        (* locations, concentrations *)
        let* t := with_tensor (fun '(_, row, _, d, _) =>
                                 selected (noeos d)
                                   (list_getitem (stride 1 (n_params_per_dim self) row) d)) t in
        let* t := with_tensor (fun '(_, row, _, d, _, _) =>
                                 selected (noeos d)
                                   (list_getitem (stride 2 (n_params_per_dim self) row) d)) t in
        (* distr_angles = VonMises(...); angles[ns_range_noeos] = distr_angles.sample() *)
        let* t := with_tensor (fun '(i, _, _, _, _, location, concentration) =>
                                 match location, concentration with
                                 | Some loc, Some c =>
                                     of_option ValueError
                                       (vonmises_draw i loc (concentration_of c))
                                 | _, _ => Ok 0%float
                                 end) t in
        (* logprobs_angles[ns_range_noeos] = distr_angles.log_prob(...) *)
        let* t := with_tensor (fun '(_, _, _, _, _, location, concentration, angle) =>
                                 match location, concentration with
                                 | Some loc, Some c =>
                                     of_option ValueError
                                       (vonmises_log_prob loc (concentration_of c) angle)
                                 | _, _ => Ok 0%float
                                 end) t in
        Ok (map (fun '(_, _, _, d, logprob_dim, _, _, angle, logprob_angle) =>
                   ((d, angle), (logprob_dim + logprob_angle)%float)) t)
    end in
  Ok (map fst sampled, map snd sampled, policy_outputs).

(** [get_logprobs] on a batch. The signature gives [policy_outputs],
    [actions] and [states_target] the same number of rows, [n_states]: the
    batch has one row of policy outputs, one action and one target state
    for each state, and calls on tensors of different numbers of rows are
    not described. It returns the log-probabilities, and the contents of
    the tensor [policy_outputs] after the call: the logits are a view of
    it, so masking them writes into it. The statements of the source are
    passes over the rows, as in [sample_actions]. An action is the pair of
    a dimension, the integer that [d.long()] gives, and of an angle. *)
Definition get_logprobs (batch : list (list float * action * list float))
    (is_forward : bool) (mask_invalid_actions : option (list (list bool)))
    (loginf : float)
  : result (list float * list (list float)) :=
  match batch with
  | [] => Raise ValueError
  | _ =>
      let policy_outputs := policy_outputs_of batch in
      (* angles = torch.FloatTensor(angles) *)
      let targets :=
        map (fun '(_, (d, angle), state_target) =>
               (d, torch_cast Common.float32 angle, state_target)) batch in
      if Nat.eqb (n_params_per_dim self) 0 then Raise ValueError else
      let logits_dims := map (stride 0 (n_params_per_dim self)) policy_outputs in
      let* logits_dims := apply_mask (- loginf)%float mask_invalid_actions logits_dims in
      let policy_outputs :=
        zip_with (set_stride 0 (n_params_per_dim self)) policy_outputs logits_dims in
      let t := zip2 (zip2 policy_outputs logits_dims) targets in
      let* logprobs :=
        (* logprobs_dim = self.logsoftmax(logits_dims)[ns_range, dimensions] *)
        let* t := with_tensor (fun '(_, logits, (d, _, _)) =>
                                 list_getitem (logsoftmax logits) d) t in
        (* source = torch.tensor(self.source); source_aux *)
        let source_tensor := source self in
        let source_aux := source self ++ [(-1)%float] in
        (* torch.sum(torch.ne(states_target[:, :-1], source), axis=1) *)
        let* t := with_tensor (fun '(_, _, (_, _, state_target), _) =>
                                 count_ne (removelast state_target) source_tensor) t in
        (* states_target[:, -1] *)
        let* t := with_tensor (fun '(_, _, (_, _, state_target), _, _) =>
                                 list_getitem state_target (-1)) t in
        (* states_target[ns_range, dimensions] *)
        let* t := with_tensor (fun '(_, _, (d, _, state_target), _, _, _) =>
                                 list_getitem state_target d) t in
        (* source_aux[dimensions] *)
        let* t := with_tensor (fun '(_, _, (d, _, _), _, _, _, _) =>
                                 list_getitem source_aux d) t in
        (* nofix_indices *)
        let t :=
          map (fun '(row, _, (d, angle, _), logprob_dim, nsource, nsteps, angledim, sourcedim) =>
                 let nsource_ne_nsteps := negb (int_eq_py nsource (PyFloat nsteps)) in
                 let angledim_ne_source := negb (angledim =? sourcedim)%float in
                 let noeos := negb (d =? eos self) in
                 (row, d, angle, logprob_dim, angledim_ne_source,
                  ((nsource_ne_nsteps || angledim_ne_source) || is_forward) && noeos)) t in
        (* locations, concentrations *)
        let* t := with_tensor (fun '(row, d, _, _, _, nofix) =>
                                 selected nofix
                                   (list_getitem (stride 1 (n_params_per_dim self) row) d)) t in
        let* t := with_tensor (fun '(row, d, _, _, _, nofix, _) =>
                                 selected nofix
                                   (list_getitem (stride 2 (n_params_per_dim self) row) d)) t in
        (* logprobs_angles[ns_range_nofix] = distr_angles.log_prob(angles[ns_range_nofix]) *)
        let* t := with_tensor (fun '(_, _, angle, _, _, _, location, concentration) =>
                                 match location, concentration with
                                 | Some loc, Some c =>
                                     of_option ValueError
                                       (vonmises_log_prob loc (concentration_of c) angle)
                                 | _, _ => Ok 0%float
                                 end) t in
        if Nat.eqb (n_params_per_dim self) 4 && negb is_forward then
          (* logits_nosource *)
          let* t := with_tensor (fun '(row, d, _, _, _, nofix, _, _, _) =>
                                   selected nofix
                                     (list_getitem (stride 3 (n_params_per_dim self) row) d)) t in
          (* logprobs_nosource[ns_range_nofix] = distr_nosource.log_prob(...) *)
          let* t := with_tensor (fun '(_, _, _, _, angledim_ne_source, _, _, _, _, logit_nosource) =>
                                   match logit_nosource with
                                   | Some logit =>
                                       of_option ValueError
                                         (bernoulli_log_prob logit
                                            (if angledim_ne_source : bool then 1 else 0)%float)
                                   | None => Ok 0%float
                                   end) t in
          Ok (map (fun '(_, _, _, logprob_dim, _, _, _, _, logprob_angle, _, logprob_nosource) =>
                     (logprob_dim + logprob_angle + logprob_nosource)%float) t)
        else
          Ok (map (fun '(_, _, _, logprob_dim, _, _, _, _, logprob_angle) =>
                     (logprob_dim + logprob_angle + 0)%float) t) in
      Ok (logprobs, policy_outputs)
  end.

(** The parameters of the von Mises distribution of dimension [d], read
    from a row of policy outputs. *)
Definition vonmises_params (row : list float) (d : Z) : result (float * float) :=
  let* location := list_getitem (stride 1 (n_params_per_dim self) row) d in
  let* concentration := list_getitem (stride 2 (n_params_per_dim self) row) d in
  Ok (location, (torch_exp concentration + vonmises_concentration_epsilon)%float).

(** What the passes of [sample_actions] do to the row numbered [i], when
    none of them raises: the action sampled and its log-probability. [row]
    is the row of policy outputs and [logits] its logits, both after the
    division by the temperature and the masking. *)
Definition sample_row (method : sampling_method) (r : nat * list float * list float)
  : result (action * float) :=
  let '(i, row, logits) := r in
  let* d := of_option ValueError (categorical_draw i logits) in
  let* logprob_dim := list_getitem (logsoftmax logits) d in
  if negb (d =? eos self) then
    match method with
    | uniform =>
        let angle := uniform_draw i in
        let* lp := of_option ValueError (uniform_log_prob angle) in
        Ok ((d, angle), (logprob_dim + lp)%float)
    | policy =>
        let* params := vonmises_params row d in
        let* x := of_option ValueError (vonmises_draw i (fst params) (snd params)) in
        let* lp := of_option ValueError
                     (vonmises_log_prob (fst params) (snd params) x) in
        Ok ((d, x), (logprob_dim + lp)%float)
    end
  else Ok ((d, 0%float), (logprob_dim + 0)%float).

(** The same for [get_logprobs]. *)
Definition logprob_row (is_forward : bool)
    (r : list float * list float * (Z * float * list float)) : result float :=
  let '(row, logits, (d, angle, state_target)) := r in
  let* logprob_dim := list_getitem (logsoftmax logits) d in
  let* nsource := count_ne (removelast state_target) (source self) in
  let* nsteps := list_getitem state_target (-1) in
  let* angledim := list_getitem state_target d in
  let* sourcedim := list_getitem (source self ++ [(-1)%float]) d in
  let nsource_ne_nsteps := negb (int_eq_py nsource (PyFloat nsteps)) in
  let angledim_ne_source := negb (angledim =? sourcedim)%float in
  let noeos := negb (d =? eos self) in
  if ((nsource_ne_nsteps || angledim_ne_source) || is_forward) && noeos then
    let* params := vonmises_params row d in
    let* lp := of_option ValueError
                 (vonmises_log_prob (fst params) (snd params) angle) in
    if Nat.eqb (n_params_per_dim self) 4 && negb is_forward then
      let* logit := list_getitem (stride 3 (n_params_per_dim self) row) d in
      let* lpn := of_option ValueError
                    (bernoulli_log_prob logit (if angledim_ne_source then 1 else 0)%float) in
      Ok (logprob_dim + lp + lpn)%float
    else Ok (logprob_dim + lp + 0)%float
  else Ok (logprob_dim + 0 + 0)%float.

End Logprobs.


(** ** What the statements below speak of *)

(** The state list of a world. *)
Definition state_list (w : world) : list pyval :=
  deref (heap w) (state (self_ w)).

(** Every angle of the state lies in the half-open interval from [0] to
    [2 * np.pi]. *)
Definition angles_half_open (n : nat) (w : world) : Prop :=
  forall (j : nat) (x : float),
    (j < n)%nat -> state_list w !! j = Some (PyFloat x) ->
    in_half_open two_pi x = true.

(** The state holds [n] float angles that satisfy [Q], and then an int
    counter between [0] and [lt]. *)
Definition state_ok_with (Q : float -> Prop) (n : nat) (lt : Z) (w : world) : Prop :=
  exists st,
    heap w !! state (self_ w) = Some st
    /\ length st = S n
    /\ (forall j : nat, (j < n)%nat -> exists x, st !! j = Some (PyFloat x) /\ Q x)
    /\ exists c, st !! n = Some (PyInt c) /\ 0 <= c <= lt.

(** Every angle lies in the closed interval from [0] to [2 * np.pi]; every
    angle is NaN or lies in it. *)
Definition state_closed : nat -> Z -> world -> Prop :=
  state_ok_with (fun x => in_closed two_pi x = true).

Definition state_ok : nat -> Z -> world -> Prop :=
  state_ok_with (in_range two_pi).

(** The invariant of the worlds that [step] reaches: the state is as
    [state_ok_with] says, and the counter attribute of a trajectory that is
    not done has not passed [lt]. *)
Definition inv (Q : float -> Prop) (n : nat) (lt : Z) (w : world) : Prop :=
  n_dim (self_ w) = n /\ length_traj (self_ w) = lt /\ state_ok_with Q n lt w
  /\ (done (self_ w) = false -> 0 <= n_actions (self_ w) <= lt).

(** A mask in which [eos] is the only valid action, and one in which the
    actions on the dimensions are the valid ones. *)
Definition only_eos_valid (n : nat) : list bool := replicate n true ++ [false].

Definition all_but_eos_valid (n : nat) : list bool := replicate n false ++ [true].

(** numpy at the values that the examples below need. [str] of the array
    [[90., 0.]] is ["[90.  0.]"]: numpy pads the elements of an array to a
    common width. [np.float32] reads ["90."] and ["0."], and raises on the
    empty string. Other arguments are not needed and read as the empty
    string, or as not a number. *)
Definition np_array_str_sample (l : list float) : string :=
  match l with
  | [a; b] => if ((a =? 90) && (b =? 0))%float then "[90.  0.]"%string else EmptyString
  | _ => EmptyString
  end.

Definition np_float32_sample (s : string) : option float :=
  if String.eqb s "90." then Some 90%float
  else if String.eqb s "0." then Some 0%float
  else None.

(** ** The rest of the class: the action space, the fixed policy outputs,
    the policy form of a state *)

(** [get_actions_space]: one entry [(d, None)] for each dimension, and
    [(eos, 0.0)]. *)
Definition get_actions_space (self : HybridTorus) : list (Z * option float) :=
  map (fun d => (Z.of_nat d, None)) (seq 0 (n_dim self)) ++ [(eos self, Some 0%float)].

(** The parameters of a fixed policy distribution that [get_policy_output]
    reads. *)
Record distribution : Set := {
  vonmises_mean : float;
  vonmises_concentration : float
}.

(** [l[k::n] = v] for one value [v], as numpy broadcasts it over the slice. *)
Definition fill_stride {A : Type} (k n : nat) (l : list A) (v : A) : list A :=
  set_stride k n l (replicate (length (stride k n l)) v).

(** [get_policy_output]: a slice of step zero is numpy's [ValueError]. *)
Definition get_policy_output (self : HybridTorus) (params : distribution)
  : result (list float) :=
  if Nat.eqb (n_params_per_dim self) 0 then Raise ValueError else
  let policy_output := replicate (n_dim self * n_params_per_dim self + 1) 1%float in
  let policy_output :=
    fill_stride 1 (n_params_per_dim self) policy_output (vonmises_mean params) in
  let policy_output :=
    fill_stride 2 (n_params_per_dim self) policy_output (vonmises_concentration params) in
  Ok policy_output.

(** [state2policy]: the list given, or a copy of [self.state]. *)
Definition state2policy (st : option loc) : M loc :=
  match st with
  | Some l => ret l
  | None => self <- get_self ;; s <- load (state self) ;; alloc s
  end.

(** [policy2state] *)
Definition policy2state (state_policy : loc) : M loc := ret state_policy.

(** ** Trajectories *)

(** A sequence of [step] calls on the object: the validity flags that the
    calls report, in order. *)
Fixpoint trajectory (acts : list action) : M (list bool) :=
  match acts with
  | [] => ret []
  | a :: acts' =>
      r <- step a ;;
      vs <- trajectory acts' ;;
      ret (snd r :: vs)
  end.

(** An action that names one of the [n] dimensions; one that names a
    dimension or [eos]. *)
Definition acts_on_dimension (n : nat) (a : action) : Prop :=
  0 <= fst a < Z.of_nat n.

Definition dimension_or_eos (n : nat) (a : action) : Prop :=
  0 <= fst a <= Z.of_nat n.

(** What every sequence of [step] and [reset] calls keeps, whatever the
    actions: the state is a list of [n] components and an int counter, no more
    angles differ from the source than the counter says, the counter has not
    passed the counter attribute while the trajectory runs, and the
    trajectory is done exactly when the attribute is [lt + 1]. *)
Definition counters_inv (n : nat) (lt : Z) (w : world) : Prop :=
  n_dim (self_ w) = n /\ length_traj (self_ w) = lt
  /\ source (self_ w) = replicate n 0%float
  /\ exists (angles : list pyval) (c : Z),
       heap w !! state (self_ w) = Some (angles ++ [PyInt c])
       /\ length angles = n
       /\ Z.of_nat (length (noninit_states (angles ++ [PyInt c]) (source (self_ w)))) <= c
       /\ (done (self_ w) = false -> c <= n_actions (self_ w) <= lt)
       /\ (done (self_ w) = true -> n_actions (self_ w) = lt + 1).

(** What the calls keep when every action names a dimension or [eos]: the
    angles are floats, and the counter of the state is the counter attribute
    until the forced termination. *)
Definition sync_inv (n : nat) (lt : Z) (w : world) : Prop :=
  n_dim (self_ w) = n /\ length_traj (self_ w) = lt
  /\ exists (xs : list float) (c : Z),
       heap w !! state (self_ w) = Some (map PyFloat xs ++ [PyInt c])
       /\ length xs = n /\ 0 <= c <= lt
       /\ (done (self_ w) = false -> n_actions (self_ w) = c)
       /\ (done (self_ w) = true -> c = lt /\ n_actions (self_ w) = lt + 1).

(** ** Strings and configurations in the statements *)

(** A piece of a readable form: none of its characters is a space, a
    bracket, a parenthesis, a comma or a bar. *)
Definition plain (p : string) : Prop :=
  Forall (fun c => PyStr.mem c " []|()," = false) (list_ascii_of_string p).

(** A decimal digit. *)
Definition is_digit (c : ascii) : Prop := PyStr.digit_of c <> None.

(** The character [c] is the letter [l] or its upper case [u]. *)
Definition letter (l u c : ascii) : Prop := c = l \/ c = u.

(** A flattened dict read as a configuration again: every value is a leaf. *)
Definition config_of_dict (d : list (string * string)) : list (string * Common.config) :=
  map (fun kv => (fst kv, Common.Value (snd kv))) d.

(** numpy's [str] of an array of zeros: ["[0. 0.]"] for two of them. Other
    arrays are not needed and read as the empty string. *)
Definition np_array_str_zeros (l : list float) : string :=
  if forallb (fun a => (a =? 0)%float) l
  then ("[" ++ String.concat " " (map (fun _ => "0.") l) ++ "]")%string
  else EmptyString.

(** * Properties *)

(** ** Binary64: the canonical form, the order, and one rounded addition *)

Lemma digits2_pos_bounds (m : positive) :
  2 ^ (Zpos (digits2_pos m) - 1) <= Zpos m < 2 ^ (Zpos (digits2_pos m)).
Proof.
  induction m as [m IH | m IH |]; simpl digits2_pos.
  - rewrite Pos2Z.inj_succ, Z.pow_succ_r by lia.
    replace (Z.succ (Z.pos (digits2_pos m)) - 1) with (Z.succ (Z.pos (digits2_pos m) - 1)) by lia.
    rewrite Z.pow_succ_r by lia. lia.
  - rewrite Pos2Z.inj_succ, Z.pow_succ_r by lia.
    replace (Z.succ (Z.pos (digits2_pos m)) - 1) with (Z.succ (Z.pos (digits2_pos m) - 1)) by lia.
    rewrite Z.pow_succ_r by lia. lia.
  - simpl. lia.
Qed.

Lemma digits2_pos_le (m : positive) (k : Z) :
  0 <= k -> Zpos m < 2 ^ k -> Zpos (digits2_pos m) <= k.
Proof.
  intros Hk Hm. destruct (digits2_pos_bounds m) as [Hlo _].
  destruct (Z_le_gt_dec (Zpos (digits2_pos m)) k) as [|Hgt]; [done|].
  exfalso. assert (2 ^ k <= 2 ^ (Zpos (digits2_pos m) - 1)) by (apply Z.pow_le_mono_r; lia).
  lia.
Qed.

Lemma valid_finite (s : bool) (m : positive) (e : Z) :
  valid_binary (S754_finite s m e) = true ->
  -1074 <= e <= 971 /\ Zpos (digits2_pos m) <= 53
  /\ (-1074 < e -> Zpos (digits2_pos m) = 53).
Proof.
  unfold SpecFloat.valid_binary, bounded, canonical_mantissa, fexp, SpecFloat.emin, prec, emax.
  intros H. apply andb_prop in H as [H1 H2].
  apply Z.eqb_eq in H1. apply Z.leb_le in H2. lia.
Qed.

Lemma sf_val_pos m e : -1074 <= e -> 0 < sf_val m e.
Proof. intros. unfold sf_val. apply Z.mul_pos_pos; [lia|]. apply Z.pow_pos_nonneg; lia. Qed.

Lemma sf_val_lt_exp (m1 m2 : positive) (e1 e2 : Z) :
  -1074 <= e1 -> e1 < e2 ->
  Zpos (digits2_pos m1) <= 53 -> Zpos (digits2_pos m2) = 53 ->
  sf_val m1 e1 < sf_val m2 e2.
Proof.
  intros He1 Hlt Hd1 Hd2. unfold sf_val.
  destruct (digits2_pos_bounds m1) as [_ Hhi1].
  destruct (digits2_pos_bounds m2) as [Hlo2 _]. rewrite Hd2 in Hlo2.
  assert (Hm1 : Zpos m1 < 2 ^ 53).
  { eapply Z.lt_le_trans; [exact Hhi1|]. apply Z.pow_le_mono_r; lia. }
  replace (e2 + 1074) with ((e1 + 1074) + (e2 - e1)) by lia.
  rewrite (Z.pow_add_r 2 (e1 + 1074) (e2 - e1)) by lia.
  assert (Hp : 0 < 2 ^ (e1 + 1074)) by (apply Z.pow_pos_nonneg; lia).
  assert (Hq : 2 ^ 1 <= 2 ^ (e2 - e1)) by (apply Z.pow_le_mono_r; lia).
  change (2 ^ 1) with 2 in Hq. change (53 - 1) with 52 in Hlo2.
  assert (H53 : 2 ^ 53 = 2 ^ 52 * 2) by reflexivity.
  set (a := 2 ^ 52) in *. set (b := 2 ^ (e2 - e1)) in *.
  set (c := 2 ^ (e1 + 1074)) in *.
  assert (Zpos m1 < Zpos m2 * b) by nia.
  replace (Zpos m2 * (c * b)) with (Zpos m2 * b * c) by ring.
  apply Z.mul_lt_mono_pos_r; lia.
Qed.

Lemma SFcompare_pos_valid (m1 m2 : positive) (e1 e2 : Z) :
  valid_binary (S754_finite false m1 e1) = true ->
  valid_binary (S754_finite false m2 e2) = true ->
  SFcompare (S754_finite false m1 e1) (S754_finite false m2 e2)
  = Some (sf_val m1 e1 ?= sf_val m2 e2).
Proof.
  intros V1 V2. apply valid_finite in V1 as (He1 & Hd1 & Hn1).
  apply valid_finite in V2 as (He2 & Hd2 & Hn2).
  simpl. f_equal. destruct (Z.compare_spec e1 e2) as [Heq | Hlt | Hgt].
  - subst e2. unfold sf_val. rewrite Pos.compare_cont_spec. simpl.
    assert (0 < 2 ^ (e1 + 1074)) by (apply Z.pow_pos_nonneg; lia).
    destruct (Pos.compare_spec m1 m2); symmetry.
    + subst. apply Z.compare_refl.
    + apply Z.compare_lt_iff. apply Z.mul_lt_mono_pos_r; lia.
    + apply Z.compare_gt_iff. apply Z.mul_lt_mono_pos_r; lia.
  - symmetry. apply Z.compare_lt_iff. apply sf_val_lt_exp; lia.
  - symmetry. apply Z.compare_gt_iff. apply sf_val_lt_exp; lia.
Qed.

Lemma iter_xO_val (m d : positive) : Zpos (Pos.iter xO m d) = Zpos m * 2 ^ Zpos d.
Proof.
  induction d as [|d IH] using Pos.peano_ind.
  - simpl. lia.
  - rewrite Pos.iter_succ, Pos2Z.inj_xO, IH, Pos2Z.inj_succ, Z.pow_succ_r by lia. ring.
Qed.

Lemma iter_xO_digits (m d : positive) :
  digits2_pos (Pos.iter xO m d) = (digits2_pos m + d)%positive.
Proof.
  induction d as [|d IH] using Pos.peano_ind.
  - simpl. lia.
  - rewrite Pos.iter_succ. simpl. rewrite IH. lia.
Qed.

Lemma shl_align_spec (m : positive) (e e' : Z) :
  let '(m', e'') := shl_align m e e' in
  e'' = Z.min e e' /\ Zpos m' = Zpos m * 2 ^ (e - e'')
  /\ Zpos (digits2_pos m') = Zpos (digits2_pos m) + (e - e'').
Proof.
  unfold shl_align. destruct (e' - e) as [|d|d] eqn:Hd.
  - replace (Z.min e e') with e by lia. rewrite Z.sub_diag. simpl. lia.
  - replace (Z.min e e') with e by lia. rewrite Z.sub_diag. simpl. lia.
  - replace (Z.min e e') with e' by lia.
    rewrite iter_xO_val, iter_xO_digits. replace (e - e') with (Zpos d) by lia.
    lia.
Qed.

Lemma shr_1_m (mrs : shr_record) : 0 <= shr_m mrs -> shr_m (shr_1 mrs) = shr_m mrs / 2.
Proof.
  destruct mrs as [m r s]. intros Hm. cbn [shr_m] in Hm.
  destruct m as [|[p|p|]|p]; cbn [shr_m shr_1]; try lia; try reflexivity.
  - apply Z.div_unique with 1; lia.
  - apply Z.div_unique with 0; lia.
Qed.

Lemma iter_pos_shr_1_m (p : positive) (mrs : shr_record) :
  0 <= shr_m mrs -> shr_m (SpecFloat.iter_pos shr_1 p mrs) = shr_m mrs / 2 ^ Zpos p.
Proof.
  revert mrs. induction p as [p IH | p IH |]; intros mrs Hm; simpl SpecFloat.iter_pos.
  - assert (H1 : 0 <= shr_m (shr_1 mrs)).
    { rewrite shr_1_m by done. apply Z.div_pos; lia. }
    assert (H2 : 0 <= shr_m (SpecFloat.iter_pos shr_1 p (shr_1 mrs))).
    { rewrite IH by done. apply Z.div_pos; [done|]. apply Z.pow_pos_nonneg; lia. }
    rewrite IH, IH, shr_1_m by done.
    rewrite !Z.div_div by (try apply Z.pow_pos_nonneg; lia).
    f_equal. rewrite Pos2Z.inj_xI, Z.pow_add_r, Z.pow_mul_r by lia.
    change (2 ^ 2) with 4. change (2 ^ 1) with 2.
    replace (4 ^ Zpos p) with (2 ^ Zpos p * 2 ^ Zpos p).
    + ring.
    + rewrite <- Z.pow_add_r by lia. replace (Zpos p + Zpos p) with (2 * Zpos p) by lia.
      rewrite Z.pow_mul_r by lia. reflexivity.
  - assert (H2 : 0 <= shr_m (SpecFloat.iter_pos shr_1 p mrs)).
    { rewrite IH by done. apply Z.div_pos; [done|]. apply Z.pow_pos_nonneg; lia. }
    rewrite IH, IH by done.
    rewrite !Z.div_div by (try apply Z.pow_pos_nonneg; lia).
    f_equal. rewrite Pos2Z.inj_xO.
    rewrite <- Z.pow_add_r by lia. f_equal. lia.
  - rewrite shr_1_m by done. reflexivity.
Qed.

Lemma round_nearest_even_bounds (q : Z) (l : location) :
  q <= round_nearest_even q l <= q + 1.
Proof. destruct l as [|[| |]]; simpl; try lia. destruct (Z.even q); lia. Qed.

(* shifting right by [n] bits, from an exact record *)
Lemma shr_exact_spec (m e n : Z) :
  0 <= m ->
  let '(mrs, e') := shr (shr_record_of_loc m loc_Exact) e n in
  e' = e + Z.max n 0
  /\ shr_m mrs = m / 2 ^ Z.max n 0
  /\ (n <= 0 -> loc_of_shr_record mrs = loc_Exact).
Proof.
  intros Hm. unfold shr. destruct n as [|p|p]; simpl shr_record_of_loc.
  - simpl. rewrite Z.div_1_r. split; [lia|]. done.
  - rewrite iter_pos_shr_1_m by done. simpl shr_m.
    replace (Z.max (Zpos p) 0) with (Zpos p) by lia. split; [done|]. split; [done|lia].
  - simpl. rewrite Z.div_1_r. split; [lia|]. done.
Qed.

Lemma sf_exact_spec (s : bool) (r : positive) (e : Z) :
  Zpos (digits2_pos r) <= 53 -> -1074 <= e <= 971 ->
  exists m' e', sf_exact s r e = S754_finite s m' e'
    /\ valid_binary (S754_finite s m' e') = true
    /\ sf_val m' e' = sf_val r e.
Proof.
  intros Hd He. unfold sf_exact.
  pose proof (shl_align_spec r e (fexp prec emax (Zpos (digits2_pos r) + e))) as Hs.
  destruct (shl_align r e (fexp prec emax (Zpos (digits2_pos r) + e))) as [m' e'].
  destruct Hs as (He' & Hm' & Hd').
  unfold fexp, SpecFloat.emin, prec, emax in He'.
  exists m', e'. split; [done|]. split.
  - unfold SpecFloat.valid_binary, bounded, canonical_mantissa, fexp, SpecFloat.emin, prec, emax.
    apply andb_true_intro. split; [apply Z.eqb_eq | apply Z.leb_le]; lia.
  - unfold sf_val. rewrite Hm'.
    replace (e + 1074) with ((e - e') + (e' + 1074)) by lia.
    rewrite (Z.pow_add_r 2 (e - e') (e' + 1074)) by lia. ring.
Qed.

Lemma binary_round_upper (S mw : positive) (e ew : Z) :
  -1074 <= e -> -1074 <= ew <= 919 -> Zpos (digits2_pos mw) <= 53 ->
  sf_val S e < sf_val mw ew ->
  match binary_round prec emax false S e with
  | S754_zero s => s = false
  | S754_finite s m e'' => s = false /\ -1074 <= e'' /\ sf_val m e'' <= sf_val mw ew
  | _ => False
  end.
Proof.
  intros He Hew Hdw Hlt.
  set (d := Zpos (digits2_pos S) + e).
  set (E := fexp prec emax d).
  assert (HE : E = Z.max (d - 53) (-1074)) by reflexivity.
  (* the bound is a multiple of the rounding unit *)
  assert (HdE : d <= 53 + ew).
  { destruct (digits2_pos_bounds S) as [Hlo _].
    destruct (digits2_pos_bounds mw) as [_ Hhi].
    unfold sf_val in Hlt.
    assert (H1 : 2 ^ (Zpos (digits2_pos S) - 1 + (e + 1074)) < 2 ^ (53 + (ew + 1074))).
    { rewrite (Z.pow_add_r 2 (Zpos (digits2_pos S) - 1) (e + 1074)) by lia.
      rewrite (Z.pow_add_r 2 53 (ew + 1074)) by lia.
      assert (2 ^ Zpos (digits2_pos mw) <= 2 ^ 53) by (apply Z.pow_le_mono_r; lia).
      assert (0 < 2 ^ (e + 1074)) by (apply Z.pow_pos_nonneg; lia).
      assert (0 < 2 ^ (ew + 1074)) by (apply Z.pow_pos_nonneg; lia).
      set (a := 2 ^ (Zpos (digits2_pos S) - 1)) in *.
      set (b := 2 ^ (e + 1074)) in *. set (c := 2 ^ (ew + 1074)) in *.
      assert (a * b <= Zpos S * b) by (apply Z.mul_le_mono_nonneg_r; lia).
      assert (Zpos mw * c < 2 ^ 53 * c) by (apply Z.mul_lt_mono_pos_r; lia).
      lia. }
    apply Z.pow_lt_mono_r_iff in H1; lia. }
  unfold binary_round. fold d. fold E.
  pose proof (shl_align_spec S e E) as Hs.
  destruct (shl_align S e E) as [mz ez]. destruct Hs as (Hez & Hmz & Hdz).
  unfold binary_round_aux, shr_fexp. cbn [Zdigits2].
  replace (Zpos (digits2_pos mz) + ez) with d by (unfold d; lia). fold E.
  pose proof (shr_exact_spec (Zpos mz) ez (E - ez) ltac:(lia)) as Hs1.
  destruct (shr (shr_record_of_loc (Zpos mz) loc_Exact) ez (E - ez)) as [mrs1 e1].
  destruct Hs1 as (He1 & Hq & _).
  replace (Z.max (E - ez) 0) with (E - ez) in * by lia.
  assert (e1 = E) as -> by lia. clear He1.
  set (q := shr_m mrs1) in *.
  set (m1 := round_nearest_even q (loc_of_shr_record mrs1)).
  pose proof (round_nearest_even_bounds q (loc_of_shr_record mrs1)) as Hm1. fold m1 in Hm1.
  assert (Hq0 : 0 <= q).
  { rewrite Hq. apply Z.div_pos; [lia|]. apply Z.pow_pos_nonneg; lia. }
  set (n2 := fexp prec emax (Zdigits2 m1 + E) - E).
  pose proof (shr_exact_spec m1 E n2 ltac:(lia)) as Hs2.
  destruct (shr (shr_record_of_loc m1 loc_Exact) E n2) as [mrs2 e2].
  destruct Hs2 as (He2 & Hq2 & _).
  set (k2 := Z.max n2 0) in *. assert (Hk2 : 0 <= k2) by (unfold k2; lia).
  set (P := 2 ^ (E + 1074)).
  assert (HP : 0 < P) by (apply Z.pow_pos_nonneg; lia).
  (* the truncated mantissa is below the bound *)
  assert (HqP : q * P <= sf_val S e).
  { assert (HV : sf_val S e = Zpos mz * 2 ^ (ez + 1074)).
    { unfold sf_val. rewrite Hmz, <- Z.mul_assoc, <- Z.pow_add_r by lia.
      do 2 f_equal. lia. }
    assert (HPs : P = 2 ^ (E - ez) * 2 ^ (ez + 1074)).
    { unfold P. rewrite <- Z.pow_add_r by lia. f_equal. lia. }
    rewrite HV, HPs, Z.mul_assoc.
    apply Z.mul_le_mono_nonneg_r; [apply Z.pow_nonneg; lia|].
    rewrite Hq, Z.mul_comm. apply Z.mul_div_le. apply Z.pow_pos_nonneg; lia. }
  assert (HW : sf_val mw ew = Zpos mw * 2 ^ (ew - E) * P).
  { unfold sf_val, P. rewrite <- Z.mul_assoc, <- Z.pow_add_r by lia.
    do 2 f_equal. lia. }
  assert (Hm1P : m1 * P <= sf_val mw ew).
  { rewrite HW. apply Z.mul_le_mono_nonneg_r; [lia|].
    assert (q < Zpos mw * 2 ^ (ew - E)); [|lia].
    apply Z.mul_lt_mono_pos_r with P; [done|]. lia. }
  assert (Hq2P : shr_m mrs2 * 2 ^ (e2 + 1074) <= sf_val mw ew).
  { eapply Z.le_trans; [|exact Hm1P]. rewrite He2.
    replace (2 ^ (E + k2 + 1074)) with (2 ^ k2 * P)
      by (unfold P; rewrite <- Z.pow_add_r by lia; f_equal; lia).
    rewrite Z.mul_assoc.
    apply Z.mul_le_mono_nonneg_r; [lia|].
    rewrite Hq2, Z.mul_comm. apply Z.mul_div_le. apply Z.pow_pos_nonneg; lia. }
  assert (Hq2' : 0 <= shr_m mrs2).
  { rewrite Hq2. apply Z.div_pos; [lia|]. apply Z.pow_pos_nonneg; lia. }
  destruct (shr_m mrs2) as [|m2|m2] eqn:Hm2; [done| |lia].
  assert (He2' : e2 <= 971).
  { destruct (digits2_pos_bounds mw) as [_ Hhi].
    assert (H1 : 2 ^ (e2 + 1074) < 2 ^ (53 + (ew + 1074))).
    { unfold sf_val in Hq2P. rewrite (Z.pow_add_r 2 53 (ew + 1074)) by lia.
      assert (2 ^ Zpos (digits2_pos mw) <= 2 ^ 53) by (apply Z.pow_le_mono_r; lia).
      assert (0 < 2 ^ (ew + 1074)) by (apply Z.pow_pos_nonneg; lia).
      assert (0 < 2 ^ (e2 + 1074)) by (apply Z.pow_pos_nonneg; lia).
      set (b := 2 ^ (e2 + 1074)) in *. set (c := 2 ^ (ew + 1074)) in *.
      assert (1 * b <= Zpos m2 * b) by (apply Z.mul_le_mono_nonneg_r; lia).
      assert (Zpos mw * c < 2 ^ 53 * c) by (apply Z.mul_lt_mono_pos_r; lia).
      lia. }
    apply Z.pow_lt_mono_r_iff in H1; lia. }
  replace (e2 <=? emax - prec) with true
    by (symmetry; apply Z.leb_le; unfold emax, prec; lia).
  split; [done|]. split; [lia|]. exact Hq2P.
Qed.

Lemma Prim2SF_zero : Prim2SF 0%float = S754_zero false.
Proof. reflexivity. Qed.

Lemma Prim2SF_infinity : Prim2SF infinity = S754_infinity false.
Proof. reflexivity. Qed.

Lemma SFeqb_refl_finite (x : spec_float) :
  SFeqb x x = match x with S754_nan => false | _ => true end.
Proof.
  destruct x as [s|s| |s m e]; unfold SFeqb; cbn;
    [by destruct s|by destruct s|done|].
  destruct s; by rewrite Z.compare_refl, Pos.compare_cont_refl.
Qed.

Lemma is_finite_spec (x : float) :
  is_finite x = match Prim2SF x with
                | S754_zero _ | S754_finite _ _ _ => true
                | _ => false
                end.
Proof.
  unfold is_finite, is_nan, is_infinity.
  rewrite !FloatAxioms.eqb_spec, FloatAxioms.abs_spec, Prim2SF_infinity, SFeqb_refl_finite.
  destruct (Prim2SF x) as [s|s| |s m e]; reflexivity.
Qed.

Lemma is_nan_spec (x : float) :
  is_nan x = match Prim2SF x with S754_nan => true | _ => false end.
Proof.
  unfold is_nan. rewrite FloatAxioms.eqb_spec, SFeqb_refl_finite.
  by destruct (Prim2SF x).
Qed.

Lemma shr_1_r (mrs : shr_record) :
  0 <= shr_m mrs -> shr_r (shr_1 mrs) = Z.odd (shr_m mrs).
Proof.
  destruct mrs as [m r s]. cbn [shr_m]. intros Hm.
  destruct m as [|[p|p|]|p]; cbn [shr_r shr_1]; try reflexivity. lia.
Qed.

Lemma iter_pos_shr_1_r (p : positive) (mrs : shr_record) :
  0 <= shr_m mrs ->
  shr_r (SpecFloat.iter_pos shr_1 p mrs) = Z.odd (shr_m mrs / 2 ^ (Zpos p - 1)).
Proof.
  revert mrs. induction p as [p IH | p IH |]; intros mrs Hm; simpl SpecFloat.iter_pos.
  - assert (H1 : 0 <= shr_m (shr_1 mrs)).
    { rewrite shr_1_m by done. apply Z.div_pos; lia. }
    assert (H2 : 0 <= shr_m (SpecFloat.iter_pos shr_1 p (shr_1 mrs))).
    { rewrite iter_pos_shr_1_m by done. apply Z.div_pos; [done|]. apply Z.pow_pos_nonneg; lia. }
    rewrite IH, iter_pos_shr_1_m, shr_1_m by done.
    rewrite !Z.div_div by (try apply Z.pow_pos_nonneg; lia).
    do 2 f_equal.
    replace (Zpos p~1 - 1) with (1 + (Zpos p + (Zpos p - 1))) by lia.
    rewrite (Z.pow_add_r 2 1), (Z.pow_add_r 2 (Zpos p)) by lia. reflexivity.
  - assert (H2 : 0 <= shr_m (SpecFloat.iter_pos shr_1 p mrs)).
    { rewrite iter_pos_shr_1_m by done. apply Z.div_pos; [done|]. apply Z.pow_pos_nonneg; lia. }
    rewrite IH, iter_pos_shr_1_m by done.
    rewrite !Z.div_div by (try apply Z.pow_pos_nonneg; lia).
    do 2 f_equal. rewrite <- Z.pow_add_r by lia. f_equal. lia.
  - rewrite shr_1_r by done. cbn. by rewrite Z.div_1_r.
Qed.

(** Rounding to nearest keeps the truncated mantissa when the bits shifted
    out are below the midpoint. *)
Lemma shr_exact_loc (m e n : Z) :
  0 <= m -> 0 < n -> m mod 2 ^ n < 2 ^ (n - 1) ->
  round_nearest_even (m / 2 ^ n)
    (loc_of_shr_record (fst (shr (shr_record_of_loc m loc_Exact) e n))) = m / 2 ^ n.
Proof.
  intros Hm Hn Hr. unfold shr. destruct n as [|p|p]; [lia| |lia].
  cbn [fst shr_record_of_loc].
  pose proof (iter_pos_shr_1_r p {| shr_m := m; shr_r := false; shr_s := false |} Hm) as Hb.
  cbn [shr_m] in Hb.
  assert (Hodd : Z.odd (m / 2 ^ (Zpos p - 1)) = false).
  { assert (Hp1 : 0 < 2 ^ (Zpos p - 1)) by (apply Z.pow_pos_nonneg; lia).
    assert (H2 : 2 ^ Zpos p = 2 * 2 ^ (Zpos p - 1)).
    { replace (Zpos p) with (1 + (Zpos p - 1)) at 1 by lia.
      rewrite Z.pow_add_r by lia. reflexivity. }
    pose proof (Z.div_mod m (2 ^ Zpos p) ltac:(lia)) as Hdm.
    pose proof (Z.mod_pos_bound m (2 ^ Zpos p) ltac:(lia)) as Hmb.
    set (q := m / 2 ^ Zpos p) in *. set (r := m mod 2 ^ Zpos p) in *.
    assert (Hq : m / 2 ^ (Zpos p - 1) = 2 * q).
    { symmetry. apply Z.div_unique with r; [lia|]. rewrite Hdm, H2. ring. }
    rewrite Hq. rewrite Z.odd_mul. reflexivity. }
  rewrite Hodd in Hb.
  destruct (SpecFloat.iter_pos shr_1 p _) as [m' r' s']. cbn [shr_r] in Hb. subst r'.
  cbn [loc_of_shr_record]. by destruct s'.
Qed.

Lemma digits_le_of_val (m : positive) (k j : Z) :
  0 <= k -> Zpos m * 2 ^ k < 2 ^ j -> Zpos (digits2_pos m) + k <= j.
Proof.
  intros Hk Hlt. destruct (digits2_pos_bounds m) as [Hlo _].
  assert (Hp : 0 < 2 ^ k) by (apply Z.pow_pos_nonneg; lia).
  assert (H1 : 2 ^ (Zpos (digits2_pos m) - 1 + k) < 2 ^ j).
  { rewrite (Z.pow_add_r 2 (Zpos (digits2_pos m) - 1) k) by lia.
    eapply Z.le_lt_trans; [|exact Hlt]. apply Z.mul_le_mono_nonneg_r; lia. }
  assert (Hj : 0 <= j).
  { destruct (Z_lt_le_dec j 0) as [Hneg|]; [|done].
    rewrite (Z.pow_neg_r 2 j Hneg) in H1.
    assert (0 < 2 ^ (Zpos (digits2_pos m) - 1 + k)) by (apply Z.pow_pos_nonneg; lia). lia. }
  apply Z.pow_lt_mono_r_iff in H1; lia.
Qed.

Lemma binary_round_finite (s : bool) (S : positive) (e : Z) :
  -1074 <= e -> sf_val S e < 2 ^ 2098 - 2 ^ 2044 ->
  match binary_round prec emax s S e with
  | S754_zero _ | S754_finite _ _ _ => True
  | _ => False
  end.
Proof.
  intros He Hlt.
  set (d := Zpos (digits2_pos S) + e).
  set (E := fexp prec emax d).
  assert (HE : E = Z.max (d - 53) (-1074)) by reflexivity.
  assert (Hpow : 0 < 2 ^ 2044) by (apply Z.pow_pos_nonneg; lia).
  assert (HdE : d <= 1024).
  { unfold sf_val in Hlt.
    pose proof (digits_le_of_val S (e + 1074) 2098 ltac:(lia) ltac:(lia)). unfold d. lia. }
  unfold binary_round. fold d. fold E.
  pose proof (shl_align_spec S e E) as Hs.
  destruct (shl_align S e E) as [mz ez]. destruct Hs as (Hez & Hmz & Hdz).
  unfold binary_round_aux, shr_fexp. cbn [Zdigits2].
  replace (Zpos (digits2_pos mz) + ez) with d by (unfold d; lia). fold E.
  pose proof (shr_exact_spec (Zpos mz) ez (E - ez) ltac:(lia)) as Hs1.
  pose proof (shr_exact_loc (Zpos mz) ez (E - ez) ltac:(lia)) as Hloc.
  destruct (shr (shr_record_of_loc (Zpos mz) loc_Exact) ez (E - ez)) as [mrs1 e1].
  destruct Hs1 as (He1 & Hq & Hexact). cbn [fst] in Hloc.
  replace (Z.max (E - ez) 0) with (E - ez) in * by lia.
  assert (e1 = E) as -> by lia. clear He1.
  rewrite <- Hq in Hloc.
  set (q := shr_m mrs1) in *.
  set (m1 := round_nearest_even q (loc_of_shr_record mrs1)) in *.
  pose proof (round_nearest_even_bounds q (loc_of_shr_record mrs1)) as Hm1. fold m1 in Hm1.
  assert (Hq0 : 0 <= q).
  { rewrite Hq. apply Z.div_pos; [lia|]. apply Z.pow_pos_nonneg; lia. }
  set (P := 2 ^ (E + 1074)).
  assert (HP : 0 < P) by (apply Z.pow_pos_nonneg; lia).
  assert (HV : sf_val S e = Zpos mz * 2 ^ (ez + 1074)).
  { unfold sf_val. rewrite Hmz, <- Z.mul_assoc, <- Z.pow_add_r by lia.
    do 2 f_equal. lia. }
  assert (HPs : P = 2 ^ (E - ez) * 2 ^ (ez + 1074)).
  { unfold P. rewrite <- Z.pow_add_r by lia. f_equal. lia. }
  assert (Hpz : 0 < 2 ^ (ez + 1074)) by (apply Z.pow_pos_nonneg; lia).
  assert (Hpn : 0 < 2 ^ (E - ez)) by (apply Z.pow_pos_nonneg; lia).
  pose proof (Z.div_mod (Zpos mz) (2 ^ (E - ez)) ltac:(lia)) as Hdm.
  pose proof (Z.mod_pos_bound (Zpos mz) (2 ^ (E - ez)) ltac:(lia)) as Hmb.
  rewrite <- Hq in Hdm. fold q in Hdm.
  set (r := Zpos mz mod 2 ^ (E - ez)) in *.
  assert (HVq : sf_val S e = q * P + r * 2 ^ (ez + 1074)).
  { rewrite HV, HPs, Hdm. ring. }
  (* the rounded mantissa stays below 2^1024 *)
  assert (HK : 2 ^ 2098 = 2 ^ (1024 - E) * P).
  { unfold P. rewrite <- Z.pow_add_r by lia. f_equal. lia. }
  assert (Hm1P : m1 * P < 2 ^ 2098).
  { assert (HqK : q < 2 ^ (1024 - E)).
    { apply Z.mul_lt_mono_pos_r with P; [done|]. rewrite <- HK.
      assert (0 <= r * 2 ^ (ez + 1074)) by (apply Z.mul_nonneg_nonneg; lia). lia. }
    destruct (Z.eq_dec (q + 1) (2 ^ (1024 - E))) as [Heq|Hne].
    - (* the last binade: the bits shifted out are below the midpoint *)
      assert (Hrem : r * 2 ^ (ez + 1074) < P - 2 ^ 2044).
      { assert (q * P = 2 ^ 2098 - P) by (rewrite HK, <- Heq; ring). lia. }
      assert (HE971 : E = 971).
      { assert (0 <= r * 2 ^ (ez + 1074)) by (apply Z.mul_nonneg_nonneg; lia).
        assert (H1 : 2 ^ 2044 < 2 ^ (E + 1074)) by (fold P; lia).
        apply Z.pow_lt_mono_r_iff in H1; lia. }
      assert (Hm1q : m1 = q).
      { destruct (Z.eq_dec (E - ez) 0) as [Hz|Hnz].
        - unfold m1. rewrite Hexact by lia. reflexivity.
        - apply Hloc; [lia|]. fold r.
          apply Z.mul_lt_mono_pos_r with (2 ^ (ez + 1074)); [done|].
          rewrite <- Z.pow_add_r by lia.
          replace (E - ez - 1 + (ez + 1074)) with 2044 by lia.
          assert (HP' : P = 2 ^ 2045) by (unfold P; f_equal; lia).
          assert (H2045 : 2 ^ 2045 = 2 * 2 ^ 2044) by reflexivity. lia. }
      rewrite Hm1q. assert (0 <= r * 2 ^ (ez + 1074)) by (apply Z.mul_nonneg_nonneg; lia).
      lia.
    - rewrite HK. apply Z.mul_lt_mono_pos_r; [done|]. lia. }
  set (n2 := fexp prec emax (Zdigits2 m1 + E) - E).
  pose proof (shr_exact_spec m1 E n2 ltac:(lia)) as Hs2.
  destruct (shr (shr_record_of_loc m1 loc_Exact) E n2) as [mrs2 e2].
  destruct Hs2 as (He2 & Hq2 & _).
  assert (Hq2' : 0 <= shr_m mrs2).
  { rewrite Hq2. apply Z.div_pos; [lia|]. apply Z.pow_pos_nonneg; lia. }
  assert (He2' : e2 <= 971).
  { assert (Hn2 : fexp prec emax (Zdigits2 m1 + E) <= 971); [|lia].
    unfold fexp, SpecFloat.emin, prec, emax.
    destruct m1 as [|pm|pm] eqn:Hpm; cbn [Zdigits2]; [lia| |lia].
    pose proof (digits_le_of_val pm (E + 1074) 2098 ltac:(lia) Hm1P). lia. }
  destruct (shr_m mrs2) as [|m2|m2]; [done| |lia].
  replace (e2 <=? emax - prec) with true
    by (symmetry; apply Z.leb_le; unfold emax, prec; lia).
  done.
Qed.

(** The sum of two finite floats is finite when one of them is small: the
    exact sum is then below the midpoint between the largest float and
    [2^1024]. *)
Lemma SFadd_finite (sx sa : bool) (mx ma : positive) (ex ea : Z) :
  valid_binary (S754_finite sx mx ex) = true ->
  valid_binary (S754_finite sa ma ea) = true ->
  sf_val mx ex < 2 ^ 2044 ->
  match SFadd prec emax (S754_finite sx mx ex) (S754_finite sa ma ea) with
  | S754_zero _ | S754_finite _ _ _ => True
  | _ => False
  end.
Proof.
  intros Vx Va Hx.
  apply valid_finite in Vx as (Hex & Hdx & _). apply valid_finite in Va as (Hea & Hda & _).
  cbn [SFadd]. set (ez := Z.min ex ea).
  pose proof (shl_align_spec mx ex ez) as H1.
  destruct (shl_align mx ex ez) as [x' e1]. destruct H1 as (He1 & Hx' & _).
  pose proof (shl_align_spec ma ea ez) as H2.
  destruct (shl_align ma ea ez) as [a' e2]. destruct H2 as (He2 & Ha' & _).
  cbn [fst]. assert (e1 = ez) as -> by lia. assert (e2 = ez) as -> by lia.
  assert (Hp : 0 < 2 ^ (ez + 1074)) by (apply Z.pow_pos_nonneg; lia).
  assert (HXv : Zpos x' * 2 ^ (ez + 1074) = sf_val mx ex).
  { unfold sf_val. rewrite Hx', <- Z.mul_assoc, <- Z.pow_add_r by lia. do 2 f_equal. lia. }
  assert (HAv : Zpos a' * 2 ^ (ez + 1074) = sf_val ma ea).
  { unfold sf_val. rewrite Ha', <- Z.mul_assoc, <- Z.pow_add_r by lia. do 2 f_equal. lia. }
  assert (HA : sf_val ma ea <= 2 ^ 2098 - 2 ^ 2045).
  { unfold sf_val. destruct (digits2_pos_bounds ma) as [_ Hhi].
    assert (2 ^ Zpos (digits2_pos ma) <= 2 ^ 53) by (apply Z.pow_le_mono_r; lia).
    assert (2 ^ (ea + 1074) <= 2 ^ 2045) by (apply Z.pow_le_mono_r; lia).
    assert (0 < 2 ^ (ea + 1074)) by (apply Z.pow_pos_nonneg; lia).
    assert (H98 : 2 ^ 2098 = 2 ^ 53 * 2 ^ 2045) by reflexivity.
    rewrite H98. set (t := 2 ^ 2045) in *. set (u := 2 ^ (ea + 1074)) in *.
    assert (Zpos ma * u <= (2 ^ 53 - 1) * u) by (apply Z.mul_le_mono_nonneg_r; lia).
    assert ((2 ^ 53 - 1) * u <= (2 ^ 53 - 1) * t) by (apply Z.mul_le_mono_nonneg_l; lia).
    lia. }
  assert (H45 : 2 ^ 2045 = 2 * 2 ^ 2044) by reflexivity.
  assert (Hsum : forall S : positive,
            Zpos S <= Zpos x' + Zpos a' -> sf_val S ez < 2 ^ 2098 - 2 ^ 2044).
  { intros S HS. unfold sf_val.
    assert (Zpos S * 2 ^ (ez + 1074) <= (Zpos x' + Zpos a') * 2 ^ (ez + 1074))
      by (apply Z.mul_le_mono_nonneg_r; lia).
    lia. }
  destruct (cond_Zopp sx (Zpos x') + cond_Zopp sa (Zpos a')) as [|S|S] eqn:HS;
    cbn [binary_normalize]; [done| |].
  - apply binary_round_finite; [lia|]. apply Hsum. destruct sx, sa; cbn in HS; lia.
  - apply binary_round_finite; [lia|]. apply Hsum. destruct sx, sa; cbn in HS; lia.
Qed.

Lemma in_closed_of_spec (w r : float) (mw : positive) (ew : Z) :
  Prim2SF w = S754_finite false mw ew ->
  match Prim2SF r with
  | S754_zero _ => True
  | S754_finite s m e => s = false /\ sf_val m e <= sf_val mw ew
  | _ => False
  end <->
  in_closed w r = true.
Proof.
  intros Hw. unfold in_closed. rewrite !FloatAxioms.leb_spec, Prim2SF_zero, Hw.
  pose proof (Prim2SF_valid r) as Vr. pose proof (Prim2SF_valid w) as Vw.
  rewrite Hw in Vw.
  destruct (Prim2SF r) as [s|s| |s m e].
  - split; [reflexivity|done].
  - destruct s; (split; [done|discriminate]).
  - split; [done|discriminate].
  - destruct s; [split; [by intros [? _]|discriminate]|].
    change (SFleb (S754_zero false) (S754_finite false m e)) with true. cbn [andb].
    unfold SFleb. rewrite SFcompare_pos_valid by done.
    destruct (Z.compare_spec (sf_val m e) (sf_val mw ew)) as [Hc|Hc|Hc].
    + split; [done|]. intros _. split; [done|lia].
    + split; [done|]. intros _. split; [done|lia].
    + split; [intros [_ H']; lia|discriminate].
Qed.

(** The float [%] by a positive modulus: a finite number is taken into the
    closed interval from [0] to the modulus, another one to NaN. *)
Lemma float_rem_range_pos (w : float) (mw : positive) (ew : Z) (x : float) :
  Prim2SF w = S754_finite false mw ew -> ew <= 919 ->
  if is_finite x then in_closed w (float_rem x w) = true
  else is_nan (float_rem x w) = true.
Proof.
  intros Hw Hew.
  pose proof (Prim2SF_valid w) as Vw. rewrite Hw in Vw.
  pose proof (valid_finite _ _ _ Vw) as (Hew' & Hdw & _).
  assert (Hw0 : (w <? 0)%float = false) by (rewrite FloatAxioms.ltb_spec, Hw, Prim2SF_zero; done).
  assert (Hcz : copysign_zero w = 0%float).
  { unfold copysign_zero, get_sign, is_zero, PrimFloat.zero.
    rewrite FloatAxioms.eqb_spec, Hw, Prim2SF_zero. cbn [SFeqb SFcompare].
    by rewrite Hw0. }
  assert (Hzero : forall s, in_closed w
     (let md := SF2Prim (S754_zero s) in
      if negb (md =? 0)%float then
        if xorb (w <? 0)%float (md <? 0)%float then (md + w)%float else md
      else copysign_zero w) = true).
  { intros s. rewrite Hcz. cbv zeta.
    assert (Hs0 : (SF2Prim (S754_zero s) =? 0)%float = true) by (destruct s; reflexivity).
    rewrite Hs0. cbn [negb]. apply (in_closed_of_spec w _ mw ew Hw).
    by rewrite Prim2SF_zero. }
  rewrite is_finite_spec. unfold float_rem, fmod. rewrite Hw.
  pose proof (Prim2SF_valid x) as Vx.
  destruct (Prim2SF x) as [sx|sx| |sx mx ex] eqn:Hx.
  - apply Hzero.
  - cbn [sf_fmod SF2Prim]. cbv zeta.
    change (nan =? 0)%float with false. change (nan <? 0)%float with false.
    rewrite Hw0. reflexivity.
  - cbn [sf_fmod SF2Prim]. cbv zeta.
    change (nan =? 0)%float with false. change (nan <? 0)%float with false.
    rewrite Hw0. reflexivity.
  - pose proof (valid_finite _ _ _ Vx) as (Hex & Hdx & _).
    cbn [sf_fmod]. set (e := Z.min ex ew).
    set (X := Zpos mx * 2 ^ (ex - e)). set (Y := Zpos mw * 2 ^ (ew - e)).
    assert (HY : 0 < Y) by (apply Z.mul_pos_pos; [lia|apply Z.pow_pos_nonneg; lia]).
    assert (HX : 0 <= X) by (apply Z.mul_nonneg_nonneg; [lia|apply Z.pow_nonneg; lia]).
    pose proof (Z.mod_pos_bound X Y HY) as Hr.
    pose proof (Z.mod_le X Y HX HY) as HrX.
    destruct (X mod Y) as [|r|r] eqn:Hmod; [apply Hzero| |apply Hzero].
    assert (Hdr : Zpos (digits2_pos r) <= 53).
    { apply digits2_pos_le; [lia|].
      destruct (Z_le_gt_dec ew ex).
      - assert (Y = Zpos mw) as HYw
          by (unfold Y; replace (ew - e) with 0 by lia; lia).
        destruct (digits2_pos_bounds mw) as [_ Hhi].
        assert (2 ^ Zpos (digits2_pos mw) <= 2 ^ 53) by (apply Z.pow_le_mono_r; lia).
        lia.
      - assert (X = Zpos mx) as HXx
          by (unfold X; replace (ex - e) with 0 by lia; lia).
        destruct (digits2_pos_bounds mx) as [_ Hhi].
        assert (2 ^ Zpos (digits2_pos mx) <= 2 ^ 53) by (apply Z.pow_le_mono_r; lia).
        lia. }
    destruct (sf_exact_spec sx r e Hdr ltac:(lia)) as (m' & e' & -> & Vm & Hval).
    assert (Hlt : sf_val m' e' < sf_val mw ew).
    { rewrite Hval. unfold sf_val.
      replace (Zpos mw * 2 ^ (ew + 1074)) with (Y * 2 ^ (e + 1074)).
      - apply Z.mul_lt_mono_pos_r; [apply Z.pow_pos_nonneg; lia|lia].
      - unfold Y. rewrite <- Z.mul_assoc, <- Z.pow_add_r by lia. do 2 f_equal. lia. }
    cbv zeta.
    set (md := SF2Prim (S754_finite sx m' e')).
    assert (Hmd : Prim2SF md = S754_finite sx m' e') by (apply Prim2SF_SF2Prim; done).
    assert (Hmd0 : (md =? 0)%float = false)
      by (rewrite FloatAxioms.eqb_spec, Hmd, Prim2SF_zero; destruct sx; reflexivity).
    assert (Hmdlt : (md <? 0)%float = sx)
      by (rewrite FloatAxioms.ltb_spec, Hmd, Prim2SF_zero; destruct sx; reflexivity).
    rewrite Hmd0, Hw0, Hmdlt. cbn [negb xorb].
    apply (in_closed_of_spec w _ mw ew Hw). destruct sx.
    + (* negative remainder: one rounded addition of the modulus *)
      pose proof (valid_finite _ _ _ Vm) as (Hem & Hdm & Hnm).
      assert (He'w : e' <= ew).
      { destruct (Z_le_gt_dec e' ew); [done|]. exfalso.
        assert (sf_val mw ew < sf_val m' e') by (apply sf_val_lt_exp; lia). lia. }
      rewrite FloatAxioms.add_spec, Hmd, Hw. unfold SF64add, SFadd.
      replace (Z.min e' ew) with e' by lia.
      pose proof (shl_align_spec m' e' e') as H1.
      destruct (shl_align m' e' e') as [a ea]. destruct H1 as (Hea & Ha & _).
      pose proof (shl_align_spec mw ew e') as H2.
      destruct (shl_align mw ew e') as [b eb]. destruct H2 as (Heb & Hb & _).
      cbn [fst cond_Zopp].
      assert (ea = e') as -> by lia. assert (eb = e') as -> by lia.
      rewrite Z.sub_diag, Z.mul_1_r in Ha.
      assert (HWb : sf_val mw ew = Zpos b * 2 ^ (e' + 1074)).
      { unfold sf_val. rewrite Hb, <- Z.mul_assoc, <- Z.pow_add_r by lia.
        do 2 f_equal. lia. }
      assert (Hp : 0 < 2 ^ (e' + 1074)) by (apply Z.pow_pos_nonneg; lia).
      assert (Hab : Zpos a < Zpos b).
      { apply Z.mul_lt_mono_pos_r with (2 ^ (e' + 1074)); [done|].
        rewrite <- HWb, Ha. exact Hlt. }
      destruct (- Zpos a + Zpos b) as [|S|S] eqn:HS; [lia| |lia].
      cbn [binary_normalize].
      assert (HSlt : sf_val S e' < sf_val mw ew).
      { rewrite HWb. unfold sf_val. apply Z.mul_lt_mono_pos_r; [done|lia]. }
      pose proof (binary_round_upper S mw e' ew ltac:(lia) ltac:(lia) Hdw HSlt) as Hbr.
      destruct (binary_round prec emax false S e') as [s''| | |s'' m'' e'']; try done.
      destruct Hbr as (-> & _ & Hle). done.
    + rewrite Hmd. split; [done|lia].
Qed.

Lemma Prim2SF_two_pi : Prim2SF two_pi = S754_finite false 7074237752028440 (-50).
Proof. reflexivity. Qed.

(** An angle is left in the closed interval from [0] to [2 * np.pi] after a
    finite increment; it is left in it or NaN after any increment. *)
Lemma float_rem_two_pi_closed (x : float) :
  is_finite x = true -> in_closed two_pi (float_rem x two_pi) = true.
Proof.
  intros Hx. pose proof (float_rem_range_pos two_pi _ _ x Prim2SF_two_pi ltac:(lia)) as H.
  by rewrite Hx in H.
Qed.

Lemma float_rem_two_pi_range (x : float) : in_range two_pi (float_rem x two_pi).
Proof.
  pose proof (float_rem_range_pos two_pi _ _ x Prim2SF_two_pi ltac:(lia)) as H.
  destruct (is_finite x); [by right|by left].
Qed.

(** Values of the float [%] of CPython: [7.0 % (2 * np.pi)],
    [-1.0 % (2 * np.pi)], the modulus itself for a tiny negative number, and
    NaN for an infinite one. *)
Example float_rem_values :
  float_rem 7 two_pi = 0x1.6f0255dde974p-1%float
  /\ float_rem (-1) two_pi = 0x1.521fb54442d18p+2%float
  /\ float_rem (-0x1p-60) two_pi = two_pi
  /\ float_rem two_pi two_pi = 0%float
  /\ float_rem (-0x1p-1074) two_pi = two_pi
  /\ float_rem 0x1.7e43c8800759cp+996 two_pi = 0x1.63d315c34e8cp+2%float
  /\ float_rem infinity two_pi = nan.
Proof. repeat split. Qed.

Lemma add_finite_in_closed (x a : float) :
  in_closed two_pi x = true -> is_finite a = true -> is_finite (x + a) = true.
Proof.
  intros Hx Ha. apply (in_closed_of_spec two_pi x _ _ Prim2SF_two_pi) in Hx.
  rewrite is_finite_spec in *. rewrite FloatAxioms.add_spec. unfold SF64add.
  pose proof (Prim2SF_valid x) as Vx. pose proof (Prim2SF_valid a) as Va.
  destruct (Prim2SF x) as [sx|sx| |sx mx ex]; [|done|done|].
  - destruct (Prim2SF a) as [sa|sa| |sa ma ea]; [|done|done|done].
    cbn. by destruct sx, sa.
  - destruct Hx as [-> Hx].
    destruct (Prim2SF a) as [sa|sa| |sa ma ea]; [done|done|done|].
    pose proof (SFadd_finite false sa mx ma ex ea Vx Va) as H.
    assert (Hsmall : sf_val mx ex < 2 ^ 2044).
    { eapply Z.le_lt_trans; [exact Hx|]. reflexivity. }
    specialize (H Hsmall).
    by destruct (SFadd prec emax (S754_finite false mx ex) (S754_finite sa ma ea)).
Qed.


(** An increment that is not finite takes an angle of the interval to NaN. *)
Lemma float_rem_add_not_finite (x a : float) :
  in_closed two_pi x = true -> is_finite a = false ->
  is_nan (float_rem (x + a) two_pi) = true.
Proof.
  intros Hx Ha.
  pose proof (float_rem_range_pos two_pi _ _ (x + a) Prim2SF_two_pi ltac:(lia)) as H.
  replace (is_finite (x + a)) with false in H; [done|].
  apply (in_closed_of_spec two_pi x _ _ Prim2SF_two_pi) in Hx.
  rewrite is_finite_spec in *. rewrite FloatAxioms.add_spec. unfold SF64add.
  destruct (Prim2SF x) as [sx|sx| |sx mx ex]; [|done|done|];
    destruct (Prim2SF a) as [sa|sa| |sa ma ea]; try done; by destruct sa.
Qed.

(** ** Lists and the monad *)

Lemma py_index_lt (len : nat) (i : Z) (n : nat) :
  py_index len i = Some n -> (n < len)%nat.
Proof.
  unfold py_index. intros H.
  destruct ((0 <=? i) && (i <? Z.of_nat len)) eqn:H1.
  - apply andb_prop in H1 as [Ha Hb]. injection H as <-. lia.
  - destruct ((- Z.of_nat len <=? i) && (i <? 0)) eqn:H2; [|discriminate].
    apply andb_prop in H2 as [Ha Hb]. injection H as <-. lia.
Qed.

Lemma py_index_last (len : nat) : py_index (S len) (-1) = Some len.
Proof.
  unfold py_index. cbn [Z.leb Z.compare andb].
  replace (- Z.of_nat (S len) <=? -1) with true by (symmetry; apply Z.leb_le; lia).
  cbn [andb Z.ltb Z.compare]. f_equal. lia.
Qed.

Lemma py_index_nonneg (len : nat) (i : nat) :
  (i < len)%nat -> py_index len (Z.of_nat i) = Some i.
Proof.
  intros H. unfold py_index.
  replace (0 <=? Z.of_nat i) with true by (symmetry; apply Z.leb_le; lia).
  replace (Z.of_nat i <? Z.of_nat len) with true by (symmetry; apply Z.ltb_lt; lia).
  cbn [andb]. f_equal. lia.
Qed.

Lemma list_getitem_Some {A : Type} (l : list A) (i : Z) (n : nat) (v : A) :
  py_index (length l) i = Some n -> l !! n = Some v -> list_getitem l i = Ok v.
Proof. intros Hi Hv. unfold list_getitem. by rewrite Hi, Hv. Qed.

Lemma list_setitem_Some {A : Type} (l : list A) (i : Z) (n : nat) (v : A) :
  py_index (length l) i = Some n -> list_setitem l i v = Ok (<[n := v]> l).
Proof. intros Hi. unfold list_setitem. by rewrite Hi. Qed.

Lemma list_getitem_None {A : Type} (l : list A) (i : Z) :
  py_index (length l) i = None -> list_getitem l i = Raise IndexError.
Proof. intros Hi. unfold list_getitem. by rewrite Hi. Qed.

Lemma deref_Some (h : gmap loc (list pyval)) (l : loc) (v : list pyval) :
  h !! l = Some v -> deref h l = v.
Proof. intros H. unfold deref. by rewrite H. Qed.

Lemma deref_insert (h : gmap loc (list pyval)) (l : loc) (v : list pyval) :
  deref (<[l := v]> h) l = v.
Proof. apply deref_Some, lookup_insert_eq. Qed.

(** Unfolding a method down to the world it leaves. *)
Ltac run :=
  cbv [bind ret raise lift get_self put_self set_n_actions set_done
       set_state load store alloc print state_arg done_arg];
  cbn [self_ heap stdout].

(** ** [step] *)

Lemma step_done (w : world) (a : action) :
  done (self_ w) = true -> step a w = (Ok (state (self_ w), a, false), w).
Proof. intros Hd. unfold step. run. by rewrite Hd. Qed.

Lemma step_forced (w : world) (a : action) :
  done (self_ w) = false -> n_actions (self_ w) = length_traj (self_ w) ->
  step a w =
    (Ok (state (self_ w), (eos (self_ w), 0%float), true),
     {| self_ := with_n_actions (n_actions (self_ w) + 1) (with_done true (self_ w));
        heap := heap w; stdout := stdout w |}).
Proof.
  intros Hd Hn. unfold step. run. rewrite Hd.
  replace (n_actions (self_ w) =? length_traj (self_ w)) with true
    by (symmetry; apply Z.eqb_eq; lia).
  reflexivity.
Qed.

Lemma step_eos (w : world) (a : action) :
  done (self_ w) = false -> n_actions (self_ w) <> length_traj (self_ w) ->
  fst a = eos (self_ w) ->
  step a w = (Ok (state (self_ w), a, false), w).
Proof.
  intros Hd Hn Ha. unfold step. run. rewrite Hd.
  replace (n_actions (self_ w) =? length_traj (self_ w)) with false
    by (symmetry; apply Z.eqb_neq; lia).
  replace (fst a =? eos (self_ w)) with true by (symmetry; apply Z.eqb_eq; lia).
  reflexivity.
Qed.

(** The branch that performs the action, with every way it can end: the
    index may designate no position ([IndexError]) and an int under the index
    may be too large for a float ([OverflowError]); the counter attribute has
    been incremented by then. *)
Lemma step_move_cases (w : world) (a : action) (st : list pyval) :
  done (self_ w) = false -> n_actions (self_ w) <> length_traj (self_ w) ->
  fst a <> eos (self_ w) ->
  heap w !! state (self_ w) = Some st ->
  let w1 := {| self_ := with_n_actions (n_actions (self_ w) + 1) (self_ w);
               heap := heap w; stdout := stdout w |} in
  step a w =
    match py_index (length st) (fst a) with
    | None => (Raise IndexError, w1)
    | Some i =>
        match st !! i with
        | None => (Raise IndexError, w1)
        | Some v =>
            match py_float v with
            | Raise e => (Raise e, w1)
            | Ok f =>
                (Ok (state (self_ w), a, true),
                 {| self_ := self_ w1;
                    heap := <[state (self_ w) :=
                                <[pred (length st) := PyInt (n_actions (self_ w) + 1)]>
                                  (<[i := PyFloat (float_rem (f + snd a) two_pi)]> st)]>
                              (heap w);
                    stdout := stdout w |})
            end
        end
    end.
Proof.
  intros Hd Hn Ha Hst w1. unfold step. run. rewrite Hd.
  replace (n_actions (self_ w) =? length_traj (self_ w)) with false
    by (symmetry; apply Z.eqb_neq; lia).
  replace (fst a =? eos (self_ w)) with false by (symmetry; apply Z.eqb_neq; lia).
  cbn [negb]. rewrite (deref_Some _ _ _ Hst).
  destruct (py_index (length st) (fst a)) as [i|] eqn:Hi;
    [|by rewrite (list_getitem_None _ _ Hi)].
  pose proof (py_index_lt _ _ _ Hi) as Hlt.
  destruct (st !! i) as [v|] eqn:Hv; [|unfold list_getitem; by rewrite Hi, Hv].
  rewrite (list_getitem_Some st (fst a) i v Hi Hv). unfold py_add_float.
  destruct (py_float v) as [f|e]; [|done].
  rewrite (list_setitem_Some st (fst a) i _ Hi).
  rewrite deref_insert.
  assert (Hi' : py_index (length (<[i:=PyFloat (f + snd a)]> st)) (fst a) = Some i)
    by (by rewrite length_insert).
  rewrite (list_getitem_Some _ (fst a) i (PyFloat (f + snd a)) Hi')
    by (apply list_lookup_insert_eq; lia).
  cbn [py_mod_float py_float].
  rewrite (list_setitem_Some _ (fst a) i _ Hi').
  rewrite deref_insert.
  rewrite list_insert_insert_eq.
  assert (Hl : py_index (length (<[i:=PyFloat (float_rem (f + snd a) two_pi)]> st)) (-1)
               = Some (pred (length st))).
  { rewrite length_insert. destruct st as [|v0 st']; [cbn in Hlt; lia|].
    cbn [length pred]. apply py_index_last. }
  rewrite (list_setitem_Some _ (-1) _ _ Hl).
  rewrite !insert_insert_eq. reflexivity.
Qed.

Lemma step_move (w : world) (a : action) (st : list pyval) (i : nat) (x : float) :
  done (self_ w) = false -> n_actions (self_ w) <> length_traj (self_ w) ->
  fst a <> eos (self_ w) ->
  heap w !! state (self_ w) = Some st ->
  py_index (length st) (fst a) = Some i ->
  st !! i = Some (PyFloat x) ->
  step a w =
    (Ok (state (self_ w), a, true),
     {| self_ := with_n_actions (n_actions (self_ w) + 1) (self_ w);
        heap := <[state (self_ w) :=
                    <[pred (length st) := PyInt (n_actions (self_ w) + 1)]>
                      (<[i := PyFloat (float_rem (x + snd a) two_pi)]> st)]> (heap w);
        stdout := stdout w |}).
Proof.
  intros Hd Hn Ha Hst Hi Hx.
  rewrite (step_move_cases w a st Hd Hn Ha Hst). cbv zeta. by rewrite Hi, Hx.
Qed.

(** ** The invariant of the worlds that [step] reaches *)

Lemma in_closed_zero : in_closed two_pi 0%float = true.
Proof. reflexivity. Qed.

Lemma reset_inv (Q : float -> Prop) (n : nat) (lt : Z) (w : world) :
  Q 0%float -> 0 <= lt -> n_dim (self_ w) = n -> length_traj (self_ w) = lt ->
  inv Q n lt (snd (reset w)).
Proof.
  intros HQ Hlt Hn Hl. unfold reset. run. cbn [fst snd].
  split; [done|]. split; [done|]. split; [|cbn; lia].
  eexists. cbn [state with_done with_state self_ heap].
  split; [apply lookup_insert_eq|]. rewrite Hn.
  split; [rewrite length_app, length_map, length_replicate; cbn; lia|].
  split.
  - intros j Hj. exists 0%float. split; [|exact HQ].
    rewrite lookup_app_l by (rewrite length_map, length_replicate; lia).
    rewrite list_lookup_fmap. by rewrite (lookup_replicate_2 n _ j Hj).
  - exists 0. split; [|lia].
    rewrite lookup_app_r by (rewrite length_map, length_replicate; lia).
    rewrite length_map, length_replicate, Nat.sub_diag. reflexivity.
Qed.

(** [step] keeps the invariant when the increment of its action takes an
    angle that satisfies [Q] to one that does; also when it raises. *)
Lemma step_inv (Q : float -> Prop) (n : nat) (lt : Z) (w : world) (a : action) :
  (forall x, Q x -> Q (float_rem (x + snd a) two_pi)) ->
  inv Q n lt w -> inv Q n lt (snd (step a w)).
Proof.
  intros HQ (Hn & Hl & Hok & Hna).
  destruct (done (self_ w)) eqn:Hd.
  { rewrite step_done by done. cbn [snd]. by rewrite <- Hd in Hna. }
  specialize (Hna eq_refl).
  destruct (Z.eq_dec (n_actions (self_ w)) (length_traj (self_ w))) as [He|He].
  { rewrite step_forced by done. cbn [snd].
    split; [done|]. split; [done|]. split; [exact Hok|]. cbn. intros; discriminate. }
  destruct (Z.eq_dec (fst a) (eos (self_ w))) as [Ha|Ha].
  { rewrite step_eos by done. cbn [snd].
    split; [done|]. split; [done|]. split; [exact Hok|]. intros _. exact Hna. }
  destruct Hok as (st & Hst & Hlen & Hang & c & Hc & Hcr).
  assert (Hinc : inv Q n lt {| self_ := with_n_actions (n_actions (self_ w) + 1) (self_ w);
                               heap := heap w; stdout := stdout w |}).
  { split; [done|]. split; [done|]. split; [|cbn; lia].
    exists st. cbn. repeat split; try done. by exists c. }
  rewrite (step_move_cases w a st Hd He Ha Hst). cbv zeta.
  destruct (py_index (length st) (fst a)) as [i|] eqn:Hi; [|exact Hinc].
  pose proof (py_index_lt _ _ _ Hi) as Hilt.
  destruct (st !! i) as [v|] eqn:Hv; [|exact Hinc].
  destruct (py_float v) as [f|e] eqn:Hf; [|exact Hinc].
  cbn [snd]. split; [done|]. split; [done|]. split; [|cbn; lia].
  eexists. cbn [state with_n_actions self_ heap].
  split; [apply lookup_insert_eq|]. rewrite Hlen. cbn [pred].
  split; [by rewrite !length_insert|]. split.
  - intros j Hj. rewrite list_lookup_insert_ne by lia.
    destruct (decide (i = j)) as [->|Hij].
    + eexists. split; [apply list_lookup_insert_eq; lia|].
      destruct (Hang j Hj) as (x & Hx & HQx). rewrite Hx in Hv. injection Hv as <-.
      cbn in Hf. injection Hf as <-. by apply HQ.
    + rewrite list_lookup_insert_ne by done. by apply Hang.
  - eexists. split; [apply list_lookup_insert_eq; rewrite length_insert; lia|lia].
Qed.

Lemma reachable_by_inv (P : action -> Prop) (Q : float -> Prop)
    (n : nat) (lt : Z) (b : bool) (w : world) :
  Q 0%float ->
  (forall a x, P a -> Q x -> Q (float_rem (x + snd a) two_pi)) ->
  0 <= lt -> reachable_by P n lt b w -> inv Q n lt w.
Proof.
  intros HQ0 HQ Hlt Hr. induction Hr as [|w Hr IH|w a Ha Hr IH].
  - unfold init_world. by apply reset_inv.
  - destruct IH as (Hn & Hl & _). by apply reset_inv.
  - apply step_inv; [|done]. intros x. by apply HQ.
Qed.

(** C1: the case analysis of [step]. A trajectory that is done is left as
    it is and the action is reported invalid. When the counter attribute
    equals [length_traj], the trajectory is marked done, the counter is
    incremented and [(eos, 0.0)] is returned as a valid action, whatever the
    action given. Otherwise an action on a dimension adds its increment to
    the angle of that dimension modulo [2 * np.pi], increments the counter
    (the attribute and the last component of the state) and is valid, and the
    action [eos] is invalid and changes nothing. The list returned is the
    state of the object in every case. *)
Theorem step_case_analysis (w : world) (a : action) :
  let self := self_ w in
  (done self = true ->
     step a w = (Ok (state self, a, false), w))
  /\ (done self = false -> n_actions self = length_traj self ->
        step a w =
          (Ok (state self, (eos self, 0%float), true),
           {| self_ := with_n_actions (n_actions self + 1) (with_done true self);
              heap := heap w; stdout := stdout w |}))
  /\ (done self = false -> n_actions self <> length_traj self ->
      fst a <> eos self ->
      forall (st : list pyval) (i : nat) (x : float),
        heap w !! state self = Some st ->
        py_index (length st) (fst a) = Some i ->
        st !! i = Some (PyFloat x) ->
        step a w =
          (Ok (state self, a, true),
           {| self_ := with_n_actions (n_actions self + 1) self;
              heap := <[state self :=
                          <[pred (length st) := PyInt (n_actions self + 1)]>
                            (<[i := PyFloat (float_rem (x + snd a) two_pi)]> st)]> (heap w);
              stdout := stdout w |}))
  /\ (done self = false -> n_actions self <> length_traj self ->
      fst a = eos self ->
      step a w = (Ok (state self, a, false), w)).
Proof.
  cbv zeta. split; [apply step_done|]. split; [apply step_forced|].
  split; [|apply step_eos].
  intros Hd Hn Ha st i x Hst Hi Hx. by apply step_move with (st := st).
Qed.

(** The example of the specification: with two dimensions and a trajectory
    of length one, the action [(0, pi/2)] turns the state of [reset] into
    [[pi/2, 0.0, 1]], and the next call is forced to terminate whatever its
    action. *)
Example step_example :
  let w0 := init_world 2 1 true in
  let half_pi := 0x1.921fb54442d18p+0%float in
  let '(r1, w1) := step (0, half_pi) w0 in
  let '(r2, w2) := step (1, half_pi) w1 in
  state_list w0 = [PyFloat 0; PyFloat 0; PyInt 0]
  /\ r1 = Ok (state (self_ w0), (0, half_pi), true)
  /\ state_list w1 = [PyFloat half_pi; PyFloat 0; PyInt 1]
  /\ done (self_ w1) = false
  /\ r2 = Ok (state (self_ w0), (2, 0%float), true)
  /\ done (self_ w2) = true
  /\ state_list w2 = [PyFloat half_pi; PyFloat 0; PyInt 1].
Proof. vm_compute. repeat split. Qed.

(** C10: forced termination leaves the state list as it is, so its last
    component stays at [length_traj], while the counter attribute goes to
    [length_traj + 1]: after it the two disagree. *)
Theorem step_forced_counter_disagrees
    (w : world) (a : action) (st : list pyval) (c : Z) :
  done (self_ w) = false ->
  n_actions (self_ w) = length_traj (self_ w) ->
  heap w !! state (self_ w) = Some st ->
  list_getitem st (-1) = Ok (PyInt c) ->
  c = n_actions (self_ w) ->
  let w' := snd (step a w) in
  heap w' = heap w
  /\ state (self_ w') = state (self_ w)
  /\ list_getitem (state_list w') (-1) = Ok (PyInt (length_traj (self_ w)))
  /\ n_actions (self_ w') = length_traj (self_ w) + 1
  /\ done (self_ w') = true
  /\ list_getitem (state_list w') (-1) <> Ok (PyInt (n_actions (self_ w'))).
Proof.
  intros Hd Hn Hst Hc Hsync. cbv zeta. rewrite step_forced by done. cbn [snd].
  unfold state_list. cbn [self_ heap state with_n_actions with_done n_actions done].
  rewrite (deref_Some _ _ _ Hst), Hc, Hsync, Hn.
  repeat split. intros H. injection H. lia.
Qed.

Lemma step_forced_counter_disagrees_witness :
  let w := snd (step (0, 1%float) (init_world 2 1 true)) in
  let w' := snd (step (0, 1%float) w) in
  heap w' = heap w
  /\ state (self_ w') = state (self_ w)
  /\ list_getitem (state_list w') (-1) = Ok (PyInt 1)
  /\ n_actions (self_ w') = 1 + 1
  /\ done (self_ w') = true
  /\ list_getitem (state_list w') (-1) <> Ok (PyInt (n_actions (self_ w'))).
Proof.
  exact (step_forced_counter_disagrees
           (snd (step (0, 1%float) (init_world 2 1 true))) (0, 1%float)
           [PyFloat 1; PyFloat 0; PyInt 1] 1
           eq_refl eq_refl eq_refl eq_refl eq_refl).
Defined.

(** ** [get_parents] *)

Lemma get_parents_done (w : world) (l : loc) (a : action) :
  get_parents (Some l) (Some true) a w = (Ok ([l], [(eos (self_ w), 0%float)]), w).
Proof. reflexivity. Qed.

(** The state that [get_parents] leaves in the list it was given. *)
Lemma get_parents_not_done (w : world) (l : loc) (a : action)
    (st : list pyval) (i : nat) (x : float) (c : Z) :
  heap w !! l = Some st ->
  py_index (length st) (fst a) = Some i -> (S i < length st)%nat ->
  st !! i = Some (PyFloat x) ->
  st !! pred (length st) = Some (PyInt c) ->
  get_parents (Some l) (Some false) a w =
    (Ok ([l], [a]),
     {| self_ := self_ w;
        heap := <[l := <[pred (length st) := PyInt (c - 1)]>
                          (<[i := PyFloat (float_rem (x - snd a) two_pi)]> st)]> (heap w);
        stdout := stdout w |}).
Proof.
  intros Hst Hi Hlt Hx Hc. unfold get_parents. run.
  rewrite (deref_Some _ _ _ Hst).
  rewrite (list_getitem_Some st (fst a) i (PyFloat x) Hi Hx).
  cbn [py_sub_float py_mod_float py_float].
  rewrite (list_setitem_Some st (fst a) i _ Hi).
  rewrite deref_insert.
  set (st1 := <[i:=PyFloat (float_rem (x - snd a) two_pi)]> st).
  assert (Hl : py_index (length st1) (-1) = Some (pred (length st))).
  { unfold st1. rewrite length_insert. destruct st as [|v0 st']; [cbn in Hlt; lia|].
    cbn [length pred]. apply py_index_last. }
  assert (Hc1 : st1 !! pred (length st) = Some (PyInt c)).
  { unfold st1. rewrite list_lookup_insert_ne by lia. exact Hc. }
  rewrite (list_getitem_Some st1 (-1) _ _ Hl Hc1).
  rewrite (list_setitem_Some st1 (-1) _ _ Hl).
  rewrite insert_insert_eq. reflexivity.
Qed.

(** C4: [get_parents] returns one parent. For a state that is done it is
    the state itself with the action [(eos, 0.0)]. Otherwise it is the state
    in which the increment of the action has been subtracted modulo
    [2 * np.pi] from the angle of its dimension and the counter has been
    decremented, with the action given. *)
Theorem get_parents_single_parent (w : world) (l : loc) (a : action) :
  get_parents (Some l) (Some true) a w = (Ok ([l], [(eos (self_ w), 0%float)]), w)
  /\ forall (st : list pyval) (i : nat) (x : float) (c : Z),
       heap w !! l = Some st ->
       py_index (length st) (fst a) = Some i -> (S i < length st)%nat ->
       st !! i = Some (PyFloat x) ->
       st !! pred (length st) = Some (PyInt c) ->
       exists w',
         get_parents (Some l) (Some false) a w = (Ok ([l], [a]), w')
         /\ self_ w' = self_ w
         /\ deref (heap w') l =
              <[pred (length st) := PyInt (c - 1)]>
                (<[i := PyFloat (float_rem (x - snd a) two_pi)]> st).
Proof.
  split; [apply get_parents_done|].
  intros st i x c Hst Hi Hlt Hx Hc. eexists.
  split; [by apply get_parents_not_done with (st := st) (i := i) (x := x) (c := c)|].
  split; [done|]. cbn [heap]. apply deref_insert.
Qed.

(** The parent of the state that [step_example] reaches is the state of
    [reset]. *)
Example get_parents_example :
  let half_pi := 0x1.921fb54442d18p+0%float in
  let w1 := snd (step (0, half_pi) (init_world 2 1 true)) in
  let '(r, w2) := get_parents (Some (state (self_ w1))) (Some false) (0, half_pi) w1 in
  r = Ok ([state (self_ w1)], [(0, half_pi)])
  /\ state_list w2 = [PyFloat 0; PyFloat 0; PyInt 0].
Proof. vm_compute. repeat split. Qed.

(** C9: with a state given and [done = False], [get_parents] overwrites
    the list it was given: the parent returned is that same list object, its
    angle under the action and its counter are new, and the contents that
    the caller passed are gone. *)
Theorem get_parents_overwrites_argument (w : world) (l : loc) (a : action)
    (st : list pyval) (i : nat) (x : float) (c : Z) :
  heap w !! l = Some st ->
  py_index (length st) (fst a) = Some i -> (S i < length st)%nat ->
  st !! i = Some (PyFloat x) ->
  st !! pred (length st) = Some (PyInt c) ->
  let '(r, w') := get_parents (Some l) (Some false) a w in
  r = Ok ([l], [a])
  /\ deref (heap w') l !! i = Some (PyFloat (float_rem (x - snd a) two_pi))
  /\ deref (heap w') l !! pred (length st) = Some (PyInt (c - 1))
  /\ deref (heap w') l <> st.
Proof.
  intros Hst Hi Hlt Hx Hc.
  rewrite (get_parents_not_done w l a st i x c Hst Hi Hlt Hx Hc).
  cbn [heap]. rewrite deref_insert.
  assert (Hlast : (<[pred (length st):=PyInt (c - 1)]>
                     (<[i:=PyFloat (float_rem (x - snd a) two_pi)]> st))
                  !! pred (length st) = Some (PyInt (c - 1))).
  { apply list_lookup_insert_eq. rewrite length_insert. lia. }
  split; [done|]. split.
  - rewrite list_lookup_insert_ne by lia. apply list_lookup_insert_eq. lia.
  - split; [exact Hlast|]. intros Heq. rewrite Heq, Hc in Hlast.
    injection Hlast. lia.
Qed.

Lemma get_parents_overwrites_argument_witness :
  let w := snd (step (0, 1%float) (init_world 2 1 true)) in
  let l := state (self_ w) in
  let '(r, w') := get_parents (Some l) (Some false) (0, 1%float) w in
  r = Ok ([l], [(0, 1%float)])
  /\ deref (heap w') l !! 0%nat = Some (PyFloat (float_rem (1 - 1) two_pi))
  /\ deref (heap w') l !! 2%nat = Some (PyInt (1 - 1))
  /\ deref (heap w') l <> [PyFloat 1; PyFloat 0; PyInt 1].
Proof.
  exact (get_parents_overwrites_argument
           (snd (step (0, 1%float) (init_world 2 1 true))) 1%positive (0, 1%float)
           [PyFloat 1; PyFloat 0; PyInt 1] 0%nat 1%float 1
           eq_refl eq_refl (le_S 2 2 (le_n 2)) eq_refl eq_refl).
Defined.

(** Without a state argument [get_parents] works on a copy: the state of
    the object keeps its contents. *)
Lemma get_parents_default_copies (w : world) (a : action) (st : list pyval) :
  heap w !! state (self_ w) = Some st ->
  let w' := snd (get_parents None (Some false) a w) in
  heap w' !! state (self_ w') = Some st.
Proof.
  intros Hst. cbv zeta. unfold get_parents. run.
  set (l := fresh (dom (heap w))).
  assert (Hne : l <> state (self_ w)).
  { intros Heq. apply (is_fresh (dom (heap w))). fold l. rewrite Heq.
    apply elem_of_dom. by exists st. }
  repeat (match goal with
          | |- context [match ?r with Ok _ => _ | Raise _ => _ end] =>
              destruct r; cbn [snd self_ heap]
          end); rewrite ?lookup_insert_ne by done; exact Hst.
Qed.

(** ** The reachable states *)

(** Whatever the increments, every angle of a reachable state is NaN or
    lies in the closed interval from [0] to [2 * np.pi]. *)
Lemma reachable_state_ok_any (n : nat) (lt : Z) (b : bool) (w : world) :
  0 <= lt -> reachable n lt b w -> state_ok n lt w.
Proof.
  intros Hlt Hr.
  destruct (reachable_by_inv (fun _ => True) (in_range two_pi) n lt b w) as (_ & _ & Hok & _);
    try done.
  - right. apply in_closed_zero.
  - intros a x _ _. apply float_rem_two_pi_range.
Qed.

(** C3, as the code has it: after the constructor and any calls of [step]
    (and of [reset]) whose increments are finite floats, the state holds
    [n_dim] float angles and an int counter; every angle lies in the closed
    interval from [0] to [2 * np.pi], and the counter lies between [0] and
    [length_traj]. *)
Theorem reachable_state_closed (n : nat) (lt : Z) (b : bool) (w : world) :
  0 <= lt -> reachable_by finite_increment n lt b w -> state_closed n lt w.
Proof.
  intros Hlt Hr.
  destruct (reachable_by_inv finite_increment (fun x => in_closed two_pi x = true)
              n lt b w) as (_ & _ & Hok & _); try done.
  intros a x Ha Hx. apply float_rem_two_pi_closed. by apply add_finite_in_closed.
Qed.

Lemma reachable_state_closed_witness :
  state_closed 2 1 (snd (step (0, (-0x1p-60)%float) (init_world 2 1 true))).
Proof.
  apply (reachable_state_closed 2 1 true); [lia|].
  apply reach_step; [reflexivity|apply reach_init].
Defined.

(** The interval is closed, and an increment that is not finite leaves NaN.
    From the state of [reset], the increment [-2^-60] gives the sum
    [-2^-60]; its [fmod] by [2 * np.pi] is [-2^-60] itself, and adding the
    modulus rounds to [2 * np.pi]: the angle is the modulus, not below it.
    The increment NaN (or an infinite one) gives the angle NaN, which lies in
    no interval. *)
Lemma reachable_angle_not_half_open :
  let w1 := snd (step (0, (-0x1p-60)%float) (init_world 2 1 true)) in
  let w2 := snd (step (0, nan) (init_world 2 1 true)) in
  (reachable 2 1 true w1
   /\ state_list w1 = [PyFloat two_pi; PyFloat 0; PyInt 1]
   /\ in_half_open two_pi two_pi = false)
  /\ (reachable 2 1 true w2
      /\ state_list w2 = [PyFloat nan; PyFloat 0; PyInt 1]
      /\ in_half_open two_pi nan = false)
  /\ ~ (forall w, reachable 2 1 true w -> angles_half_open 2 w).
Proof.
  cbv zeta.
  assert (H1 : reachable 2 1 true (snd (step (0, (-0x1p-60)%float) (init_world 2 1 true))))
    by (apply reach_step; [done|apply reach_init]).
  assert (H2 : reachable 2 1 true (snd (step (0, nan) (init_world 2 1 true))))
    by (apply reach_step; [done|apply reach_init]).
  split; [split; [exact H1|split; reflexivity]|].
  split; [split; [exact H2|split; reflexivity]|].
  intros H. specialize (H _ H1 0%nat two_pi ltac:(lia) eq_refl). discriminate H.
Qed.

(** ** The masks *)

Lemma insert_last_replicate {A : Type} (n : nat) (x y : A) :
  <[n := y]> (replicate (S n) x) = replicate n x ++ [y].
Proof. induction n as [|n IH]; [done|]. cbn. f_equal. exact IH. Qed.

Lemma setitem_last_replicate {A : Type} (n : nat) (x y : A) :
  list_setitem (replicate (S n) x) (-1) y = Ok (replicate n x ++ [y]).
Proof.
  unfold list_setitem. rewrite length_replicate, py_index_last.
  by rewrite insert_last_replicate.
Qed.

Lemma py_ge_int_int (c z : Z) : py_ge_int (PyInt c) z = (z <=? c).
Proof.
  unfold py_ge_int, py_compare_int.
  destruct (Z.compare_spec c z); symmetry; [apply Z.leb_le|apply Z.leb_gt|apply Z.leb_le]; lia.
Qed.

(** C2, as the code has it: for a trajectory that is done the forward mask
    marks every action invalid, [eos] too; otherwise [eos] is the only valid
    action once the counter of the state has reached [length_traj], and
    before that every action but [eos] is valid. *)
Theorem forward_mask_cases (w : world) (st : list pyval) (c : Z) (d : bool) :
  list_getitem st (-1) = Ok (PyInt c) ->
  get_mask_invalid_actions_forward (Some st) (Some d) w =
    (Ok (if d then replicate (S (n_dim (self_ w))) true
         else if length_traj (self_ w) <=? c then only_eos_valid (n_dim (self_ w))
         else all_but_eos_valid (n_dim (self_ w))),
     w).
Proof.
  intros Hc. unfold get_mask_invalid_actions_forward. run.
  destruct d; [done|]. rewrite Hc, py_ge_int_int.
  unfold len_action_space, only_eos_valid, all_but_eos_valid.
  destruct (length_traj (self_ w) <=? c); by rewrite setitem_last_replicate.
Qed.

(** The example of the specification: two dimensions, a trajectory of
    length one, the state [[0, 0, 1]] and [done = False]. *)
Lemma forward_mask_cases_witness :
  get_mask_invalid_actions_forward (Some [PyInt 0; PyInt 0; PyInt 1]) (Some false)
      (init_world 2 1 true)
  = (Ok [true; true; false], init_world 2 1 true).
Proof.
  exact (forward_mask_cases (init_world 2 1 true) [PyInt 0; PyInt 0; PyInt 1] 1 false eq_refl).
Defined.

(** For a trajectory that is done, [eos] is marked invalid like every other
    action: it is not the only valid action. *)
Lemma forward_mask_done_eos_invalid :
  let r := fst (get_mask_invalid_actions_forward
                  (Some [PyInt 0; PyInt 0; PyInt 1]) (Some true) (init_world 2 1 true)) in
  r = Ok [true; true; true] /\ r <> Ok (only_eos_valid 2).
Proof. split; [reflexivity|discriminate]. Qed.

Lemma zip3_lookup {A B C : Type} (l1 : list A) (l2 : list B) (l3 : list C)
    (j : nat) (a : A) (b : B) (c : C) :
  l1 !! j = Some a -> l2 !! j = Some b -> l3 !! j = Some c ->
  zip3 l1 l2 l3 !! j = Some (a, b, c).
Proof.
  revert l2 l3 j. induction l1 as [|x l1 IH]; intros l2 l3 j H1 H2 H3; [done|].
  destruct l2 as [|y l2]; [done|]. destruct l3 as [|z l3]; [done|].
  destruct j as [|j]; cbn in *; [congruence|]. by apply IH.
Qed.

Lemma zip3_length {A B C : Type} (l1 : list A) (l2 : list B) (l3 : list C) :
  length (zip3 l1 l2 l3) = (length l1 `min` (length l2 `min` length l3))%nat.
Proof.
  revert l2 l3. induction l1 as [|x l1 IH]; intros l2 l3; [done|].
  destruct l2 as [|y l2]; [done|]. destruct l3 as [|z l3]; [cbn; lia|].
  cbn. by rewrite IH.
Qed.

Lemma removelast_lookup {A : Type} (l : list A) (j : nat) :
  (S j < length l)%nat -> removelast l !! j = l !! j.
Proof.
  revert j. induction l as [|x l IH]; intros j Hj; [done|].
  destruct l as [|y l]; [cbn in Hj; lia|].
  change (removelast (x :: y :: l)) with (x :: removelast (y :: l)).
  destruct j as [|j]; [done|]. cbn [lookup list_lookup]. apply IH. cbn in *. lia.
Qed.

Lemma removelast_length {A : Type} (l : list A) :
  length (removelast l) = pred (length l).
Proof.
  induction l as [|x l IH]; [done|]. destruct l as [|y l]; [done|].
  change (removelast (x :: y :: l)) with (x :: removelast (y :: l)).
  cbn [length]. rewrite IH. done.
Qed.

(** C7: the backward mask. The entry of [eos] is valid exactly when the
    trajectory is done. The entry of a dimension is invalid when the
    trajectory is done; otherwise it is valid, unless the number of angles
    that differ from the source equals the counter and the angle of that
    dimension equals its source: then it is invalid. *)
Theorem backward_mask_cases (w : world) (st : list pyval) (c : Z) (d : bool) :
  let n := n_dim (self_ w) in
  let cnt := Z.of_nat (length (noninit_states st (source (self_ w)))) in
  length st = S n -> length (source (self_ w)) = n ->
  st !! n = Some (PyInt c) ->
  exists mask,
    fst (get_mask_invalid_actions_backward (Some st) (Some d) w) = Ok mask
    /\ length mask = S n
    /\ mask !! n = Some (negb d)
    /\ forall (j : nat) (v : pyval) (s : float),
         st !! j = Some v -> source (self_ w) !! j = Some s ->
         mask !! j = Some (d || ((cnt =? c) && py_eq_float v s)).
Proof.
  intros n cnt Hlen Hsrc Hc.
  assert (Hget : list_getitem st (-1) = Ok (PyInt c)).
  { apply list_getitem_Some with (n := n); [|done]. rewrite Hlen. apply py_index_last. }
  set (mask0 := replicate n d ++ [negb d]).
  assert (Hm0len : length mask0 = S n)
    by (unfold mask0; rewrite length_app, length_replicate; cbn; lia).
  assert (Hm0n : mask0 !! n = Some (negb d)).
  { unfold mask0. rewrite lookup_app_r by (rewrite length_replicate; lia).
    by rewrite length_replicate, Nat.sub_diag. }
  assert (Hm0j : forall j, (j < n)%nat -> mask0 !! j = Some d).
  { intros j Hj. unfold mask0. rewrite lookup_app_l by (rewrite length_replicate; lia).
    by apply lookup_replicate_2. }
  assert (Hjn : forall j s, source (self_ w) !! j = Some s -> (j < n)%nat).
  { intros j s Hs. apply lookup_lt_Some in Hs. lia. }
  unfold get_mask_invalid_actions_backward. run. fold n. fold cnt.
  replace (if d then list_setitem (replicate (len_action_space (self_ w)) true) (-1) false
           else list_setitem (replicate (len_action_space (self_ w)) false) (-1) true)
    with (Ok mask0)
    by (unfold mask0, len_action_space; fold n; destruct d; by rewrite setitem_last_replicate).
  rewrite Hget.
  unfold int_gt_py, int_eq_py, int_ge_py. cbn [py_compare_int py_pred].
  destruct (Z.compare_spec c cnt) as [Heq|Hlt|Hgt].
  - (* the count equals the counter: the dimensions at the source are closed *)
    replace (c - 1 ?= cnt) with Lt by (symmetry; apply Z.compare_lt_iff; lia).
    cbn [andb].
    assert (Hlast : list_getitem mask0 (-1) = Ok (negb d)).
    { apply list_getitem_Some with (n := n); [|done]. rewrite Hm0len. apply py_index_last. }
    rewrite Hlast. cbn [fst]. eexists. split; [reflexivity|].
    assert (Hzl : length (zip3 mask0 (removelast st) (source (self_ w))) = n)
      by (rewrite zip3_length, removelast_length, Hm0len, Hlen, Hsrc; cbn [pred]; lia).
    split; [rewrite length_app, length_map, Hzl; cbn; lia|].
    split.
    + rewrite lookup_app_r by (rewrite length_map, Hzl; lia).
      by rewrite length_map, Hzl, Nat.sub_diag.
    + intros j v s Hv Hs. pose proof (Hjn j s Hs) as Hj.
      rewrite lookup_app_l by (rewrite length_map, Hzl; lia).
      rewrite list_lookup_fmap.
      rewrite (zip3_lookup _ _ _ j d v s); [| by apply Hm0j | | done].
      * cbn. replace (cnt =? c) with true by (symmetry; apply Z.eqb_eq; lia).
        by destruct d, (py_eq_float v s).
      * rewrite removelast_lookup by lia. done.
  - (* more angles away from the source than steps: a line is printed *)
    cbn [fst]. exists mask0. split; [done|]. split; [done|]. split; [done|].
    intros j v s Hv Hs.
    replace (cnt =? c) with false by (symmetry; apply Z.eqb_neq; lia).
    rewrite (Hm0j j (Hjn j s Hs)). by destruct d.
  - cbn [andb fst]. exists mask0. split; [done|]. split; [done|]. split; [done|].
    intros j v s Hv Hs.
    replace (cnt =? c) with false by (symmetry; apply Z.eqb_neq; lia).
    rewrite (Hm0j j (Hjn j s Hs)). by destruct d.
Qed.

(** At the state [[1.0, 0.0, 1]] of a trajectory that is not done, one angle
    is away from the source and one step was made: the dimension still at its
    source is closed. *)
Lemma backward_mask_cases_witness :
  exists mask,
    fst (get_mask_invalid_actions_backward
           (Some [PyFloat 1; PyFloat 0; PyInt 1]) (Some false) (init_world 2 1 true))
    = Ok mask
    /\ length mask = 3%nat
    /\ mask !! 2%nat = Some true
    /\ forall (j : nat) (v : pyval) (s : float),
         [PyFloat 1; PyFloat 0; PyInt 1] !! j = Some v ->
         [0%float; 0%float] !! j = Some s ->
         mask !! j = Some (false || ((1 =? 1) && py_eq_float v s)).
Proof.
  exact (backward_mask_cases (init_world 2 1 true) [PyFloat 1; PyFloat 0; PyInt 1] 1 false
           eq_refl eq_refl eq_refl).
Defined.

Example backward_mask_example :
  let w := init_world 2 1 true in
  fst (get_mask_invalid_actions_backward (Some [PyFloat 1; PyFloat 0; PyInt 1]) (Some false) w)
    = Ok [false; true; true]
  /\ fst (get_mask_invalid_actions_backward (Some [PyFloat 1; PyFloat 0; PyInt 2]) (Some false) w)
    = Ok [false; false; true]
  /\ fst (get_mask_invalid_actions_backward (Some [PyFloat 1; PyFloat 0; PyInt 1]) (Some true) w)
    = Ok [true; true; false].
Proof. repeat split. Qed.

(** ** The utilities *)

(** C8: [set_float_precision] returns the dtype of 16, 32 and 64 bits and
    raises [ValueError] on every other precision; no other function of the
    module ends in [ValueError]. *)
Theorem set_float_precision_cases :
  Common.set_float_precision 16 = Ok Common.float16
  /\ Common.set_float_precision 32 = Ok Common.float32
  /\ Common.set_float_precision 64 = Ok Common.float64
  /\ (forall p : Z, p <> 16 /\ p <> 32 /\ p <> 64 <->
                    Common.set_float_precision p = Raise ValueError)
  /\ (forall dev b, Common.set_device dev b <> Raise ValueError)
  /\ (forall x, Common.torch2np x <> Raise ValueError)
  /\ (forall d parent_key sep, Common.flatten_config d parent_key sep <> Raise ValueError)
  /\ Common.handle_logdir <> Raise ValueError.
Proof.
  split; [done|]. split; [done|]. split; [done|]. split.
  { intros p. unfold Common.set_float_precision. split.
    - intros (H16 & H32 & H64).
      by rewrite (proj2 (Z.eqb_neq _ _) H16), (proj2 (Z.eqb_neq _ _) H32),
        (proj2 (Z.eqb_neq _ _) H64).
    - destruct (Z.eqb_spec p 16); [done|]. destruct (Z.eqb_spec p 32); [done|].
      destruct (Z.eqb_spec p 64); done. }
  split.
  { intros dev b. unfold Common.set_device.
    by destruct (String.eqb (PyStr.lower dev) "cuda" && b). }
  done.
Qed.

(** ** The readable form *)

Lemma sequence_raises {A B : Type} (f : A -> result B) (e : exn) (l : list A) (x : A) :
  (forall y e', f y = Raise e' -> e' = e) ->
  In x l -> f x = Raise e ->
  sequence (map f l) = Raise e.
Proof.
  intros Hf Hin Hx. induction l as [|y l IH]; [done|].
  cbn [map sequence]. destruct Hin as [->|Hin].
  - by rewrite Hx.
  - destruct (f y) as [b|e'] eqn:Hy; [by rewrite (IH Hin)|].
    by rewrite (Hf y e' Hy).
Qed.

(** C6 at the code: [readable2state] raises [ValueError] on every readable
    form whose angles, between the brackets, hold an empty piece when split
    at single spaces. numpy pads the elements of an array to a common
    width, so the form that [state2readable] writes has such a piece as soon
    as two angles print with different widths. *)
Theorem readable2state_rejects_padding
    (np_float32 : string -> option float) (readable : string) (p0 : string) :
  np_float32 EmptyString = None ->
  list_getitem (PyStr.split " | " readable) 0 = Ok p0 ->
  In EmptyString (PyStr.split " " (PyStr.strip "[]" p0)) ->
  readable2state np_float32 readable = Raise ValueError.
Proof.
  intros Hempty Hp0 Hin. unfold readable2state. rewrite Hp0.
  rewrite (sequence_raises _ ValueError _ EmptyString); [done| |done|].
  - intros y e' Hy. cbn beta in Hy. destruct (np_float32 y); congruence.
  - cbn beta. by rewrite Hempty.
Qed.

(** The state [[pi/2, 0.0, 1]], which [step_example] reaches: its readable
    form is ["[90.  0.] | 1"], and reading it back raises. *)
Lemma readable2state_rejects_padding_witness :
  state2readable np_array_str_sample
    [PyFloat 0x1.921fb54442d18p+0; PyFloat 0; PyInt 1] = Ok "[90.  0.] | 1"%string
  /\ readable2state np_float32_sample "[90.  0.] | 1" = Raise ValueError.
Proof.
  split; [reflexivity|].
  apply (readable2state_rejects_padding np_float32_sample "[90.  0.] | 1" "[90.  0.]");
    [reflexivity | reflexivity | vm_compute; tauto].
Defined.

(** A state whose angles print with one width is read back. *)
Example readable_roundtrip_source :
  readable2state np_float32_sample "[0. 0.] | 0" = Ok [PyFloat 0; PyFloat 0; PyInt 0].
Proof. reflexivity. Qed.

(** ** The conversion to float32 *)

Lemma digits2_pos_unique (m : positive) (k : Z) :
  2 ^ (k - 1) <= Zpos m < 2 ^ k -> Zpos (digits2_pos m) = k.
Proof.
  intros [Hlo Hhi]. destruct (digits2_pos_bounds m) as [Hlo' Hhi'].
  assert (Hk : 0 < k).
  { destruct (Z_lt_le_dec 0 k) as [|Hle]; [done|]. exfalso.
    destruct (Z.eq_dec k 0) as [->|]; [simpl in Hhi; lia|].
    rewrite Z.pow_neg_r in Hhi by lia. lia. }
  assert (H1 : 2 ^ (k - 1) < 2 ^ Zpos (digits2_pos m)) by lia.
  assert (H2 : 2 ^ (Zpos (digits2_pos m) - 1) < 2 ^ k) by lia.
  apply Z.pow_lt_mono_r_iff in H1; [|lia|lia].
  apply Z.pow_lt_mono_r_iff in H2; [|lia|lia]. lia.
Qed.

Lemma fexp_eq (p E x : Z) : fexp p E x = Z.max (x - p) (3 - E - p).
Proof. reflexivity. Qed.

(** A number that [binary_round] returns is in the canonical form of the
    format. *)
Lemma binary_round_bounded (p E : Z) (s : bool) (m : positive) (e : Z)
    (s' : bool) (m' : positive) (e' : Z) :
  0 < p ->
  binary_round p E s m e = S754_finite s' m' e' ->
  s' = s /\ bounded p E m' e' = true.
Proof.
  intros Hp. unfold binary_round.
  set (D := Zpos (digits2_pos m) + e).
  set (t := fexp p E D).
  assert (Ht : t = Z.max (D - p) (3 - E - p)) by reflexivity.
  fold D. fold t.
  pose proof (shl_align_spec m e t) as Hs.
  destruct (shl_align m e t) as [mz ez]. destruct Hs as (Hez & Hmz & Hdz).
  unfold binary_round_aux, shr_fexp. cbn [Zdigits2].
  replace (Zpos (digits2_pos mz) + ez) with D by (unfold D; lia). fold t.
  pose proof (shr_exact_spec (Zpos mz) ez (t - ez) ltac:(lia)) as Hs1.
  destruct (shr (shr_record_of_loc (Zpos mz) loc_Exact) ez (t - ez)) as [mrs1 e1].
  destruct Hs1 as (He1 & Hq & _).
  replace (Z.max (t - ez) 0) with (t - ez) in * by lia.
  assert (e1 = t) as -> by lia. clear He1.
  set (q := shr_m mrs1) in *.
  set (m1 := round_nearest_even q (loc_of_shr_record mrs1)).
  pose proof (round_nearest_even_bounds q (loc_of_shr_record mrs1)) as Hm1. fold m1 in Hm1.
  assert (Hq0 : 0 <= q).
  { rewrite Hq. apply Z.div_pos; [lia|]. apply Z.pow_pos_nonneg; lia. }
  set (n2 := fexp p E (Zdigits2 m1 + t) - t).
  pose proof (shr_exact_spec m1 t n2 ltac:(lia)) as Hs2.
  destruct (shr (shr_record_of_loc m1 loc_Exact) t n2) as [mrs2 e2].
  destruct Hs2 as (He2 & Hq2 & _).
  destruct (shr_m mrs2) as [|m2|m2] eqn:Hm2; [done| |done].
  destruct (e2 <=? E - p) eqn:Hle; [|done].
  intros [= <- <- <-]. split; [done|].
  unfold bounded. rewrite Hle, andb_true_r.
  unfold canonical_mantissa. apply Z.eqb_eq. rewrite fexp_eq.
  (* the mantissa before rounding *)
  destruct (digits2_pos_bounds mz) as [Hzlo Hzhi].
  set (dz := Zpos (digits2_pos mz)) in *.
  set (k := t - ez) in *.
  assert (Hk : 0 <= k) by (unfold k; lia).
  assert (Hdk : dz - k = D - t) by (unfold dz, k, D; lia).
  assert (H2k : 0 < 2 ^ k) by (apply Z.pow_pos_nonneg; lia).
  assert (Hm1pos : 0 < m1).
  { destruct (Z_lt_le_dec 0 m1) as [|Hle0]; [done|]. exfalso.
    assert (m1 = 0) as Hz by lia. rewrite Hz in Hq2.
    rewrite Z.div_0_l in Hq2 by (apply Z.pow_nonzero; lia). lia. }
  destruct (Z_le_gt_dec (3 - E - p) (D - p)) as [Hnorm|Hsub].
  - (* the normal range: [q] has [p] bits *)
    assert (Htv : t = D - p) by lia.
    assert (Hqlo : 2 ^ (p - 1) <= q).
    { rewrite Hq. apply Z.div_le_lower_bound; [done|].
      rewrite Z.mul_comm, <- Z.pow_add_r by lia.
      replace (p - 1 + k) with (dz - 1) by lia. done. }
    assert (Hqhi : q < 2 ^ p).
    { rewrite Hq. apply Z.div_lt_upper_bound; [done|].
      rewrite <- Z.pow_add_r by lia. replace (k + p) with dz by lia. done. }
    destruct (Z_lt_le_dec m1 (2 ^ p)) as [Hlt|Hge].
    + destruct m1 as [|pm1|pm1] eqn:Em1; [lia| |lia].
      assert (Hd1 : Zdigits2 (Zpos pm1) = p).
      { cbn [Zdigits2]. apply digits2_pos_unique. lia. }
      assert (Hn2 : n2 = 0) by (unfold n2; rewrite Hd1, fexp_eq; lia).
      rewrite Hn2 in *. simpl Z.max in *. rewrite Z.pow_0_r, Z.div_1_r in Hq2.
      injection Hq2 as ->. cbn [Zdigits2] in Hd1. rewrite Hd1. lia.
    + assert (Hm1v : m1 = 2 ^ p) by lia.
      assert (Hd1 : Zdigits2 m1 = p + 1).
      { destruct m1 as [|pm1|pm1] eqn:Em1; [lia| |lia].
        cbn [Zdigits2]. apply digits2_pos_unique.
        replace (p + 1 - 1) with p by lia. rewrite Z.pow_add_r by lia. lia. }
      assert (Hn2 : n2 = 1) by (unfold n2; rewrite Hd1, fexp_eq; lia).
      rewrite Hn2 in *. simpl Z.max in *.
      assert (Hm2v : Zpos m2 = 2 ^ (p - 1)).
      { rewrite Hq2, Hm1v. replace p with (1 + (p - 1)) at 1 by lia.
        rewrite Z.pow_add_r by lia. change (2 ^ 1) with 2.
        rewrite Z.mul_comm, Z.div_mul by lia. done. }
      assert (Hd2 : Zpos (digits2_pos m2) = p).
      { apply digits2_pos_unique. rewrite Hm2v. split; [lia|].
        apply Z.pow_lt_mono_r; lia. }
      rewrite Hd2. lia.
  - (* the subnormal range: fewer than [p] bits, and no carry beyond them *)
    assert (Htv : t = 3 - E - p) by lia.
    assert (Hqhi : q < 2 ^ (p - 1)).
    { rewrite Hq. apply Z.div_lt_upper_bound; [done|].
      rewrite <- Z.pow_add_r by lia.
      eapply Z.lt_le_trans; [exact Hzhi|]. apply Z.pow_le_mono_r; lia. }
    destruct m1 as [|pm1|pm1] eqn:Em1; [lia| |lia].
    assert (Hd1 : Zpos (digits2_pos pm1) <= p).
    { apply digits2_pos_le; [lia|].
      assert (2 ^ (p - 1) < 2 ^ p) by (apply Z.pow_lt_mono_r; lia). lia. }
    assert (Hn2 : n2 = 0) by (unfold n2; cbn [Zdigits2]; rewrite fexp_eq; lia).
    rewrite Hn2 in *. simpl Z.max in *. rewrite Z.pow_0_r, Z.div_1_r in Hq2.
    injection Hq2 as ->. lia.
Qed.

(** [binary_round] returns a number of the format as it is. *)
Lemma binary_round_exact (p E : Z) (s : bool) (m0 : positive) (e0 : Z)
    (m : positive) (e : Z) :
  bounded p E m0 e0 = true -> e <= e0 -> Zpos m = Zpos m0 * 2 ^ (e0 - e) ->
  binary_round p E s m e = S754_finite s m0 e0.
Proof.
  intros Hb He Hm. unfold bounded, canonical_mantissa in Hb.
  apply andb_prop in Hb as [Hcan Hle]. apply Z.eqb_eq in Hcan.
  set (k := e0 - e) in *. assert (Hk : 0 <= k) by (unfold k; lia).
  assert (H2k : 0 < 2 ^ k) by (apply Z.pow_pos_nonneg; lia).
  destruct (digits2_pos_bounds m0) as [Hlo Hhi].
  assert (Hd : Zpos (digits2_pos m) = Zpos (digits2_pos m0) + k).
  { apply digits2_pos_unique. rewrite Hm.
    replace (Zpos (digits2_pos m0) + k - 1) with (Zpos (digits2_pos m0) - 1 + k) by lia.
    rewrite !Z.pow_add_r by lia. split.
    - apply Z.mul_le_mono_nonneg_r; lia.
    - apply Z.mul_lt_mono_pos_r; lia. }
  unfold binary_round.
  replace (Zpos (digits2_pos m) + e) with (Zpos (digits2_pos m0) + e0) by (unfold k in Hd; lia).
  rewrite Hcan.
  pose proof (shl_align_spec m e e0) as Hs.
  destruct (shl_align m e e0) as [mz ez]. destruct Hs as (Hez & Hmz & Hdz).
  assert (ez = e) as -> by lia.
  rewrite Z.sub_diag, Z.pow_0_r, Z.mul_1_r in Hmz. injection Hmz as ->.
  unfold binary_round_aux, shr_fexp. cbn [Zdigits2].
  replace (Zpos (digits2_pos m) + e) with (Zpos (digits2_pos m0) + e0) by (unfold k in Hd; lia).
  rewrite Hcan. fold k.
  pose proof (shr_exact_spec (Zpos m) e k ltac:(lia)) as Hs1.
  pose proof (shr_exact_loc (Zpos m) e k ltac:(lia)) as Hloc.
  destruct (shr (shr_record_of_loc (Zpos m) loc_Exact) e k) as [mrs1 e1].
  destruct Hs1 as (He1 & Hq & Hex). cbn [fst] in Hloc.
  replace (Z.max k 0) with k in * by lia.
  assert (e1 = e0) as -> by (unfold k in He1; lia).
  assert (Hqv : shr_m mrs1 = Zpos m0).
  { rewrite Hq, Hm. apply Z.div_mul. lia. }
  assert (Hr : round_nearest_even (shr_m mrs1) (loc_of_shr_record mrs1) = Zpos m0).
  { destruct (Z.eq_dec k 0) as [Hk0|Hk0].
    - rewrite (Hex ltac:(lia)). exact Hqv.
    - rewrite Hq, Hloc; [by rewrite <- Hq| lia |].
      rewrite Hm, Z.mod_mul by lia. apply Z.pow_pos_nonneg; lia. }
  rewrite Hr. cbn [Zdigits2]. rewrite Hcan, Z.sub_diag.
  cbn [shr shr_record_of_loc shr_m]. by rewrite Hle.
Qed.

Lemma Prim2SF_SF2Prim_exact (s : bool) (m : positive) (e : Z) :
  Zpos (digits2_pos m) <= 53 -> -1074 <= e <= 971 ->
  Prim2SF (SF2Prim (sf_exact s m e)) = sf_exact s m e.
Proof.
  intros Hd He. destruct (sf_exact_spec s m e Hd He) as (m' & e' & Heq & Hv & _).
  rewrite Heq. by apply FloatAxioms.Prim2SF_SF2Prim.
Qed.

(** A number of a format of at most 24 bits of precision, whose exponents
    are among those of float32, is a float32 number: the conversion to
    float32 returns it. *)
Lemma round_to_float32_fixed (p E : Z) (x : float) :
  0 < p <= 24 -> -149 <= 3 - E - p -> E - p <= 104 ->
  round_to 24 128 (round_to p E x) = round_to p E x.
Proof.
  intros Hp Hemin Hemax. unfold round_to at 2 3.
  destruct (Prim2SF x) as [s0|s0| |s m e] eqn:Hx.
  1-3: by unfold round_to; rewrite Hx.
  destruct (binary_round p E s m e) as [s'|s'| |s' m' e'] eqn:Hr.
  1-3: by unfold round_to; rewrite FloatAxioms.Prim2SF_SF2Prim.
  apply binary_round_bounded in Hr as [-> Hb]; [|lia].
  pose proof Hb as Hb'. unfold bounded, canonical_mantissa in Hb'.
  apply andb_prop in Hb' as [Hcan Hle]. apply Z.eqb_eq in Hcan. apply Z.leb_le in Hle.
  rewrite fexp_eq in Hcan.
  set (D := Zpos (digits2_pos m') + e') in *.
  assert (Hdig : Zpos (digits2_pos m') <= 24).
  { destruct (Z_le_gt_dec (Zpos (digits2_pos m')) p); [lia|]. unfold D in Hcan. lia. }
  unfold round_to. rewrite Prim2SF_SF2Prim_exact by lia.
  unfold sf_exact at 1. fold D.
  pose proof (shl_align_spec m' e' (fexp prec emax D)) as Hs.
  destruct (shl_align m' e' (fexp prec emax D)) as [m2 e2] eqn:Hal.
  destruct Hs as (He2 & Hm2 & Hd2).
  change (fexp prec emax D) with (Z.max (D - 53) (-1074)) in He2.
  (* the canonical form in float32 *)
  pose proof (shl_align_spec m' e' (fexp 24 128 D)) as Hs0.
  destruct (shl_align m' e' (fexp 24 128 D)) as [m0 e0] eqn:Hal0.
  destruct Hs0 as (He0 & Hm0 & Hd0).
  change (fexp 24 128 D) with (Z.max (D - 24) (-149)) in He0.
  assert (Hb0 : bounded 24 128 m0 e0 = true).
  { unfold bounded, canonical_mantissa. apply andb_true_intro. split.
    - apply Z.eqb_eq. rewrite fexp_eq. unfold D in *. lia.
    - apply Z.leb_le. lia. }
  assert (Hm20 : Zpos m2 = Zpos m0 * 2 ^ (e0 - e2)).
  { rewrite Hm2, Hm0, <- Z.mul_assoc, <- Z.pow_add_r by lia. do 2 f_equal. lia. }
  rewrite (binary_round_exact 24 128 s m0 e0 m2 e2 Hb0 ltac:(lia) Hm20).
  f_equal. unfold sf_exact. fold D.
  replace (Zpos (digits2_pos m0) + e0) with D by (unfold D; lia).
  rewrite Hal.
  pose proof (shl_align_spec m0 e0 (fexp prec emax D)) as Hs3.
  destruct (shl_align m0 e0 (fexp prec emax D)) as [m3 e3].
  destruct Hs3 as (He3 & Hm3 & _).
  change (fexp prec emax D) with (Z.max (D - 53) (-1074)) in He3.
  assert (e3 = e2) as -> by lia.
  assert (Zpos m3 = Zpos m2) as Heq by (rewrite Hm3, Hm20; done).
  by injection Heq as ->.
Qed.

Lemma torch_cast_float32_fixed (d : Common.dtype) (x : float) :
  d <> Common.float64 ->
  torch_cast Common.float32 (torch_cast d x) = torch_cast d x.
Proof.
  intros Hd. destruct d; [| |done]; cbn [torch_cast];
    apply round_to_float32_fixed; lia.
Qed.

Example torch_cast_values :
  torch_cast Common.float32 0x1.999999999999ap-4 = 0x1.99999ap-4%float
  /\ torch_cast Common.float32 16777217 = 16777216%float
  /\ torch_cast Common.float32 0x1p128 = infinity
  /\ torch_cast Common.float32 0x1p-150 = 0%float
  /\ torch_cast Common.float16 65519 = 65504%float
  /\ torch_cast Common.float64 0x1.999999999999ap-4 = 0x1.999999999999ap-4%float.
Proof. repeat split; reflexivity. Qed.

(** ** Sampling and scoring *)


Lemma sequence_Ok {A : Type} (l : list (result A)) (r : list A) :
  sequence l = Ok r <-> Forall2 (fun x y => x = Ok y) l r.
Proof.
  revert r. induction l as [|x l IH]; intros r; cbn [sequence].
  - split; [intros [= <-]; constructor | by inversion 1].
  - destruct x as [a|e].
    + destruct (sequence l) as [r'|e'] eqn:Hs.
      * split.
        -- intros [= <-]. constructor; [done|]. by apply IH.
        -- inversion 1 as [|? b ? r'' Hb Hl]; subst. injection Hb as <-.
           apply IH in Hl. by injection Hl as <-.
      * split; [done|]. inversion 1 as [|? b ? r'' Hb Hl]; subst.
        apply IH in Hl. done.
    + split; [done|]. by inversion 1.
Qed.

Lemma stride_set_stride {A : Type} (n skip : nat) (l vals : list A) :
  length vals = length (stride_aux n skip l) ->
  stride_aux n skip (set_stride_aux n skip l vals) = vals.
Proof.
  revert skip vals. induction l as [|x l IH]; intros skip vals Hlen.
  - by destruct vals.
  - destruct skip as [|s]; cbn in *.
    + destruct vals as [|v vs]; [done|]. cbn. f_equal. apply IH. by injection Hlen.
    + by apply IH.
Qed.

Lemma set_stride_idemp {A : Type} (n skip : nat) (l vals : list A) :
  set_stride_aux n skip (set_stride_aux n skip l vals) vals = set_stride_aux n skip l vals.
Proof.
  revert skip vals. induction l as [|x l IH]; intros skip vals; [done|].
  destruct skip as [|s]; cbn.
  - destruct vals as [|v vs]; [done|]. cbn. f_equal. apply IH.
  - f_equal. apply IH.
Qed.

Lemma mask_row_Ok (v : float) (m : list bool) (r l : list float) :
  mask_row v m r = Ok l -> length l = length r /\ mask_row v m l = Ok l.
Proof.
  unfold mask_row. destruct (Nat.eqb_spec (length m) (length r)) as [Hlen|]; [|done].
  intros [= <-]. rewrite length_zip_with.
  replace (length m =? length m `min` length r)%nat with true
    by (symmetry; apply Nat.eqb_eq; lia).
  split; [lia|]. f_equal. clear Hlen. revert r.
  induction m as [|b m IH]; intros [|x r]; cbn; try done.
  f_equal; [by destruct b|apply IH].
Qed.

Lemma apply_mask_Ok (v : float) (mask : option (list (list bool)))
    (t l : list (list float)) :
  apply_mask v mask t = Ok l ->
  Forall2 (fun r r' => length r' = length r) t l /\ apply_mask v mask l = Ok l.
Proof.
  unfold apply_mask. destruct mask as [m|].
  - destruct (Nat.eqb_spec (length m) (length t)) as [Hlen|]; [|done].
    intros Hs. apply sequence_Ok in Hs.
    assert (Hrows : Forall2 (fun r r' => length r' = length r) t l
                    /\ Forall2 (fun x y => x = Ok y) (zip_with (mask_row v) m l) l).
    { revert m l Hlen Hs. induction t as [|r t IH]; intros m l Hlen Hs.
      - destruct m; [|done]. cbn in Hs. inversion Hs; subst. split; constructor.
      - destruct m as [|mr m]; [done|]. cbn in Hs.
        inversion Hs as [|? r' ? l' Hr Hl]; subst.
        apply mask_row_Ok in Hr as [Hr1 Hr2].
        destruct (IH m l' ltac:(cbn in Hlen; lia) Hl) as [H1 H2].
        split; constructor; done. }
    destruct Hrows as [H1 H2]. split; [done|].
    replace (length m =? length l)%nat with true.
    + by apply sequence_Ok.
    + symmetry. apply Nat.eqb_eq. apply Forall2_length in H1. lia.
  - intros [= <-]. split; [|done]. by apply Forall_Forall2_diag, Forall_forall.
Qed.


Lemma list_getitem_last {A : Type} (l : list A) :
  l <> [] -> exists v, list_getitem l (-1) = Ok v.
Proof.
  intros Hl. destruct l as [|x l]; [done|].
  destruct (lookup_lt_is_Some_2 (x :: l) (length l) ltac:(cbn; lia)) as [v Hv].
  exists v. apply list_getitem_Some with (n := length l); [|done].
  cbn [length]. apply py_index_last.
Qed.

Lemma length_set_stride_aux {A : Type} (n skip : nat) (l vals : list A) :
  length (set_stride_aux n skip l vals) = length l.
Proof.
  revert skip vals. induction l as [|x l IH]; intros skip vals; [done|].
  destruct skip as [|s]; cbn [set_stride_aux].
  - destruct vals as [|v vs]; [done|]. cbn [length]. by rewrite IH.
  - cbn [length]. by rewrite IH.
Qed.

Lemma stride_set_stride_ne {A : Type} (n s1 s2 : nat) (l vals : list A) :
  (s1 < n)%nat -> (s2 < n)%nat -> s1 <> s2 ->
  stride_aux n s1 (set_stride_aux n s2 l vals) = stride_aux n s1 l.
Proof.
  revert s1 s2 vals. induction l as [|x l IH]; intros s1 s2 vals H1 H2 Hne; [done|].
  destruct s2 as [|s2]; cbn [set_stride_aux].
  - destruct vals as [|v vs]; [done|].
    destruct s1 as [|s1]; [done|]. cbn [stride_aux]. apply IH; lia.
  - destruct s1 as [|s1]; cbn [stride_aux].
    + f_equal. apply IH; lia.
    + apply IH; lia.
Qed.

Lemma apply_mask_length (v : float) (mask : option (list (list bool)))
    (t l : list (list float)) :
  apply_mask v mask t = Ok l -> length l = length t.
Proof.
  intros H. apply apply_mask_Ok in H as [H _]. symmetry. by eapply Forall2_length.
Qed.

Lemma rows_Ok {A B : Type} (f : A -> result B) (l : list A) (r : list B) :
  rows f l = Ok r <-> Forall2 (fun x y => f x = Ok y) l r.
Proof. unfold rows. rewrite sequence_Ok. apply Forall2_fmap_l. Qed.

Lemma rows_bind {A B C : Type} (f : A -> result B) (g : B -> result C)
    (K : list B -> result (list C)) (l : list A) :
  (forall t, ok_equiv (K t) (rows g t)) ->
  ok_equiv (let* t := rows f l in K t) (rows (fun x => let* y := f x in g y) l).
Proof.
  intros HK r. rewrite rows_Ok. destruct (rows f l) as [t|e] eqn:Hf; cbn [result_bind].
  - rewrite (HK t r), rows_Ok. apply rows_Ok in Hf.
    revert r. induction Hf as [|x y l t Hxy _ IH]; intros r.
    + split; inversion 1; constructor.
    + split; inversion 1 as [|? z ? r' Hz Hr]; subst.
      * constructor; [by rewrite Hxy|by apply IH].
      * rewrite Hxy in Hz. constructor; [done|by apply IH].
  - split; [done|]. intros HF. exfalso.
    assert (exists t, rows f l = Ok t) as [t Ht]; [|congruence].
    clear Hf. induction HF as [|x z l r Hxz _ [t Ht]].
    + by exists [].
    + destruct (f x) as [y|e'] eqn:Hy; [|done]. exists (y :: t).
      apply rows_Ok. apply rows_Ok in Ht. by constructor.
Qed.

Lemma rows_ret {A B : Type} (h : A -> B) (t : list A) :
  ok_equiv (Ok (map h t)) (rows (fun x => Ok (h x)) t).
Proof.
  intros r. rewrite rows_Ok. split.
  - intros [= <-]. induction t; constructor; done.
  - intros HF. f_equal. induction HF as [|x y l r' Hxy _ IH]; [done|].
    injection Hxy as <-. cbn. by f_equal.
Qed.

Lemma rows_map {A B C : Type} (h : A -> B) (g : B -> result C) (l : list A) :
  rows g (map h l) = rows (fun x => g (h x)) l.
Proof. unfold rows. by rewrite map_map. Qed.

Lemma rows_ext {A B : Type} (f g : A -> result B) (l : list A) :
  (forall x, f x = g x) -> rows f l = rows g l.
Proof. intros H. unfold rows. f_equal. apply map_ext. exact H. Qed.

Lemma sequence_length {A : Type} (l : list (result A)) (r : list A) :
  sequence l = Ok r -> length r = length l.
Proof. intros H. apply sequence_Ok, Forall2_length in H. done. Qed.

Lemma rows_length {A B : Type} (f : A -> result B) (l : list A) (r : list B) :
  rows f l = Ok r -> length r = length l.
Proof. intros H. apply rows_Ok, Forall2_length in H. done. Qed.

Lemma zip2_length {A B : Type} (l1 : list A) (l2 : list B) :
  length (zip2 l1 l2) = (length l1 `min` length l2)%nat.
Proof.
  revert l2. induction l1 as [|x l1 IH]; intros [|y l2]; cbn; try done. by rewrite IH.
Qed.

Lemma view_of_masked {A : Type} (npd : nat) (policy_outputs L : list (list A)) :
  Forall2 (fun r l => length l = length (stride 0 npd r)) policy_outputs L ->
  map (stride 0 npd) (zip_with (set_stride 0 npd) policy_outputs L) = L
  /\ zip_with (set_stride 0 npd) (zip_with (set_stride 0 npd) policy_outputs L) L
     = zip_with (set_stride 0 npd) policy_outputs L
  /\ Forall2 (fun row row' => length row' = length row) policy_outputs
       (zip_with (set_stride 0 npd) policy_outputs L)
  /\ forall k, (0 < k < npd)%nat ->
       map (stride k npd) (zip_with (set_stride 0 npd) policy_outputs L)
       = map (stride k npd) policy_outputs.
Proof.
  intros HF. split; [|split; [|split]].
  - induction HF as [|r l rs ls Hl _ IH]; [done|].
    cbn. f_equal; [by apply stride_set_stride|exact IH].
  - clear. revert L. induction policy_outputs as [|r rs IH]; intros [|l ls]; cbn; try done.
    f_equal; [apply set_stride_idemp|apply IH].
  - induction HF as [|r l rs ls Hl _ IH]; [constructor|].
    cbn [zip_with]. constructor; [|exact IH]. unfold set_stride. apply length_set_stride_aux.
  - intros k Hk. induction HF as [|r l rs ls Hl _ IH]; [done|].
    cbn. f_equal; [|exact IH]. unfold stride, set_stride.
    apply stride_set_stride_ne; lia.
Qed.

Lemma ok_equiv_ext {A B : Type} (P : result (list B)) (f g : A -> result B) (l : list A) :
  ok_equiv P (rows f l) -> (forall x, f x = g x) -> ok_equiv P (rows g l).
Proof. intros H Hfg. by rewrite <- (rows_ext f g l Hfg). Qed.

Ltac collapse :=
  cbv zeta;
  repeat first [ apply rows_ret
               | rewrite rows_map
               | eapply rows_bind; intros ? ].

Ltac rowwise :=
  unfold result_bind, selected, of_option;
  repeat (case_match; unfold result_bind, selected, of_option in *; cbn [fst snd] in *;
          simplify_eq; try done).

Lemma with_policy_outputs_spec (policy_outputs : list (list float))
    (batch : list (list float * action * list float)) :
  length policy_outputs = length batch ->
  map (fun b : list float * action * list float => fst (fst b))
    (with_policy_outputs policy_outputs batch) = policy_outputs
  /\ map (fun b : list float * action * list float =>
            (fst (snd (fst b)), torch_cast Common.float32 (snd (snd (fst b))), snd b))
       (with_policy_outputs policy_outputs batch)
     = map (fun b : list float * action * list float =>
            (fst (snd (fst b)), torch_cast Common.float32 (snd (snd (fst b))), snd b)) batch.
Proof.
  unfold with_policy_outputs. revert batch.
  induction policy_outputs as [|r rs IH]; intros [|b bs] Hlen; try done.
  cbn in Hlen. destruct (IH bs ltac:(lia)) as [H1 H2].
  cbn [zip_with map fst snd]. split; f_equal; done.
Qed.

(** What [sample_actions] returns, row by row. *)
Section SampleRows.

Variable self : HybridTorus.
Variable logsoftmax : list float -> list float.
Variable torch_exp : float -> float.
Variable vonmises_log_prob : float -> float -> float -> option float.
Variable uniform_log_prob : float -> option float.
Variable categorical_draw : nat -> list float -> option Z.
Variable vonmises_draw : nat -> float -> float -> option float.
Variable uniform_draw : nat -> float.

Let sample_actions' :=
  sample_actions self logsoftmax torch_exp vonmises_log_prob uniform_log_prob
    categorical_draw vonmises_draw uniform_draw.
Let sample_row' :=
  sample_row self logsoftmax torch_exp vonmises_log_prob uniform_log_prob
    categorical_draw vonmises_draw uniform_draw.

Lemma sample_actions_rows (policy_outputs : list (list float)) (method : sampling_method)
    (mask : option (list (list bool))) (temperature_logits loginf : float)
    (actions : list action) (logprobs : list float) (policy_outputs' : list (list float)) :
  sample_actions' policy_outputs method mask temperature_logits loginf
  = Ok (actions, logprobs, policy_outputs') ->
  exists L sampled,
    apply_mask (- loginf)%float mask
      match method with
      | uniform => replicate (length policy_outputs) (replicate (policy_output_dim self) 1%float)
      | policy => map (fun row => map (fun x => (x / temperature_logits)%float)
                                      (stride 0 (n_params_per_dim self) row)) policy_outputs
      end = Ok L
    /\ policy_outputs' = match method with
                         | uniform => policy_outputs
                         | policy => zip_with (set_stride 0 (n_params_per_dim self))
                                       policy_outputs L
                         end
    /\ rows (sample_row' method)
         (imap (fun i (p : list float * list float) => (i, fst p, snd p))
               (zip2 policy_outputs' L)) = Ok sampled
    /\ actions = map fst sampled /\ logprobs = map snd sampled
    /\ (method = policy -> n_params_per_dim self <> 0%nat).
Proof.
  unfold sample_actions', sample_actions. intros Hs.
  match type of Hs with
  | result_bind ?L0 _ = _ =>
      assert (HL0 : L0 = Ok match method with
                            | uniform => replicate (length policy_outputs)
                                           (replicate (policy_output_dim self) 1%float)
                            | policy => map (fun row => map (fun x => (x / temperature_logits)%float)
                                               (stride 0 (n_params_per_dim self) row)) policy_outputs
                            end
                    /\ (method = policy -> n_params_per_dim self <> 0%nat))
  end.
  { destruct method; [done|].
    destruct (Nat.eqb_spec (n_params_per_dim self) 0) as [Hz|Hz]; [by rewrite Hz in Hs|done]. }
  destruct HL0 as [HL0 Hnpd]. rewrite HL0 in Hs. cbn [result_bind] in Hs.
  destruct (apply_mask _ mask _) as [L|e] eqn:HL; [|done]. cbn [result_bind] in Hs.
  match type of Hs with
  | result_bind ?P _ = _ => destruct P as [sampled|e] eqn:HP; [|done]
  end.
  cbn [result_bind] in Hs. injection Hs as <- <- <-.
  exists L, sampled. split; [done|]. split; [done|]. split; [|done].
  revert HP. generalize (imap (fun i (p : list float * list float) => (i, fst p, snd p))
    (zip2 match method with
          | uniform => policy_outputs
          | policy => zip_with (set_stride 0 (n_params_per_dim self)) policy_outputs L
          end L)) as t.
  intros t HP.
  match type of HP with
  | ?P = Ok _ => assert (Heq : ok_equiv P (rows (sample_row' method) t)); [|by apply Heq]
  end.
  clear HP. unfold with_tensor.
  destruct method.
  - eapply ok_equiv_ext; [collapse|].
    intros [[i row] logits]. unfold sample_row', sample_row, vonmises_params, concentration_of.
    cbn beta iota zeta.
    rowwise.
  - eapply ok_equiv_ext; [collapse|].
    intros [[i row] logits]. unfold sample_row', sample_row, vonmises_params, concentration_of.
    cbn beta iota zeta.
    rowwise.
Qed.

Lemma sample_row_eos (method : sampling_method) (r : nat * list float * list float)
    (a : action) (lp : float) :
  sample_row self logsoftmax torch_exp vonmises_log_prob uniform_log_prob
    categorical_draw vonmises_draw uniform_draw method r = Ok (a, lp) ->
  fst a = eos self -> snd a = 0%float.
Proof.
  destruct r as [[i row] logits]. unfold sample_row.
  destruct (categorical_draw i logits) as [d|]; [|done]. cbn [of_option result_bind].
  destruct (list_getitem (logsoftmax logits) d) as [lpd|e]; [|done]. cbn [result_bind].
  destruct (Z.eqb_spec d (eos self)) as [Hd|Hd]; cbn [negb].
  - by intros [= <- <-].
  - destruct method.
    + destruct (uniform_log_prob _) as [lpa|]; [|done]. cbn [of_option result_bind].
      intros [= <- <-]. done.
    + destruct (vonmises_params _ _ row d) as [params|e]; [|done]. cbn [result_bind].
      destruct (vonmises_draw i _ _) as [x|]; [|done]. cbn [of_option result_bind].
      destruct (vonmises_log_prob _ _ _) as [lpa|]; [|done]. cbn [of_option result_bind].
      intros [= <- <-]. done.
Qed.

(** The angles that [sample_actions] returns are float32 numbers when the
    von Mises sampler draws float32 numbers. *)
Lemma sampled_angles_float32
    (policy_outputs : list (list float)) (mask : option (list (list bool)))
    (temperature_logits loginf : float)
    (actions : list action) (logprobs : list float) (policy_outputs' : list (list float)) :
  (forall i loc k x, vonmises_draw i loc k = Some x -> torch_cast Common.float32 x = x) ->
  sample_actions' policy_outputs policy mask temperature_logits loginf
  = Ok (actions, logprobs, policy_outputs') ->
  Forall (fun a : action => torch_cast Common.float32 (snd a) = snd a) actions.
Proof.
  intros Hdraw Hs.
  apply sample_actions_rows in Hs as (L & sampled & _ & _ & Hrows & -> & _).
  apply Forall_fmap. apply rows_Ok in Hrows.
  clear -Hrows Hdraw. induction Hrows as [|r [a lp] l sampled Hr _ IH]; constructor; [|exact IH].
  unfold compose. cbn [fst]. clear IH.
  destruct r as [[i row] logits]. unfold sample_row', sample_row in Hr.
  destruct (categorical_draw i logits) as [d|]; [|done]. cbn [of_option result_bind] in Hr.
  destruct (list_getitem (logsoftmax logits) d) as [lpd|e]; [|done]. cbn [result_bind] in Hr.
  destruct (negb (d =? eos self)).
  - destruct (vonmises_params _ _ row d) as [params|e]; [|done]. cbn [result_bind] in Hr.
    destruct (vonmises_draw i _ _) as [x|] eqn:Hx; [|done]. cbn [of_option result_bind] in Hr.
    destruct (vonmises_log_prob _ _ _) as [lpa|]; [|done]. cbn [of_option result_bind] in Hr.
    injection Hr as <- <-. cbn [snd]. by eapply Hdraw.
  - injection Hr as <- <-. reflexivity.
Qed.

End SampleRows.

(** What [get_logprobs] returns, row by row. *)
Section LogprobRows.

Variable self : HybridTorus.
Variable logsoftmax : list float -> list float.
Variable torch_exp : float -> float.
Variable vonmises_log_prob : float -> float -> float -> option float.
Variable bernoulli_log_prob : float -> float -> option float.

Let get_logprobs' :=
  get_logprobs self logsoftmax torch_exp vonmises_log_prob bernoulli_log_prob.
Let logprob_row' :=
  logprob_row self logsoftmax torch_exp vonmises_log_prob bernoulli_log_prob.

Lemma get_logprobs_rows (batch : list (list float * action * list float))
    (is_forward : bool) (mask : option (list (list bool))) (loginf : float)
    (logprobs : list float) (policy_outputs' : list (list float)) :
  get_logprobs' batch is_forward mask loginf = Ok (logprobs, policy_outputs') <->
  batch <> [] /\ n_params_per_dim self <> 0%nat
  /\ exists L,
      apply_mask (- loginf)%float mask
        (map (stride 0 (n_params_per_dim self)) (policy_outputs_of batch)) = Ok L
      /\ policy_outputs' = zip_with (set_stride 0 (n_params_per_dim self))
                             (policy_outputs_of batch) L
      /\ rows (logprob_row' is_forward)
           (zip2 (zip2 policy_outputs' L)
              (map (fun b : list float * action * list float =>
                      (fst (snd (fst b)), torch_cast Common.float32 (snd (snd (fst b))),
                       snd b)) batch)) = Ok logprobs.
Proof.
  unfold get_logprobs', get_logprobs.
  destruct batch as [|b0 batch0]; [by split; [|intros [? _]]|].
  set (batch := b0 :: batch0).
  destruct (Nat.eqb_spec (n_params_per_dim self) 0) as [Hz|Hz];
    [by split; [|intros (_ & ? & _)]|].
  replace (map (fun '(_, (d, angle), state_target) =>
                  (d, torch_cast Common.float32 angle, state_target)) batch)
    with (map (fun b : list float * action * list float =>
                 (fst (snd (fst b)), torch_cast Common.float32 (snd (snd (fst b))),
                  snd b)) batch)
    by (apply map_ext; by intros [[? [? ?]] ?]).
  destruct (apply_mask _ mask _) as [L|e] eqn:HL; cbn [result_bind].
  2:{ split; [done|]. by intros (_ & _ & L & ? & _). }
  match goal with
  | |- result_bind ?P _ = _ <-> _ =>
      assert (Heq : ok_equiv P
                (rows (logprob_row' is_forward)
                   (zip2 (zip2 (zip_with (set_stride 0 (n_params_per_dim self))
                                  (policy_outputs_of batch) L) L)
                      (map (fun b : list float * action * list float =>
                              (fst (snd (fst b)), torch_cast Common.float32 (snd (snd (fst b))),
                               snd b)) batch))))
  end.
  { generalize (zip2 (zip2 (zip_with (set_stride 0 (n_params_per_dim self))
                                  (policy_outputs_of batch) L) L)
                      (map (fun b : list float * action * list float =>
                              (fst (snd (fst b)), torch_cast Common.float32 (snd (snd (fst b))),
                               snd b)) batch)) as t.
    intros t. unfold with_tensor.
    destruct (Nat.eqb (n_params_per_dim self) 4 && negb is_forward) eqn:Hmix.
    - eapply ok_equiv_ext; [collapse|].
      intros [[row logits] [[d angle] st]]. unfold logprob_row', logprob_row, vonmises_params, concentration_of.
      cbn beta iota zeta. rewrite Hmix. rowwise.
    - eapply ok_equiv_ext; [collapse|].
      intros [[row logits] [[d angle] st]]. unfold logprob_row', logprob_row, vonmises_params, concentration_of.
      cbn beta iota zeta. rewrite Hmix. rowwise. }
  split.
  - match goal with
    | |- result_bind ?P _ = _ -> _ => destruct P as [lps|e] eqn:HP; [|done]
    end.
    cbn [result_bind]. intros [= <- <-].
    split; [done|]. split; [done|]. exists L. split; [done|]. split; [done|].
    by apply Heq.
  - intros (_ & _ & L' & HL' & -> & Hrows). injection HL' as <-.
    apply Heq in Hrows. by rewrite Hrows.
Qed.

End LogprobRows.

Section LogprobsAgree.

Variable self : HybridTorus.
Variable logsoftmax : list float -> list float.
Variable torch_exp : float -> float.
Variable vonmises_log_prob : float -> float -> float -> option float.
Variable uniform_log_prob : float -> option float.
Variable bernoulli_log_prob : float -> float -> option float.
Variable categorical_draw : nat -> list float -> option Z.
Variable vonmises_draw : nat -> float -> float -> option float.
Variable uniform_draw : nat -> float.

(** The source has one angle for each dimension, and the categorical
    distribution draws one of the actions. *)
Hypothesis source_length : length (source self) = n_dim self.
Hypothesis draw_range :
  forall i logits d, categorical_draw i logits = Some d -> 0 <= d <= eos self.

Let sample_row' :=
  sample_row self logsoftmax torch_exp vonmises_log_prob uniform_log_prob
    categorical_draw vonmises_draw uniform_draw policy.
Let logprob_row' :=
  logprob_row self logsoftmax torch_exp vonmises_log_prob bernoulli_log_prob true.




End LogprobsAgree.



(** * More of the code: trajectories, aliasing, edge cases, the policy
    outputs, sampling, the readable form and the utilities *)

(** A closed comparison of numbers, by evaluation. *)
Ltac evaluate :=
  vm_compute; repeat split; first [reflexivity | discriminate | (intro; discriminate)].

(** ** What every trajectory keeps *)

Lemma filter_zip2_insert {A B : Type} (P : A * B -> Prop) `{!forall x, Decision (P x)}
    (l : list A) (src : list B) (i : nat) (v : A) :
  (length (filter P (zip2 (<[i:=v]> l) src)) <= S (length (filter P (zip2 l src))))%nat.
Proof.
  revert src i. induction l as [|x l IH]; intros src i; [simpl; lia|].
  destruct src as [|y src]; [destruct i; simpl; lia|].
  destruct i as [|i]; cbn [zip2 insert list_insert].
  - rewrite !filter_cons. destruct (decide (P (v, y))), (decide (P (x, y))); cbn [length]; lia.
  - change (list_insert i v l) with (<[i:=v]> l).
    rewrite !filter_cons. specialize (IH src i).
    destruct (decide (P (x, y))); cbn [length]; [apply le_n_S|]; exact IH.
Qed.

Lemma removelast_snoc {A : Type} (l : list A) (x : A) : removelast (l ++ [x]) = l.
Proof. apply removelast_last. Qed.

Lemma noninit_states_snoc (angles : list pyval) (c : pyval) (src : list float) :
  noninit_states (angles ++ [c]) src =
  map fst (filter (fun p => negb (py_eq_float (fst p) (snd p)) = true) (zip2 angles src)).
Proof. unfold noninit_states. by rewrite removelast_snoc. Qed.

Lemma noninit_states_insert (angles : list pyval) (c c' : pyval) (src : list float)
    (i : nat) (v : pyval) :
  (length (noninit_states (<[i:=v]> angles ++ [c']) src)
   <= S (length (noninit_states (angles ++ [c]) src)))%nat.
Proof.
  rewrite !noninit_states_snoc, !length_map. apply filter_zip2_insert.
Qed.

Lemma noninit_states_counter (angles : list pyval) (c c' : pyval) (src : list float) :
  noninit_states (angles ++ [c']) src = noninit_states (angles ++ [c]) src.
Proof. by rewrite !noninit_states_snoc. Qed.

(** The state list after the assignments of a move. *)
Lemma move_result (angles : list pyval) (c : Z) (i : nat) (v u : pyval) :
  (i < S (length angles))%nat ->
  <[pred (length (angles ++ [PyInt c])) := u]> (<[i := v]> (angles ++ [PyInt c]))
  = (if decide (i < length angles)%nat then <[i := v]> angles else angles) ++ [u].
Proof.
  intros Hi. rewrite length_app. cbn [length]. replace (pred (length angles + 1)) with (length angles) by lia.
  destruct (decide (i < length angles)%nat) as [Hlt|Hge].
  - rewrite insert_app_l by done.
    rewrite insert_app_r_alt by (rewrite length_insert; lia).
    rewrite length_insert, Nat.sub_diag. done.
  - assert (i = length angles) as -> by lia.
    rewrite list_insert_insert_eq.
    rewrite insert_app_r_alt by lia. by rewrite Nat.sub_diag.
Qed.

Lemma list_getitem_snoc {A : Type} (l : list A) (x : A) :
  list_getitem (l ++ [x]) (-1) = Ok x.
Proof.
  apply list_getitem_Some with (n := length l).
  - rewrite length_app. cbn [length].
    replace (length l + 1)%nat with (S (length l)) by lia. apply py_index_last.
  - rewrite lookup_app_r by lia. by rewrite Nat.sub_diag.
Qed.

Lemma reset_counters_inv (n : nat) (lt : Z) (w : world) :
  0 <= lt -> n_dim (self_ w) = n -> length_traj (self_ w) = lt ->
  source (self_ w) = replicate n 0%float ->
  counters_inv n lt (snd (reset w)).
Proof.
  intros Hlt Hn Hl Hs. unfold reset. run. cbn [fst snd].
  split; [done|]. split; [done|]. split; [done|].
  exists (map PyFloat (replicate n 0%float)), 0.
  cbn [state with_done with_state with_n_actions self_ heap source n_actions done].
  rewrite Hn. split; [apply lookup_insert_eq|].
  split; [by rewrite length_map, length_replicate|].
  split.
  - rewrite noninit_states_snoc, length_map, Hs.
    replace (filter _ _) with (@nil (pyval * float)); [cbn; lia|].
    clear. induction n as [|n IH]; [done|]. cbn [replicate map zip2].
    rewrite filter_cons_False; [exact IH|]. cbn. done.
  - split; [lia|done].
Qed.

Lemma step_counters_inv (n : nat) (lt : Z) (w : world) (a : action) :
  counters_inv n lt w -> counters_inv n lt (snd (step a w)).
Proof.
  intros (Hn & Hl & Hs & angles & c & Hst & Hlen & Hcnt & Hnd & Hd).
  destruct (done (self_ w)) eqn:Hdone.
  { rewrite step_done by done. cbn [snd].
    split; [done|]. split; [done|]. split; [done|]. exists angles, c.
    rewrite Hdone. done. }
  specialize (Hnd eq_refl). clear Hd.
  destruct (Z.eq_dec (n_actions (self_ w)) (length_traj (self_ w))) as [He|He].
  { rewrite step_forced by done. cbn [snd].
    split; [done|]. split; [done|]. split; [done|]. exists angles, c.
    cbn. repeat split; try done. lia. }
  destruct (Z.eq_dec (fst a) (eos (self_ w))) as [Ha|Ha].
  { rewrite step_eos by done. cbn [snd].
    split; [done|]. split; [done|]. split; [done|]. exists angles, c.
    rewrite Hdone. done. }
  assert (Hinc : counters_inv n lt
            {| self_ := with_n_actions (n_actions (self_ w) + 1) (self_ w);
               heap := heap w; stdout := stdout w |}).
  { split; [done|]. split; [done|]. split; [done|]. exists angles, c.
    cbn. rewrite Hdone. repeat split; try done; lia. }
  rewrite (step_move_cases w a _ Hdone He Ha Hst). cbv zeta.
  destruct (py_index _ (fst a)) as [i|] eqn:Hi; [|exact Hinc].
  pose proof (py_index_lt _ _ _ Hi) as Hilt.
  destruct (_ !! i) as [v|] eqn:Hv; [|exact Hinc].
  destruct (py_float v) as [f|e] eqn:Hf; [|exact Hinc].
  cbn [snd]. split; [done|]. split; [done|]. split; [done|].
  rewrite length_app in Hilt. cbn [length] in Hilt.
  rewrite move_result by lia.
  eexists _, _. cbn [state with_n_actions self_ heap source n_actions done].
  split; [apply lookup_insert_eq|].
  split; [destruct (decide _); by rewrite ?length_insert|].
  rewrite Hdone. split; [|split; [lia|done]].
  destruct (decide (i < length angles)%nat).
  - pose proof (noninit_states_insert angles (PyInt c) (PyInt (n_actions (self_ w) + 1))
                  (source (self_ w)) i (PyFloat (float_rem (f + snd a) two_pi))). lia.
  - rewrite (noninit_states_counter angles (PyInt c)). lia.
Qed.

Lemma reachable_counters_inv (P : action -> Prop) (n : nat) (lt : Z) (b : bool) (w : world) :
  0 <= lt -> reachable_by P n lt b w -> counters_inv n lt w.
Proof.
  intros Hlt Hr. induction Hr as [|w Hr IH|w a Ha Hr IH].
  - unfold init_world. by apply reset_counters_inv.
  - destruct IH as (Hn & Hl & Hs & _). by apply reset_counters_inv.
  - by apply step_counters_inv.
Qed.

(** X19: after the constructor and any calls of [step] and [reset], whatever
    their actions (a call that raises included), the counter attribute lies
    between [0] and [length_traj + 1], and the trajectory is done exactly
    when the attribute is [length_traj + 1]. *)
Theorem reachable_done_iff (n : nat) (lt : Z) (b : bool) (w : world) :
  0 <= lt -> reachable n lt b w ->
  0 <= n_actions (self_ w) <= lt + 1
  /\ (done (self_ w) = true <-> n_actions (self_ w) = lt + 1).
Proof.
  intros Hlt Hr.
  destruct (reachable_counters_inv _ n lt b w Hlt Hr)
    as (_ & _ & _ & angles & c & _ & _ & Hcnt & Hnd & Hd).
  destruct (done (self_ w)).
  - specialize (Hd eq_refl). split; [lia|]. done.
  - specialize (Hnd eq_refl). split; [lia|]. split; [done|lia].
Qed.

Lemma reachable_done_iff_witness :
  let w := snd (step (0, 1%float) (snd (step (0, 1%float) (init_world 2 1 true)))) in
  0 <= n_actions (self_ w) <= 1 + 1
  /\ (done (self_ w) = true <-> n_actions (self_ w) = 1 + 1).
Proof.
  apply (reachable_done_iff 2 1 true); [lia|].
  apply reach_step; [exact I|]. apply reach_step; [exact I|]. apply reach_init.
Defined.

Lemma backward_mask_no_print (w : world) (angles : list pyval) (c : Z) :
  heap w !! state (self_ w) = Some (angles ++ [PyInt c]) ->
  Z.of_nat (length (noninit_states (angles ++ [PyInt c]) (source (self_ w)))) <= c ->
  exists mask, get_mask_invalid_actions_backward None None w = (Ok mask, w).
Proof.
  intros Hst Hcnt. unfold get_mask_invalid_actions_backward. run.
  rewrite (deref_Some _ _ _ Hst).
  set (mask0 := if done (self_ w) then _ else _).
  assert (Hm : exists m, mask0 = Ok (replicate (n_dim (self_ w)) m ++ [negb m])).
  { unfold mask0, len_action_space. destruct (done (self_ w)); [exists true|exists false];
      by rewrite setitem_last_replicate. }
  destruct Hm as [m ->].
  assert (Hget : list_getitem (angles ++ [PyInt c]) (-1) = Ok (PyInt c)).
  { apply list_getitem_Some with (n := length angles).
    - rewrite length_app. cbn [length]. replace (length angles + 1)%nat with (S (length angles)) by lia.
      apply py_index_last.
    - rewrite lookup_app_r by lia. by rewrite Nat.sub_diag. }
  rewrite Hget. unfold int_gt_py. cbn [py_compare_int].
  set (k := Z.of_nat _) in *.
  destruct (Z.compare_spec c k) as [Heq|Hlt|Hgt]; [|lia|].
  - destruct (_ && _); [|by eexists].
    destruct (list_getitem_last (replicate (n_dim (self_ w)) m ++ [negb m])) as [v ->];
      [by destruct (replicate _ _)|]. by eexists.
  - destruct (_ && _); [|by eexists].
    destruct (list_getitem_last (replicate (n_dim (self_ w)) m ++ [negb m])) as [v ->];
      [by destruct (replicate _ _)|]. by eexists.
Qed.

(** X4: on every state that the constructor and calls of [step] and [reset]
    reach, the backward mask of the object's own state returns a mask and
    leaves the world as it was: no more angles differ from the source than
    steps were made, so the line "This point in the code should never be
    reached!" is not printed. *)
Theorem backward_mask_never_prints (n : nat) (lt : Z) (b : bool) (w : world) :
  0 <= lt -> reachable n lt b w ->
  exists mask,
    get_mask_invalid_actions_backward None None w = (Ok mask, w).
Proof.
  intros Hlt Hr.
  destruct (reachable_counters_inv _ n lt b w Hlt Hr)
    as (_ & _ & _ & angles & c & Hst & _ & Hcnt & _).
  by apply backward_mask_no_print with (angles := angles) (c := c).
Qed.

Lemma backward_mask_never_prints_witness :
  let w := snd (step (0, 1%float) (init_world 2 1 true)) in
  exists mask, get_mask_invalid_actions_backward None None w = (Ok mask, w).
Proof.
  apply (backward_mask_never_prints 2 1 true); [lia|].
  apply reach_step; [exact I|]. apply reach_init.
Defined.

(** A state that no trajectory reaches, one angle away from the source and
    a counter of zero, does print the line. *)
Example backward_mask_prints :
  stdout (snd (get_mask_invalid_actions_backward
                 (Some [PyFloat 1; PyFloat 0; PyInt 0]) (Some false) (init_world 2 1 true)))
  = ["This point in the code should never be reached!"%string].
Proof. reflexivity. Qed.

Lemma replicate_snoc {A : Type} (n : nat) (x : A) : replicate n x ++ [x] = replicate (S n) x.
Proof. induction n as [|n IH]; [done|]. cbn. by rewrite IH. Qed.

(** X3: at the source state, as [reset] leaves it, the backward mask marks
    every action invalid, [eos] included: no angle differs from the source,
    the counter is zero, and the trajectory is not done. *)
Theorem backward_mask_at_source (w : world) :
  source (self_ w) = replicate (n_dim (self_ w)) 0%float ->
  get_mask_invalid_actions_backward None None (snd (reset w))
  = (Ok (replicate (S (n_dim (self_ w))) true), snd (reset w)).
Proof.
  intros Hs. unfold reset. run. cbn [fst snd].
  unfold get_mask_invalid_actions_backward. run.
  cbn [state with_done with_state with_n_actions self_ heap source n_actions done n_dim len_action_space].
  rewrite deref_insert. unfold len_action_space. cbn [n_dim].
  rewrite setitem_last_replicate. rewrite list_getitem_snoc.
  set (n := n_dim (self_ w)) in *. rewrite Hs.
  rewrite noninit_states_snoc.
  assert (Hf : filter (fun p : pyval * float => negb (py_eq_float p.1 p.2) = true)
                 (zip2 (map PyFloat (replicate n 0%float)) (replicate n 0%float)) = []).
  { clear. induction n as [|n IH]; [done|]. cbn [replicate map zip2].
    rewrite filter_cons_False; [exact IH|]. cbn. done. }
  rewrite Hf. cbn [map length Z.of_nat].
  change (int_gt_py 0 (PyInt 0)) with false.
  change (int_eq_py 0 (PyInt 0) && int_ge_py 0 (py_pred (PyInt 0))) with true.
  cbv iota. rewrite list_getitem_snoc. rewrite removelast_snoc.
  f_equal. f_equal. rewrite <- replicate_snoc. f_equal.
  cbn [n_dim with_done with_state with_n_actions]. fold n.
  clear. induction n as [|n IH]; [done|]. cbn [replicate map zip3 app].
  f_equal. exact IH.
Qed.

Lemma backward_mask_at_source_witness :
  get_mask_invalid_actions_backward None None (snd (reset (init_world 2 1 true)))
  = (Ok (replicate 3 true), snd (reset (init_world 2 1 true))).
Proof. exact (backward_mask_at_source (init_world 2 1 true) eq_refl). Defined.

(** ** Actions that name a dimension or [eos] *)

Lemma reset_sync_inv (n : nat) (lt : Z) (w : world) :
  0 <= lt -> n_dim (self_ w) = n -> length_traj (self_ w) = lt ->
  sync_inv n lt (snd (reset w)).
Proof.
  intros Hlt Hn Hl. unfold reset. run. cbn [fst snd].
  split; [done|]. split; [done|].
  exists (replicate n 0%float), 0.
  cbn [state with_done with_state with_n_actions self_ heap source n_actions done].
  rewrite Hn. split; [apply lookup_insert_eq|].
  split; [by rewrite length_replicate|]. split; [lia|]. split; done.
Qed.

(** A move on a dimension, in a world that satisfies the invariant. *)
Lemma step_move_sync (n : nat) (lt : Z) (w : world) (a : action) (xs : list float) (c : Z) :
  n_dim (self_ w) = n -> done (self_ w) = false ->
  n_actions (self_ w) <> length_traj (self_ w) ->
  heap w !! state (self_ w) = Some (map PyFloat xs ++ [PyInt c]) ->
  length xs = n -> acts_on_dimension n a ->
  exists x,
    xs !! Z.to_nat (fst a) = Some x
    /\ step a w =
       (Ok (state (self_ w), a, true),
        {| self_ := with_n_actions (n_actions (self_ w) + 1) (self_ w);
           heap := <[state (self_ w) :=
                       map PyFloat (<[Z.to_nat (fst a) := float_rem (x + snd a) two_pi]> xs)
                       ++ [PyInt (n_actions (self_ w) + 1)]]> (heap w);
           stdout := stdout w |}).
Proof.
  intros Hn Hd He Hst Hlen [Ha0 Ha1].
  destruct (lookup_lt_is_Some_2 xs (Z.to_nat (fst a)) ltac:(lia)) as [x Hx].
  exists x. split; [done|].
  assert (Hi : py_index (length (map PyFloat xs ++ [PyInt c])) (fst a) = Some (Z.to_nat (fst a))).
  { rewrite <- (Z2Nat.id (fst a)) at 1 by lia. apply py_index_nonneg.
    rewrite length_app, length_map. cbn. lia. }
  rewrite (step_move w a _ (Z.to_nat (fst a)) x Hd He ltac:(unfold eos; lia) Hst Hi).
  2:{ rewrite lookup_app_l by (rewrite length_map; lia).
      by rewrite list_lookup_fmap, Hx. }
  do 3 f_equal.
  replace (map PyFloat xs) with (PyFloat <$> xs) by done.
  rewrite move_result by (rewrite length_fmap; lia).
  rewrite decide_True by (rewrite length_fmap; lia).
  by rewrite list_fmap_insert.
Qed.

Lemma step_sync_inv (n : nat) (lt : Z) (w : world) (a : action) :
  dimension_or_eos n a -> sync_inv n lt w -> sync_inv n lt (snd (step a w)).
Proof.
  intros Ha (Hn & Hl & xs & c & Hst & Hlen & Hc & Hnd & Hd).
  destruct (done (self_ w)) eqn:Hdone.
  { rewrite step_done by done. cbn [snd].
    split; [done|]. split; [done|]. exists xs, c. rewrite Hdone. done. }
  specialize (Hnd eq_refl). clear Hd.
  destruct (Z.eq_dec (n_actions (self_ w)) (length_traj (self_ w))) as [He|He].
  { rewrite step_forced by done. cbn [snd].
    split; [done|]. split; [done|]. exists xs, c.
    cbn. repeat split; try done; lia. }
  destruct (Z.eq_dec (fst a) (eos (self_ w))) as [Hae|Hae].
  { rewrite step_eos by done. cbn [snd].
    split; [done|]. split; [done|]. exists xs, c. rewrite Hdone. done. }
  destruct (step_move_sync n lt w a xs c Hn Hdone He Hst Hlen) as (x & Hx & ->).
  { unfold dimension_or_eos, acts_on_dimension, eos in *. lia. }
  cbn [snd]. split; [done|]. split; [done|].
  eexists _, _. cbn [state with_n_actions self_ heap n_actions done].
  split; [apply lookup_insert_eq|].
  split; [by rewrite length_insert|]. rewrite Hdone. split; [lia|]. split; done.
Qed.

Lemma reachable_sync_inv (n : nat) (lt : Z) (b : bool) (w : world) :
  0 <= lt -> reachable_by (dimension_or_eos n) n lt b w -> sync_inv n lt w.
Proof.
  intros Hlt Hr. induction Hr as [|w Hr IH|w a Ha Hr IH].
  - unfold init_world. by apply reset_sync_inv.
  - destruct IH as (Hn & Hl & _). by apply reset_sync_inv.
  - by apply step_sync_inv.
Qed.

(** The forward mask of the object's own state and done flag. *)
Lemma forward_mask_default (w : world) (st : list pyval) (c : Z) :
  heap w !! state (self_ w) = Some (st ++ [PyInt c]) ->
  get_mask_invalid_actions_forward None None w =
    (Ok (if done (self_ w) then replicate (S (n_dim (self_ w))) true
         else if length_traj (self_ w) <=? c then only_eos_valid (n_dim (self_ w))
         else all_but_eos_valid (n_dim (self_ w))),
     w).
Proof.
  intros Hst. unfold get_mask_invalid_actions_forward. run.
  rewrite (deref_Some _ _ _ Hst).
  destruct (done (self_ w)); [done|]. rewrite list_getitem_snoc, py_ge_int_int.
  unfold len_action_space, only_eos_valid, all_but_eos_valid.
  destruct (length_traj (self_ w) <=? c); by rewrite setitem_last_replicate.
Qed.

Lemma getitem_replicate_snoc {A : Type} (n : nat) (x y : A) (d : Z) :
  0 <= d <= Z.of_nat n ->
  list_getitem (replicate n x ++ [y]) d = Ok (if d =? Z.of_nat n then y else x).
Proof.
  intros Hd. apply list_getitem_Some with (n := Z.to_nat d).
  - rewrite <- (Z2Nat.id d) at 1 by lia. apply py_index_nonneg.
    rewrite length_app, length_replicate. cbn. lia.
  - destruct (Z.eqb_spec d (Z.of_nat n)) as [->|Hne].
    + rewrite Nat2Z.id, lookup_app_r by (rewrite length_replicate; lia).
      by rewrite length_replicate, Nat.sub_diag.
    + rewrite lookup_app_l by (rewrite length_replicate; lia).
      apply lookup_replicate_2. lia.
Qed.

(** X20: [step] and the forward mask agree. In a world that the constructor
    and calls of [step] and [reset] reach with actions that name a dimension
    or [eos], a call of [step] with such an action returns [self.state], and
    it reports the action it returns as valid exactly when the forward mask
    of the object, computed before the call, has [False] at the index of that
    action. *)
Theorem step_agrees_with_forward_mask (n : nat) (lt : Z) (b : bool) (w : world) (a : action) :
  0 <= lt -> reachable_by (dimension_or_eos n) n lt b w -> dimension_or_eos n a ->
  exists (mask : list bool) (a' : action) (valid : bool) (w' : world),
    get_mask_invalid_actions_forward None None w = (Ok mask, w)
    /\ step a w = (Ok (state (self_ w), a', valid), w')
    /\ list_getitem mask (fst a') = Ok (negb valid).
Proof.
  intros Hlt Hr Ha.
  destruct (reachable_sync_inv n lt b w Hlt Hr) as (Hn & Hl & xs & c & Hst & Hlen & Hc & Hnd & Hd).
  rewrite (forward_mask_default w _ c Hst).
  destruct (done (self_ w)) eqn:Hdone.
  { exists (replicate (S n) true), a, false, w. rewrite Hn.
    split; [done|]. split; [by apply step_done|].
    change (replicate (S n) true) with (true :: replicate n true).
    replace (true :: replicate n true) with (replicate n true ++ [true])
      by (clear; induction n; cbn; congruence).
    rewrite getitem_replicate_snoc by (unfold dimension_or_eos in Ha; lia).
    by destruct (_ =? _). }
  specialize (Hnd eq_refl). clear Hd. rewrite Hn, Hl.
  destruct (Z.eq_dec (n_actions (self_ w)) (length_traj (self_ w))) as [He|He].
  { eexists _, _, _, _. split; [done|]. split; [by apply step_forced|].
    replace (lt <=? c) with true by (symmetry; apply Z.leb_le; lia).
    unfold only_eos_valid, eos. cbn [fst]. rewrite getitem_replicate_snoc by lia.
    by rewrite Hn, Z.eqb_refl. }
  replace (lt <=? c) with false by (symmetry; apply Z.leb_gt; lia).
  destruct (Z.eq_dec (fst a) (eos (self_ w))) as [Hae|Hae].
  { eexists _, _, _, _. split; [done|]. split; [by apply step_eos|].
    unfold all_but_eos_valid. rewrite getitem_replicate_snoc by (unfold dimension_or_eos in Ha; lia).
    unfold eos in Hae. rewrite Hn in Hae. rewrite Hae, Z.eqb_refl. done. }
  destruct (step_move_sync n lt w a xs c Hn Hdone He Hst Hlen) as (x & Hx & ->).
  { unfold dimension_or_eos, acts_on_dimension, eos in *. lia. }
  eexists _, _, _, _. split; [done|]. split; [done|].
  unfold all_but_eos_valid. rewrite getitem_replicate_snoc by (unfold dimension_or_eos in Ha; lia).
  unfold eos in Hae. rewrite Hn in Hae.
  by rewrite (proj2 (Z.eqb_neq _ _) Hae).
Qed.

Lemma step_agrees_with_forward_mask_witness :
  let w := snd (step (0, 1%float) (init_world 2 1 true)) in
  exists (mask : list bool) (a' : action) (valid : bool) (w' : world),
    get_mask_invalid_actions_forward None None w = (Ok mask, w)
    /\ step (1, 2%float) w = (Ok (state (self_ w), a', valid), w')
    /\ list_getitem mask (fst a') = Ok (negb valid).
Proof.
  apply (step_agrees_with_forward_mask 2 1 true); [lia| |evaluate].
  apply reach_step; [evaluate|]. apply reach_init.
Defined.

Lemma trajectory_app (l1 l2 : list action) (w : world) :
  trajectory (l1 ++ l2) w =
    match trajectory l1 w with
    | (Ok v1, w1) =>
        match trajectory l2 w1 with
        | (Ok v2, w2) => (Ok (v1 ++ v2), w2)
        | (Raise e, w2) => (Raise e, w2)
        end
    | (Raise e, w1) => (Raise e, w1)
    end.
Proof.
  revert w. induction l1 as [|a l1 IH]; intros w.
  - cbn [app trajectory]. unfold ret. cbv iota beta. destruct (trajectory l2 w) as [[v|e] w']; reflexivity.
  - cbn [app trajectory]. unfold bind at 1 3. destruct (step a w) as [[r|e] w1]; [|done].
    unfold bind. rewrite IH. destruct (trajectory l1 w1) as [[v1|e] w2]; [|done].
    unfold ret. cbv beta iota. destruct (trajectory l2 w2) as [[v2|e] w3]; done.
Qed.

Lemma trajectory_moves (n : nat) (lt : Z) (acts : list action) (w : world) :
  sync_inv n lt w -> done (self_ w) = false ->
  Forall (acts_on_dimension n) acts ->
  n_actions (self_ w) + Z.of_nat (length acts) <= lt ->
  exists w',
    trajectory acts w = (Ok (replicate (length acts) true), w')
    /\ sync_inv n lt w' /\ done (self_ w') = false
    /\ n_actions (self_ w') = n_actions (self_ w) + Z.of_nat (length acts)
    /\ state (self_ w') = state (self_ w).
Proof.
  intros Hinv Hd Hacts. revert w Hinv Hd.
  induction Hacts as [|a acts Ha Hacts IH]; intros w Hinv Hd Hlen.
  - exists w. split; [reflexivity|]. split; [done|]. split; [done|]. split; [cbn [length]; lia|done].
  - cbn [length] in Hlen.
    pose proof (step_sync_inv n lt w a ltac:(unfold dimension_or_eos, acts_on_dimension in *; lia) Hinv) as Hinv'.
    destruct Hinv as (Hn & Hl & xs & c & Hst & Hxs & Hc & Hnd & _).
    destruct (step_move_sync n lt w a xs c Hn Hd ltac:(lia) Hst Hxs Ha) as (x & Hx & Hstep).
    rewrite Hstep in Hinv'. cbn [snd] in Hinv'.
    destruct (IH _ Hinv' Hd ltac:(cbn; lia)) as (w' & Htr & Hinv'' & Hd' & Hn' & Hs').
    exists w'. cbn [trajectory]. unfold bind at 1. rewrite Hstep.
    unfold bind. rewrite Htr. unfold ret. cbn [snd length replicate].
    split; [done|]. split; [done|]. split; [done|].
    split; [rewrite Hn'; cbn; lia|by rewrite Hs'].
Qed.

Lemma trajectory_done (acts : list action) (w : world) :
  done (self_ w) = true ->
  trajectory acts w = (Ok (replicate (length acts) false), w).
Proof.
  intros Hd. induction acts as [|a acts IH]; [done|].
  cbn [trajectory]. unfold bind at 1. rewrite (step_done w a Hd).
  unfold bind. rewrite IH. done.
Qed.

(** X21: a trajectory holds exactly [length_traj] moves. From the state of
    the constructor, [length_traj] actions on dimensions are all reported
    valid; the next call, whatever its action, is the forced termination and
    is reported valid; every call after it is reported invalid. At the end
    the trajectory is done, the counter attribute is [length_traj + 1] and the
    counter of the state is [length_traj]. *)
Theorem trajectory_fixed_length (n : nat) (lt : Z) (b : bool)
    (acts : list action) (a : action) (rest : list action) :
  Forall (acts_on_dimension n) acts -> Z.of_nat (length acts) = lt ->
  exists w,
    trajectory (acts ++ a :: rest) (init_world n lt b)
    = (Ok (replicate (length acts) true ++ true :: replicate (length rest) false), w)
    /\ done (self_ w) = true
    /\ n_actions (self_ w) = lt + 1
    /\ list_getitem (state_list w) (-1) = Ok (PyInt lt).
Proof.
  intros Hacts Hlen.
  assert (Hinit : sync_inv n lt (init_world n lt b))
    by (unfold init_world; apply reset_sync_inv; [lia|done|done]).
  destruct (trajectory_moves n lt acts (init_world n lt b) Hinit eq_refl Hacts)
    as (w1 & Htr & Hinv & Hd & Hn & _); [cbn; lia|].
  cbn in Hn.
  destruct Hinv as (Hn1 & Hl1 & xs & c & Hst & Hxs & Hc & Hnd & _).
  specialize (Hnd Hd).
  set (w2 := {| self_ := with_n_actions (n_actions (self_ w1) + 1) (with_done true (self_ w1));
                heap := heap w1; stdout := stdout w1 |}).
  exists w2. rewrite trajectory_app, Htr.
  cbn [trajectory]. unfold bind at 1. rewrite (step_forced w1 a Hd ltac:(lia)).
  fold w2. unfold bind. rewrite (trajectory_done rest w2 eq_refl). unfold ret. cbn [snd].
  split; [done|]. split; [done|]. split; [cbn; lia|].
  unfold state_list. cbn. rewrite (deref_Some _ _ _ Hst), list_getitem_snoc.
  do 2 f_equal. lia.
Qed.

Lemma trajectory_fixed_length_witness :
  exists w,
    trajectory ([(0, 1%float); (1, 2%float)] ++ (0, 0.5%float) :: [(1, 1%float)])
      (init_world 2 2 true)
    = (Ok (replicate 2 true ++ true :: replicate 1 false), w)
    /\ done (self_ w) = true
    /\ n_actions (self_ w) = 2 + 1
    /\ list_getitem (state_list w) (-1) = Ok (PyInt 2).
Proof.
  apply (trajectory_fixed_length 2 2 true [(0, 1%float); (1, 2%float)] (0, 0.5%float)
           [(1, 1%float)]); [|reflexivity].
  repeat constructor; evaluate.
Defined.

(** ** The list that [step] returns *)

Lemma step_frame (w : world) (a : action) :
  state (self_ (snd (step a w))) = state (self_ w)
  /\ (forall r, fst (step a w) = Ok r -> fst (fst r) = state (self_ w))
  /\ (forall l, l <> state (self_ w) -> heap (snd (step a w)) !! l = heap w !! l)
  /\ stdout (snd (step a w)) = stdout w.
Proof.
  assert (Hret : forall (a' : action) (v : bool) (w' : world),
            state (self_ w') = state (self_ w) ->
            (forall l, l <> state (self_ w) -> heap w' !! l = heap w !! l) ->
            stdout w' = stdout w ->
            let rw := (Ok (state (self_ w), a', v), w') in
            state (self_ (snd rw)) = state (self_ w)
            /\ (forall r : loc * action * bool, fst rw = Ok r -> fst (fst r) = state (self_ w))
            /\ (forall l, l <> state (self_ w) -> heap (snd rw) !! l = heap w !! l)
            /\ stdout (snd rw) = stdout w).
  { intros a' v w' H1 H2 H3. cbn. split; [done|]. split; [by intros r [= <-]|]. done. }
  unfold step. run.
  destruct (done (self_ w)); [by apply Hret|].
  destruct (n_actions (self_ w) =? length_traj (self_ w)); [by apply Hret|].
  destruct (negb (fst a =? eos (self_ w))); [|by apply Hret].
  repeat (match goal with
          | |- context [match ?r with Ok _ => _ | Raise _ => _ end] =>
              destruct r; cbn [fst snd self_ heap stdout state with_n_actions]
          end);
    (split; [done|]; split; [intros r Hr; by simplify_eq|]; split; [|done];
     intros l Hl; by rewrite ?lookup_insert_ne).
Qed.

(** X14: [step] returns [self.state] itself and never rebinds it: after any
    call the attribute names the same list object, a call that returns
    returns that object, and no other list object of the store is changed.
    The lists returned along a trajectory are therefore one object, which
    later calls overwrite. *)
Theorem step_returns_own_state (w : world) (a : action) :
  state (self_ (snd (step a w))) = state (self_ w)
  /\ (forall r, fst (step a w) = Ok r -> fst (fst r) = state (self_ w))
  /\ (forall l, l <> state (self_ w) -> heap (snd (step a w)) !! l = heap w !! l).
Proof.
  destruct (step_frame w a) as (H1 & H2 & H3 & _). done.
Qed.

Lemma fresh_not_in (h : gmap loc (list pyval)) (l : loc) (v : list pyval) :
  h !! l = Some v -> fresh (dom h) <> l.
Proof.
  intros Hl Heq. apply (is_fresh (dom h)). rewrite Heq. apply elem_of_dom. by exists v.
Qed.

(** X8: [reset] makes a new state list: zeros and the counter [0], with the
    counter attribute [0] and the trajectory not done. The list objects that
    existed before, the previous state among them, keep their contents. *)
Theorem reset_allocates_new_state (w : world) (l : loc) (st : list pyval) :
  heap w !! l = Some st ->
  let w' := snd (reset w) in
  state (self_ w') <> l
  /\ heap w' !! l = Some st
  /\ state_list w' = map PyFloat (replicate (n_dim (self_ w)) 0%float) ++ [PyInt 0]
  /\ n_actions (self_ w') = 0
  /\ done (self_ w') = false.
Proof.
  intros Hl. cbv zeta. unfold reset, state_list. run. cbn [snd self_ heap state with_done with_state].
  pose proof (fresh_not_in _ _ _ Hl) as Hne.
  split; [done|]. split; [by rewrite lookup_insert_ne|].
  split; [by rewrite deref_insert|]. done.
Qed.

Lemma reset_allocates_new_state_witness :
  let w := snd (step (0, 1%float) (init_world 2 1 true)) in
  let w' := snd (reset w) in
  state (self_ w') <> 1%positive
  /\ heap w' !! 1%positive = Some [PyFloat 1; PyFloat 0; PyInt 1]
  /\ state_list w' = map PyFloat (replicate (n_dim (self_ w)) 0%float) ++ [PyInt 0]
  /\ n_actions (self_ w') = 0
  /\ done (self_ w') = false.
Proof.
  exact (reset_allocates_new_state (snd (step (0, 1%float) (init_world 2 1 true)))
           1%positive [PyFloat 1; PyFloat 0; PyInt 1] eq_refl).
Defined.

(** X5: [state2policy] without an argument returns a copy of the state: a
    new list object with the contents of [self.state], which a later call of
    [step] does not change. With an argument, [state2policy] returns the list
    given itself, and so does [policy2state]. *)
Theorem state2policy_copies (w : world) (st : list pyval) :
  heap w !! state (self_ w) = Some st ->
  let '(r, w1) := state2policy None w in
  exists l,
    r = Ok l
    /\ l <> state (self_ w)
    /\ self_ w1 = self_ w
    /\ heap w1 !! l = Some st
    /\ heap w1 !! state (self_ w) = Some st
    /\ (forall a, heap (snd (step a w1)) !! l = Some st)
    /\ (forall l' w', state2policy (Some l') w' = (Ok l', w')
                      /\ policy2state l' w' = (Ok l', w')).
Proof.
  intros Hst. unfold state2policy. run. rewrite (deref_Some _ _ _ Hst).
  pose proof (fresh_not_in _ _ _ Hst) as Hne.
  exists (fresh (dom (heap w))). split; [done|]. split; [done|]. split; [done|].
  split; [apply lookup_insert_eq|]. split; [by rewrite lookup_insert_ne|].
  split; [|done].
  intros a.
  destruct (step_frame {| self_ := self_ w; heap := <[fresh (dom (heap w)):=st]> (heap w);
                          stdout := stdout w |} a) as (_ & _ & H & _).
  rewrite H by done. apply lookup_insert_eq.
Qed.

Lemma state2policy_copies_witness :
  let w := init_world 2 1 true in
  let '(r, w1) := state2policy None w in
  exists l,
    r = Ok l
    /\ l <> state (self_ w)
    /\ self_ w1 = self_ w
    /\ heap w1 !! l = Some [PyFloat 0; PyFloat 0; PyInt 0]
    /\ heap w1 !! state (self_ w) = Some [PyFloat 0; PyFloat 0; PyInt 0]
    /\ (forall a, heap (snd (step a w1)) !! l = Some [PyFloat 0; PyFloat 0; PyInt 0])
    /\ (forall l' w', state2policy (Some l') w' = (Ok l', w')
                      /\ policy2state l' w' = (Ok l', w')).
Proof.
  exact (state2policy_copies (init_world 2 1 true) [PyFloat 0; PyFloat 0; PyInt 0] eq_refl).
Defined.

(** X9: [get_parents] without a state argument works on a copy of
    [self.state]: the parent returned is a new list object that holds the
    state with the increment subtracted modulo [2 * np.pi] and the counter
    decremented, and the state of the object keeps its contents. *)
Theorem get_parents_copies_own_state (w : world) (a : action)
    (st : list pyval) (i : nat) (x : float) (c : Z) :
  heap w !! state (self_ w) = Some st ->
  py_index (length st) (fst a) = Some i -> (S i < length st)%nat ->
  st !! i = Some (PyFloat x) ->
  st !! pred (length st) = Some (PyInt c) ->
  exists l' w',
    get_parents None (Some false) a w = (Ok ([l'], [a]), w')
    /\ l' <> state (self_ w)
    /\ self_ w' = self_ w
    /\ heap w' !! state (self_ w) = Some st
    /\ heap w' !! l' =
         Some (<[pred (length st) := PyInt (c - 1)]>
                 (<[i := PyFloat (float_rem (x - snd a) two_pi)]> st)).
Proof.
  intros Hst Hi Hlt Hx Hc.
  set (l' := fresh (dom (heap w))).
  set (w1 := {| self_ := self_ w; heap := <[l' := st]> (heap w); stdout := stdout w |}).
  assert (Hne : l' <> state (self_ w)) by (by apply fresh_not_in with (v := st)).
  assert (Heq : get_parents None (Some false) a w = get_parents (Some l') (Some false) a w1).
  { unfold get_parents. run. by rewrite (deref_Some _ _ _ Hst). }
  rewrite Heq.
  rewrite (get_parents_not_done w1 l' a st i x c (lookup_insert_eq _ _ _) Hi Hlt Hx Hc).
  eexists _, _. split; [reflexivity|]. split; [done|]. split; [done|]. cbn [heap w1].
  split; [by rewrite !lookup_insert_ne|apply lookup_insert_eq].
Qed.

Lemma get_parents_copies_own_state_witness :
  let w := snd (step (0, 1%float) (init_world 2 1 true)) in
  exists l' w',
    get_parents None (Some false) (0, 1%float) w = (Ok ([l'], [(0, 1%float)]), w')
    /\ l' <> state (self_ w)
    /\ self_ w' = self_ w
    /\ heap w' !! state (self_ w) = Some [PyFloat 1; PyFloat 0; PyInt 1]
    /\ heap w' !! l' =
         Some (<[2%nat := PyInt (1 - 1)]>
                 (<[0%nat := PyFloat (float_rem (1 - 1) two_pi)]>
                    [PyFloat 1; PyFloat 0; PyInt 1])).
Proof.
  exact (get_parents_copies_own_state (snd (step (0, 1%float) (init_world 2 1 true)))
           (0, 1%float) [PyFloat 1; PyFloat 0; PyInt 1] 0%nat 1%float 1
           eq_refl eq_refl (le_S 2 2 (le_n 2)) eq_refl eq_refl).
Defined.

(** ** Indices that [step] does not check *)

(** X15: [step] does not check the dimension of an action. In a trajectory
    that is running, an index beyond [eos] or below [-(eos + 1)] raises
    [IndexError], and by then the counter attribute has been incremented: the
    state list is as it was, the attribute is one more. *)
Theorem step_index_out_of_range (w : world) (a : action) (st : list pyval) :
  done (self_ w) = false -> n_actions (self_ w) <> length_traj (self_ w) ->
  heap w !! state (self_ w) = Some st ->
  length st = S (n_dim (self_ w)) ->
  fst a > eos (self_ w) \/ fst a < - (eos (self_ w) + 1) ->
  let '(r, w') := step a w in
  r = Raise IndexError
  /\ n_actions (self_ w') = n_actions (self_ w) + 1
  /\ done (self_ w') = false
  /\ state (self_ w') = state (self_ w)
  /\ heap w' = heap w.
Proof.
  intros Hd He Hst Hlen Ha.
  rewrite (step_move_cases w a st Hd He ltac:(unfold eos in *; lia) Hst). cbv zeta.
  assert (Hi : py_index (length st) (fst a) = None).
  { unfold py_index, eos in *. rewrite Hlen.
    destruct ((0 <=? fst a) && (fst a <? Z.of_nat (S (n_dim (self_ w))))) eqn:H1.
    { apply andb_prop in H1 as [H1 H2]. apply Z.leb_le in H1. apply Z.ltb_lt in H2. lia. }
    destruct ((- Z.of_nat (S (n_dim (self_ w))) <=? fst a) && (fst a <? 0)) eqn:H2; [|done].
    apply andb_prop in H2 as [H2 H3]. apply Z.leb_le in H2. apply Z.ltb_lt in H3. lia. }
  rewrite Hi. done.
Qed.

Lemma step_index_out_of_range_witness :
  let w := init_world 2 1 true in
  let '(r, w') := step (5, 1%float) w in
  r = Raise IndexError
  /\ n_actions (self_ w') = n_actions (self_ w) + 1
  /\ done (self_ w') = false
  /\ state (self_ w') = state (self_ w)
  /\ heap w' = heap w.
Proof.
  apply (step_index_out_of_range (init_world 2 1 true) (5, 1%float)
           [PyFloat 0; PyFloat 0; PyInt 0]);
    [reflexivity|evaluate|reflexivity|reflexivity|left; evaluate].
Defined.

(** X16: a negative index counts from the end of the state list, as Python
    indexes a list: the action [(d - (n_dim + 1), x)] is reported valid and
    leaves the world that the action [(d, x)] leaves. *)
Theorem step_negative_dimension (w : world) (a : action) (xs : list float) (c : Z) :
  done (self_ w) = false -> n_actions (self_ w) <> length_traj (self_ w) ->
  heap w !! state (self_ w) = Some (map PyFloat xs ++ [PyInt c]) ->
  length xs = n_dim (self_ w) ->
  - (eos (self_ w) + 1) <= fst a < -1 ->
  step a w =
    (Ok (state (self_ w), a, true), snd (step (fst a + eos (self_ w) + 1, snd a) w)).
Proof.
  intros Hd He Hst Hlen Ha. unfold eos in *.
  set (n := n_dim (self_ w)) in *.
  set (i := Z.to_nat (fst a + Z.of_nat n + 1)).
  assert (Hi : py_index (length (map PyFloat xs ++ [PyInt c])) (fst a) = Some i).
  { rewrite length_app, length_map, Hlen. cbn [length]. unfold py_index.
    replace (0 <=? fst a) with false by (symmetry; apply Z.leb_gt; lia). cbn [andb].
    replace (- Z.of_nat (n + 1) <=? fst a) with true by (symmetry; apply Z.leb_le; lia).
    replace (fst a <? 0) with true by (symmetry; apply Z.ltb_lt; lia). cbn [andb].
    f_equal. unfold i. lia. }
  destruct (lookup_lt_is_Some_2 xs i ltac:(unfold i; lia)) as [x Hx].
  assert (Hxi : (map PyFloat xs ++ [PyInt c]) !! i = Some (PyFloat x)).
  { rewrite lookup_app_l by (rewrite length_map; unfold i; lia).
    by rewrite list_lookup_fmap, Hx. }
  rewrite (step_move w a _ i x Hd He ltac:(unfold eos; fold n; lia) Hst Hi Hxi).
  destruct (step_move_sync n (length_traj (self_ w)) w (fst a + Z.of_nat n + 1, snd a) xs c
              eq_refl Hd He Hst Hlen) as (x' & Hx' & ->).
  { unfold acts_on_dimension. cbn [fst]. lia. }
  cbn [fst snd] in *. fold i in Hx'. rewrite Hx in Hx'. injection Hx' as <-.
  do 3 f_equal.
  replace (map PyFloat xs) with (PyFloat <$> xs) by done.
  rewrite move_result by (rewrite length_fmap; unfold i; lia).
  rewrite decide_True by (rewrite length_fmap; unfold i; lia).
  by rewrite list_fmap_insert.
Qed.

Lemma step_negative_dimension_witness :
  let w := init_world 2 1 true in
  step (-2, 1%float) w =
    (Ok (state (self_ w), (-2, 1%float), true), snd (step (-2 + eos (self_ w) + 1, 1%float) w)).
Proof.
  apply (step_negative_dimension (init_world 2 1 true) (-2, 1%float) [0%float; 0%float] 0);
    [reflexivity|evaluate|reflexivity|reflexivity|evaluate].
Defined.

(** X17: the index [-1] designates the counter of the state. The action
    [(-1, x)] is reported valid; it leaves every angle as it was, and the
    counter of the state and the counter attribute one more than the
    attribute was. *)
Theorem step_on_counter (w : world) (x : float) (xs : list pyval) (c : Z) (f : float) :
  done (self_ w) = false -> n_actions (self_ w) <> length_traj (self_ w) ->
  heap w !! state (self_ w) = Some (xs ++ [PyInt c]) ->
  float_of_int c = Some f ->
  step (-1, x) w =
    (Ok (state (self_ w), (-1, x), true),
     {| self_ := with_n_actions (n_actions (self_ w) + 1) (self_ w);
        heap := <[state (self_ w) := xs ++ [PyInt (n_actions (self_ w) + 1)]]> (heap w);
        stdout := stdout w |}).
Proof.
  intros Hd He Hst Hf.
  rewrite (step_move_cases w (-1, x) _ Hd He ltac:(unfold eos; cbn [fst]; lia) Hst). cbv zeta. cbn [fst snd].
  assert (Hi : py_index (length (xs ++ [PyInt c])) (-1) = Some (length xs)).
  { rewrite length_app. cbn [length]. replace (length xs + 1)%nat with (S (length xs)) by lia.
    apply py_index_last. }
  rewrite Hi, lookup_app_r by lia. rewrite Nat.sub_diag. cbn [lookup list_lookup py_float].
  rewrite Hf. cbn [of_option]. do 3 f_equal.
  rewrite move_result by lia. by rewrite decide_False by lia.
Qed.

Lemma step_on_counter_witness :
  let w := init_world 2 2 true in
  step (-1, 1%float) w =
    (Ok (state (self_ w), (-1, 1%float), true),
     {| self_ := with_n_actions (n_actions (self_ w) + 1) (self_ w);
        heap := <[state (self_ w) :=
                    [PyFloat 0; PyFloat 0] ++ [PyInt (n_actions (self_ w) + 1)]]> (heap w);
        stdout := stdout w |}).
Proof.
  apply (step_on_counter (init_world 2 2 true) 1%float [PyFloat 0; PyFloat 0] 0 0%float);
    [reflexivity|evaluate|reflexivity|reflexivity].
Defined.

(** ** Angles *)

(** The float [%] by [2 * np.pi] leaves a number of the half-open interval
    as it is. *)
Lemma float_rem_half_open (x : float) :
  in_half_open two_pi x = true -> (float_rem x two_pi =? x)%float = true.
Proof.
  unfold in_half_open.
  rewrite FloatAxioms.leb_spec, FloatAxioms.ltb_spec, Prim2SF_zero, Prim2SF_two_pi.
  intros H. apply andb_prop in H as [H0 H1].
  pose proof (Prim2SF_valid x) as Vx.
  pose proof (Prim2SF_valid two_pi) as Vw. rewrite Prim2SF_two_pi in Vw.
  unfold float_rem, fmod. rewrite Prim2SF_two_pi.
  rewrite FloatAxioms.eqb_spec.
  destruct (Prim2SF x) as [s|s| |s m e] eqn:Hx.
  - cbn [sf_fmod]. destruct s; reflexivity.
  - destruct s; discriminate.
  - discriminate.
  - destruct s; [discriminate|].
    unfold SFltb in H1. rewrite SFcompare_pos_valid in H1 by done.
    destruct (Z.compare_spec (sf_val m e) (sf_val 7074237752028440 (-50))) as [?|Hlt|?];
      try discriminate. clear H0 H1.
    pose proof (valid_finite _ _ _ Vx) as (He & Hd & _).
    cbn [sf_fmod]. set (ee := Z.min e (-50)).
    set (X := Zpos m * 2 ^ (e - ee)). set (Y := 7074237752028440 * 2 ^ (-50 - ee)).
    assert (Hp : 0 < 2 ^ (ee + 1074)) by (apply Z.pow_pos_nonneg; lia).
    assert (HXv : X * 2 ^ (ee + 1074) = sf_val m e).
    { unfold X, sf_val. rewrite <- Z.mul_assoc, <- Z.pow_add_r by lia. do 2 f_equal. lia. }
    assert (HYv : Y * 2 ^ (ee + 1074) = sf_val 7074237752028440 (-50)).
    { unfold Y, sf_val. rewrite <- Z.mul_assoc, <- Z.pow_add_r by lia. do 2 f_equal. lia. }
    assert (HX0 : 0 < X) by (apply Z.mul_pos_pos; [lia|apply Z.pow_pos_nonneg; lia]).
    assert (HXY : X < Y).
    { apply Z.mul_lt_mono_pos_r with (2 ^ (ee + 1074)); [done|]. rewrite HXv, HYv. done. }
    rewrite (Z.mod_small X Y) by lia.
    destruct X as [|r|r] eqn:HX; [lia| |lia].
    assert (Hdr : Zpos (digits2_pos r) <= 53).
    { apply digits2_pos_le; [lia|].
      destruct (Z_le_gt_dec e (-50)).
      - assert (Zpos r = Zpos m) as ->
          by (rewrite <- HX; unfold X; replace (e - ee) with 0 by lia; lia).
        destruct (digits2_pos_bounds m) as [_ Hhi].
        assert (2 ^ Zpos (digits2_pos m) <= 2 ^ 53) by (apply Z.pow_le_mono_r; lia). lia.
      - assert (Y = 7074237752028440) as HYw
          by (unfold Y; replace (-50 - ee) with 0 by lia; lia).
        assert (7074237752028440 < 2 ^ 53) by reflexivity. lia. }
    destruct (sf_exact_spec false r ee Hdr ltac:(lia)) as (m' & e' & -> & Vm & Hval).
    cbv zeta.
    set (md := SF2Prim (S754_finite false m' e')).
    assert (Hmd : Prim2SF md = S754_finite false m' e') by (apply Prim2SF_SF2Prim; done).
    assert (Hmd0 : (md =? 0)%float = false)
      by (rewrite FloatAxioms.eqb_spec, Hmd, Prim2SF_zero; reflexivity).
    assert (Hmdlt : (md <? 0)%float = false)
      by (rewrite FloatAxioms.ltb_spec, Hmd, Prim2SF_zero; reflexivity).
    rewrite Hmd0, Hmdlt. change (two_pi <? 0)%float with false. cbn [negb xorb].
    rewrite Hmd. unfold SFeqb. rewrite SFcompare_pos_valid by done.
    replace (sf_val m' e') with (sf_val m e); [by rewrite Z.compare_refl|].
    rewrite Hval. unfold sf_val at 2. rewrite <- HXv. done.
Qed.

(** X18: a move wraps only when it has to. When the sum of the angle and
    the increment, as binary64 computes it, lies in the half-open interval
    from [0] to [2 * np.pi], the angle after [step] is that sum. *)
Theorem step_without_wrap (w : world) (a : action) (st : list pyval) (i : nat) (x : float) :
  done (self_ w) = false -> n_actions (self_ w) <> length_traj (self_ w) ->
  fst a <> eos (self_ w) ->
  heap w !! state (self_ w) = Some st ->
  py_index (length st) (fst a) = Some i -> (S i < length st)%nat ->
  st !! i = Some (PyFloat x) ->
  in_half_open two_pi (x + snd a) = true ->
  exists y,
    state_list (snd (step a w)) !! i = Some (PyFloat y)
    /\ (y =? x + snd a)%float = true.
Proof.
  intros Hd He Ha Hst Hi Hlt Hx Hr.
  rewrite (step_move w a st i x Hd He Ha Hst Hi Hx). cbn [snd].
  unfold state_list. cbn [self_ heap state with_n_actions]. rewrite deref_insert.
  exists (float_rem (x + snd a) two_pi). split; [|by apply float_rem_half_open].
  rewrite list_lookup_insert_ne by lia. apply list_lookup_insert_eq. lia.
Qed.

Lemma step_without_wrap_witness :
  exists y,
    state_list (snd (step (0, 1%float) (init_world 2 1 true))) !! 0%nat = Some (PyFloat y)
    /\ (y =? 0 + 1)%float = true.
Proof.
  apply (step_without_wrap (init_world 2 1 true) (0, 1%float)
           [PyFloat 0; PyFloat 0; PyInt 0] 0%nat 0%float);
    [reflexivity|evaluate|evaluate|reflexivity|reflexivity|cbn; lia|reflexivity|reflexivity].
Defined.

Lemma sub_finite_in_closed (x a : float) :
  in_closed two_pi x = true -> is_finite a = true -> is_finite (x - a) = true.
Proof.
  intros Hx Ha. apply (in_closed_of_spec two_pi x _ _ Prim2SF_two_pi) in Hx.
  rewrite is_finite_spec in *. rewrite FloatAxioms.sub_spec. unfold SF64sub.
  pose proof (Prim2SF_valid x) as Vx. pose proof (Prim2SF_valid a) as Va.
  destruct (Prim2SF x) as [sx|sx| |sx mx ex]; [|done|done|].
  - destruct (Prim2SF a) as [sa|sa| |sa ma ea]; [|done|done|done].
    cbn. by destruct sx, sa.
  - destruct Hx as [-> Hx].
    destruct (Prim2SF a) as [sa|sa| |sa ma ea]; [done|done|done|].
    pose proof (SFadd_finite false (negb sa) mx ma ex ea Vx Va) as H.
    assert (Hsmall : sf_val mx ex < 2 ^ 2044).
    { eapply Z.le_lt_trans; [exact Hx|]. reflexivity. }
    specialize (H Hsmall).
    replace (SFsub prec emax (S754_finite false mx ex) (S754_finite sa ma ea))
      with (SFadd prec emax (S754_finite false mx ex) (S754_finite (negb sa) ma ea))
      by (unfold SFsub, SFadd; cbv zeta; f_equal; destruct sa; cbn [cond_Zopp negb]; lia).
    by destruct (SFadd prec emax (S754_finite false mx ex) (S754_finite (negb sa) ma ea)).
Qed.

(** X10: going backward keeps the angles in range. For a state whose angle
    under the action lies in the closed interval from [0] to [2 * np.pi] and
    an action with a finite increment, the angle of the parent that
    [get_parents] computes lies in that interval. *)
Theorem get_parents_angle_in_range (w : world) (l : loc) (a : action)
    (st : list pyval) (i : nat) (x : float) (c : Z) :
  heap w !! l = Some st ->
  py_index (length st) (fst a) = Some i -> (S i < length st)%nat ->
  st !! i = Some (PyFloat x) ->
  st !! pred (length st) = Some (PyInt c) ->
  in_closed two_pi x = true -> is_finite (snd a) = true ->
  exists y,
    deref (heap (snd (get_parents (Some l) (Some false) a w))) l !! i = Some (PyFloat y)
    /\ in_closed two_pi y = true.
Proof.
  intros Hst Hi Hlt Hx Hc Hr Ha.
  rewrite (get_parents_not_done w l a st i x c Hst Hi Hlt Hx Hc). cbn [snd heap].
  rewrite deref_insert. eexists. split.
  - rewrite list_lookup_insert_ne by lia. apply list_lookup_insert_eq. lia.
  - apply float_rem_two_pi_closed. by apply sub_finite_in_closed.
Qed.

Lemma get_parents_angle_in_range_witness :
  let w := snd (step (0, 1%float) (init_world 2 1 true)) in
  exists y,
    deref (heap (snd (get_parents (Some 1%positive) (Some false) (0, 2%float) w))) 1%positive
      !! 0%nat = Some (PyFloat y)
    /\ in_closed two_pi y = true.
Proof.
  apply (get_parents_angle_in_range (snd (step (0, 1%float) (init_world 2 1 true)))
           1%positive (0, 2%float) [PyFloat 1; PyFloat 0; PyInt 1] 0%nat 1%float 1);
    [reflexivity|reflexivity|cbn; lia|reflexivity|reflexivity|reflexivity|reflexivity].
Defined.

(** ** The action space and the fixed policy outputs *)

Lemma length_stride_aux {A : Type} (n skip : nat) (l : list A) :
  (0 < n)%nat ->
  length (stride_aux n skip l) =
    if (length l <=? skip)%nat then 0%nat else S ((length l - S skip) / n).
Proof.
  intros Hn. revert skip. induction l as [|x l IH]; intros skip; [done|].
  destruct skip as [|s]; cbn [stride_aux length].
  - rewrite IH. cbn [Nat.leb]. replace (S (length l) - 1)%nat with (length l) by lia. f_equal.
    replace (S (n - 1)) with n by lia.
    destruct (Nat.leb_spec (length l) (n - 1)).
    + symmetry. apply Nat.div_small. lia.
    + replace (length l) with ((length l - n) + 1 * n)%nat at 2 by lia.
      rewrite Nat.div_add by lia. lia.
  - rewrite IH. done.
Qed.

Lemma stride_aux_replicate {A : Type} (n skip m : nat) (v : A) :
  stride_aux n skip (replicate m v)
  = replicate (length (stride_aux n skip (replicate m v))) v.
Proof.
  symmetry. apply replicate_as_Forall. split; [done|].
  revert skip. induction m as [|m IH]; intros skip; [constructor|].
  cbn [replicate stride_aux]. destruct skip; [constructor; [done|]|]; apply IH.
Qed.

(** The number of places of the slice [k::n] in a row of [N * n + 1] places. *)
Lemma stride_count (N n k : nat) :
  (k < n)%nat ->
  (if (N * n + 1 <=? k)%nat then 0%nat else S ((N * n + 1 - S k) / n))
  = (if k is O then S N else N).
Proof.
  intros Hk. destruct k as [|k].
  - replace (N * n + 1 <=? 0)%nat with false by (symmetry; apply Nat.leb_gt; lia).
    replace (N * n + 1 - 1)%nat with (N * n)%nat by lia.
    rewrite Nat.div_mul by lia. done.
  - destruct N as [|N].
    + replace (0 * n + 1 <=? S k)%nat with true by (symmetry; apply Nat.leb_le; lia). done.
    + replace (S N * n + 1 <=? S k)%nat with false by (symmetry; apply Nat.leb_gt; lia).
      replace (S N * n + 1 - S (S k))%nat with ((n - S k) + N * n)%nat by lia.
      rewrite Nat.div_add by lia. rewrite Nat.div_small by lia. done.
Qed.

Lemma getitem_replicate {A : Type} (n : nat) (x : A) (d : Z) :
  0 <= d < Z.of_nat n -> list_getitem (replicate n x) d = Ok x.
Proof.
  intros Hd. apply list_getitem_Some with (n := Z.to_nat d).
  - rewrite <- (Z2Nat.id d) at 1 by lia. apply py_index_nonneg.
    rewrite length_replicate. lia.
  - apply lookup_replicate_2. lia.
Qed.

(** X2: the layout of the vector that [get_policy_output] builds, for the
    three or four parameters of a dimension that the constructor sets. It has
    [policy_output_dim] places. The logits [[0::n_params_per_dim]] are [1]
    for the dimensions and [eos]; the locations [[1::n_params_per_dim]] are
    the mean given and the log-concentrations [[2::n_params_per_dim]] the
    concentration given, one for each dimension; any further parameter is
    [1]. The parameters that [sample_actions] and [get_logprobs] read from
    it for a dimension are the mean, and the exponential of the
    concentration plus the epsilon. *)
Theorem get_policy_output_layout (self : HybridTorus) (params : distribution)
    (torch_exp : float -> float) :
  (3 <= n_params_per_dim self)%nat ->
  exists po,
    get_policy_output self params = Ok po
    /\ length po = policy_output_dim self
    /\ stride 0 (n_params_per_dim self) po = replicate (S (n_dim self)) 1%float
    /\ stride 1 (n_params_per_dim self) po = replicate (n_dim self) (vonmises_mean params)
    /\ stride 2 (n_params_per_dim self) po
       = replicate (n_dim self) (vonmises_concentration params)
    /\ (forall k, (3 <= k < n_params_per_dim self)%nat ->
          stride k (n_params_per_dim self) po = replicate (n_dim self) 1%float)
    /\ (forall d, 0 <= d < eos self ->
          vonmises_params self torch_exp po d
          = Ok (vonmises_mean params,
                (torch_exp (vonmises_concentration params)
                 + vonmises_concentration_epsilon)%float)).
Proof.
  intros Hnpd. unfold get_policy_output, policy_output_dim.
  set (npd := n_params_per_dim self) in *. set (N := n_dim self).
  replace (npd =? 0)%nat with false by (symmetry; apply Nat.eqb_neq; lia).
  cbv zeta. eexists. split; [reflexivity|].
  set (base := replicate (N * npd + 1) 1%float).
  set (l1 := fill_stride 1 npd base (vonmises_mean params)).
  set (po := fill_stride 2 npd l1 (vonmises_concentration params)).
  assert (Hbase : length base = (N * npd + 1)%nat) by apply length_replicate.
  assert (Hl1 : length l1 = (N * npd + 1)%nat)
    by (unfold l1, fill_stride, set_stride; by rewrite length_set_stride_aux).
  assert (Hcount : forall (l : list float) k, length l = (N * npd + 1)%nat -> (k < npd)%nat ->
            length (stride k npd l) = if k is O then S N else N).
  { intros l k Hl Hk. unfold stride. rewrite length_stride_aux by lia.
    rewrite Hl. by apply stride_count. }
  assert (Hones : forall k, (k < npd)%nat -> k <> 1%nat -> k <> 2%nat ->
            stride k npd po = replicate (if k is O then S N else N) 1%float).
  { intros k Hk H1 H2. unfold po, l1, fill_stride, set_stride, stride.
    rewrite !stride_set_stride_ne by lia.
    unfold base. rewrite stride_aux_replicate. f_equal.
    apply (Hcount base k Hbase Hk). }
  assert (H1 : stride 1 npd po = replicate N (vonmises_mean params)).
  { unfold po, fill_stride, set_stride, stride.
    rewrite stride_set_stride_ne by lia.
    unfold l1, fill_stride, set_stride, stride.
    rewrite stride_set_stride by (by rewrite length_replicate).
    f_equal. apply (Hcount base 1%nat Hbase). lia. }
  assert (H2 : stride 2 npd po = replicate N (vonmises_concentration params)).
  { unfold po, fill_stride, set_stride, stride.
    rewrite stride_set_stride by (by rewrite length_replicate).
    f_equal. apply (Hcount l1 2%nat Hl1). lia. }
  split; [unfold po, fill_stride, set_stride; by rewrite length_set_stride_aux|].
  split; [apply (Hones 0%nat); lia|].
  split; [exact H1|]. split; [exact H2|].
  split; [intros k Hk; rewrite (Hones k) by lia; destruct k; [lia|done]|].
  intros d Hd. unfold vonmises_params. fold npd. rewrite H1, H2. unfold eos in Hd. fold N in Hd.
  rewrite !getitem_replicate by lia. reflexivity.
Qed.

Lemma get_policy_output_layout_witness :
  let self := self_ (init_world 2 1 true) in
  let params := {| vonmises_mean := 0.5; vonmises_concentration := 2 |} in
  exists po,
    get_policy_output self params = Ok po
    /\ length po = policy_output_dim self
    /\ stride 0 (n_params_per_dim self) po = replicate (S (n_dim self)) 1%float
    /\ stride 1 (n_params_per_dim self) po = replicate (n_dim self) (vonmises_mean params)
    /\ stride 2 (n_params_per_dim self) po
       = replicate (n_dim self) (vonmises_concentration params)
    /\ (forall k, (3 <= k < n_params_per_dim self)%nat ->
          stride k (n_params_per_dim self) po = replicate (n_dim self) 1%float)
    /\ (forall d, 0 <= d < eos self ->
          vonmises_params self (fun x => x) po d
          = Ok (vonmises_mean params,
                (vonmises_concentration params + vonmises_concentration_epsilon)%float)).
Proof.
  exact (get_policy_output_layout (self_ (init_world 2 1 true))
           {| vonmises_mean := 0.5; vonmises_concentration := 2 |} (fun x => x)
           (le_S 3 3 (le_n 3))).
Defined.

Example get_policy_output_example :
  get_policy_output (self_ (init_world 2 1 true))
    {| vonmises_mean := 0.5; vonmises_concentration := 2 |}
  = Ok [1; 0.5; 2; 1; 1; 0.5; 2; 1; 1]%float
  /\ get_actions_space (self_ (init_world 2 1 true))
     = [(0, None); (1, None); (2, Some 0%float)].
Proof. split; reflexivity. Qed.

Lemma forward_mask_length (w : world) (st : list pyval) (d : bool) :
  st <> [] ->
  exists mask,
    get_mask_invalid_actions_forward (Some st) (Some d) w = (Ok mask, w)
    /\ length mask = S (n_dim (self_ w)).
Proof.
  intros Hst. unfold get_mask_invalid_actions_forward. run.
  destruct d; [eexists; split; [done|apply length_replicate]|].
  destruct (list_getitem_last st Hst) as [c ->]. unfold len_action_space.
  destruct (py_ge_int c (length_traj (self_ w))); rewrite setitem_last_replicate;
    (eexists; split; [done|]); rewrite length_app, length_replicate; cbn; lia.
Qed.

Lemma backward_mask_length (w : world) (angles : list pyval) (c : pyval) (d : bool) :
  length angles = n_dim (self_ w) -> length (source (self_ w)) = n_dim (self_ w) ->
  exists mask,
    fst (get_mask_invalid_actions_backward (Some (angles ++ [c])) (Some d) w) = Ok mask
    /\ length mask = S (n_dim (self_ w)).
Proof.
  intros Hlen Hsrc. unfold get_mask_invalid_actions_backward. run.
  set (n := n_dim (self_ w)) in *.
  set (mask0 := if d then _ else _).
  assert (Hm : exists m, mask0 = Ok (replicate n m ++ [negb m])).
  { unfold mask0, len_action_space. fold n. destruct d; [exists true|exists false];
      by rewrite setitem_last_replicate. }
  destruct Hm as [m ->]. rewrite list_getitem_snoc.
  assert (Hl0 : length (replicate n m ++ [negb m]) = S n)
    by (rewrite length_app, length_replicate; cbn; lia).
  destruct (int_gt_py _ c); [by eexists|].
  destruct (_ && _); [|by eexists].
  rewrite list_getitem_snoc. cbn [fst]. eexists. split; [done|].
  rewrite length_app, length_map, zip3_length, removelast_snoc, Hl0, Hlen, Hsrc.
  cbn [length]. lia.
Qed.

(** X1: the masks and the action space line up. For a state of [n_dim]
    components and a counter, both masks have one entry for each entry of
    [get_actions_space]; the last entry of the action space is [(eos, 0.0)],
    and the entry at the index [i] of a dimension is [(i, None)]. *)
Theorem masks_match_action_space (w : world) (angles : list pyval) (c : pyval) (d : bool) :
  length angles = n_dim (self_ w) -> length (source (self_ w)) = n_dim (self_ w) ->
  exists forward backward,
    fst (get_mask_invalid_actions_forward (Some (angles ++ [c])) (Some d) w) = Ok forward
    /\ fst (get_mask_invalid_actions_backward (Some (angles ++ [c])) (Some d) w) = Ok backward
    /\ length forward = length (get_actions_space (self_ w))
    /\ length backward = length (get_actions_space (self_ w))
    /\ list_getitem (get_actions_space (self_ w)) (-1) = Ok (eos (self_ w), Some 0%float)
    /\ forall i, 0 <= i < eos (self_ w) ->
         list_getitem (get_actions_space (self_ w)) i = Ok (i, None).
Proof.
  intros Hlen Hsrc.
  destruct (forward_mask_length w (angles ++ [c]) d) as (fm & Hfm & Hfl);
    [by destruct angles|].
  destruct (backward_mask_length w angles c d Hlen Hsrc) as (bm & Hbm & Hbl).
  exists fm, bm. rewrite Hfm. split; [done|]. split; [done|].
  assert (Hal : length (get_actions_space (self_ w)) = S (n_dim (self_ w))).
  { unfold get_actions_space. rewrite length_app, length_map, length_seq. cbn. lia. }
  rewrite Hal. split; [done|]. split; [done|].
  unfold get_actions_space. split; [apply list_getitem_snoc|].
  intros i Hi. unfold eos in Hi. apply list_getitem_Some with (n := Z.to_nat i).
  - rewrite <- (Z2Nat.id i) at 1 by lia. apply py_index_nonneg.
    rewrite length_app, length_map, length_seq. cbn. lia.
  - rewrite lookup_app_l by (rewrite length_map, length_seq; lia).
    rewrite list_lookup_fmap, lookup_seq_lt by lia. cbn. by rewrite Z2Nat.id by lia.
Qed.

Lemma masks_match_action_space_witness :
  let w := init_world 2 1 true in
  exists forward backward,
    fst (get_mask_invalid_actions_forward (Some ([PyFloat 1; PyFloat 0] ++ [PyInt 1]))
           (Some false) w) = Ok forward
    /\ fst (get_mask_invalid_actions_backward (Some ([PyFloat 1; PyFloat 0] ++ [PyInt 1]))
              (Some false) w) = Ok backward
    /\ length forward = length (get_actions_space (self_ w))
    /\ length backward = length (get_actions_space (self_ w))
    /\ list_getitem (get_actions_space (self_ w)) (-1) = Ok (eos (self_ w), Some 0%float)
    /\ forall i, 0 <= i < eos (self_ w) ->
         list_getitem (get_actions_space (self_ w)) i = Ok (i, None).
Proof.
  exact (masks_match_action_space (init_world 2 1 true) [PyFloat 1; PyFloat 0] (PyInt 1) false
           eq_refl eq_refl).
Defined.

(** ** Sampling *)

Section Sampling.

Variable self : HybridTorus.
Variable logsoftmax : list float -> list float.
Variable torch_exp : float -> float.
Variable vonmises_log_prob : float -> float -> float -> option float.
Variable uniform_log_prob : float -> option float.
Variable categorical_draw : nat -> list float -> option Z.
Variable vonmises_draw : nat -> float -> float -> option float.
Variable uniform_draw : nat -> float.

Let sample_actions' :=
  sample_actions self logsoftmax torch_exp vonmises_log_prob uniform_log_prob
    categorical_draw vonmises_draw uniform_draw.

(** X11: with the sampling method "uniform" the logits are a tensor of
    [policy_output_dim] columns, not of one column for each action. For a
    batch that is not empty, at least one dimension and two or more parameters
    for each, a mask of [n_dim + 1] columns does not have the shape of the
    logits, and [sample_actions] raises [IndexError]. *)
Theorem sample_actions_uniform_mask_raises
    (policy_outputs : list (list float)) (mask : list (list bool))
    (temperature_logits loginf : float) :
  (1 <= n_dim self)%nat -> (2 <= n_params_per_dim self)%nat ->
  policy_outputs <> [] ->
  Forall (fun m => length m = S (n_dim self)) mask ->
  sample_actions' policy_outputs uniform (Some mask) temperature_logits loginf
  = Raise IndexError.
Proof.
  intros Hn Hnpd Hpo Hmask. unfold sample_actions', sample_actions.
  cbn [result_bind].
  unfold apply_mask. rewrite length_replicate.
  destruct (Nat.eqb_spec (length mask) (length policy_outputs)) as [Hlen|]; [|done].
  destruct policy_outputs as [|row rows]; [done|].
  destruct mask as [|m ms]; [done|].
  inversion Hmask as [|? ? Hm _]; subst.
  cbn [length replicate zip_with sequence]. unfold mask_row at 1.
  rewrite Hm, length_replicate. unfold policy_output_dim.
  replace (S (n_dim self) =? n_dim self * n_params_per_dim self + 1)%nat with false; [done|].
  symmetry. apply Nat.eqb_neq. nia.
Qed.

(** X13: when [sample_actions] returns, with either sampling method, it
    returns one action and one log-probability for each row of the batch, the
    tensor of policy outputs keeps its number of rows, and every action
    [eos] has the increment [0.0]. *)
Theorem sample_actions_shape
    (policy_outputs : list (list float)) (method : sampling_method)
    (mask : option (list (list bool))) (temperature_logits loginf : float)
    (actions : list action) (logprobs : list float) (policy_outputs' : list (list float)) :
  sample_actions' policy_outputs method mask temperature_logits loginf
  = Ok (actions, logprobs, policy_outputs') ->
  length actions = length policy_outputs
  /\ length logprobs = length policy_outputs
  /\ length policy_outputs' = length policy_outputs
  /\ Forall (fun a : action => fst a = eos self -> snd a = 0%float) actions.
Proof.
  intros Hs.
  apply sample_actions_rows in Hs as (L & sampled & HL & Hpo' & Hrows & -> & -> & _).
  apply apply_mask_length in HL.
  assert (HLlen : length L = length policy_outputs).
  { rewrite HL. destruct method; [by rewrite length_replicate|by rewrite length_map]. }
  assert (Hlenpo : length policy_outputs' = length policy_outputs).
  { rewrite Hpo'. destruct method; [done|]. rewrite length_zip_with. lia. }
  pose proof (rows_length _ _ _ Hrows) as Hlen.
  rewrite length_imap, zip2_length, Hlenpo, HLlen, Nat.min_id in Hlen.
  rewrite !length_map. split; [done|]. split; [done|]. split; [done|].
  apply Forall_fmap. apply rows_Ok in Hrows.
  clear -Hrows. induction Hrows as [|r [a lp] l sampled Hr _ IH]; constructor; [|exact IH].
  cbn [fst]. exact (sample_row_eos _ _ _ _ _ _ _ _ _ _ _ _ Hr).
Qed.

(** X12: [sample_actions] with the method "policy" writes into the tensor
    of policy outputs that it was given. After the call every row has its
    length; the logit columns [[0::n_params_per_dim]] hold the logits divided
    by the temperature, with [-loginf] where the mask is set; the columns of
    the other parameters are as they were. *)
Theorem sample_actions_writes_logits
    (policy_outputs : list (list float)) (mask : option (list (list bool)))
    (temperature_logits loginf : float)
    (actions : list action) (logprobs : list float) (policy_outputs' : list (list float)) :
  sample_actions' policy_outputs policy mask temperature_logits loginf
  = Ok (actions, logprobs, policy_outputs') ->
  Forall2 (fun row row' => length row' = length row) policy_outputs policy_outputs'
  /\ apply_mask (- loginf)%float mask
       (map (fun row => map (fun x => (x / temperature_logits)%float)
                            (stride 0 (n_params_per_dim self) row)) policy_outputs)
     = Ok (map (stride 0 (n_params_per_dim self)) policy_outputs')
  /\ forall k, (0 < k < n_params_per_dim self)%nat ->
       map (stride k (n_params_per_dim self)) policy_outputs'
       = map (stride k (n_params_per_dim self)) policy_outputs.
Proof.
  intros Hs.
  apply sample_actions_rows in Hs as (L & sampled & HL & -> & _).
  set (npd := n_params_per_dim self) in *.
  pose proof (apply_mask_Ok _ _ _ _ HL) as [HF _].
  apply Forall2_fmap_l in HF.
  assert (HF' : Forall2 (fun r l => length l = length (stride 0 npd r)) policy_outputs L).
  { eapply Forall2_impl; [exact HF|]. intros r l Hl. cbn in Hl.
    by rewrite length_map in Hl. }
  destruct (view_of_masked npd policy_outputs L HF') as (Hview & _ & Hlen & Hrest).
  rewrite Hview. done.
Qed.

End Sampling.

Lemma sample_actions_uniform_mask_raises_witness :
  sample_actions (self_ (init_world 2 1 true))
    (map (fun x => (x - 100)%float))
    (fun x => x) (fun loc k x : float => Some (loc + k * x)%float) (fun _ => Some 0%float)
    (fun i _ => Some (if Nat.eqb i 0 then 0 else 2))
    (fun _ loc _ => Some (loc + 0.5)%float) (fun _ => 0%float)
    [[1; 2; 3; 4; 5; 6; 7; 8; 9]]%float uniform (Some [[false; false; true]]) 1 1000
  = Raise IndexError.
Proof.
  apply (sample_actions_uniform_mask_raises (self_ (init_world 2 1 true)));
    [cbn; lia|cbn; lia|discriminate|repeat constructor].
Defined.

Lemma sample_actions_shape_witness :
  let po := [[1; 2; 3; 4; 5; 6; 7; 8; 9]; [11; 12; 13; 14; 15; 16; 17; 18; 19]]%float in
  let actions := [(0, 2.5%float); (2, 0%float)] in
  let logprobs :=
    [(0.5 - 100 + (2 + (3 + vonmises_concentration_epsilon) * 2.5))%float;
     (9.5 - 100 + 0)%float] in
  let po' := [[0.5; 2; 3; 4; 2.5; 6; 7; 8; -1000]; [-1000; 12; 13; 14; -1000; 16; 17; 18; 9.5]]%float in
  length actions = length po
  /\ length logprobs = length po
  /\ length po' = length po
  /\ Forall (fun a : action => fst a = eos (self_ (init_world 2 1 true)) -> snd a = 0%float)
       actions.
Proof.
  cbv zeta.
  apply (sample_actions_shape (self_ (init_world 2 1 true))
           (map (fun x => (x - 100)%float)) (fun x => x)
           (fun loc k x : float => Some (loc + k * x)%float) (fun _ => Some 0%float)
           (fun i _ => Some (if Nat.eqb i 0 then 0 else 2))
           (fun _ loc _ => Some (loc + 0.5)%float) (fun _ => 0%float)
           [[1; 2; 3; 4; 5; 6; 7; 8; 9]; [11; 12; 13; 14; 15; 16; 17; 18; 19]]%float
           policy (Some [[false; false; true]; [true; true; false]]) 2 1000).
  vm_compute. reflexivity.
Defined.

Lemma sample_actions_writes_logits_witness :
  let self := self_ (init_world 2 1 true) in
  let po := [[1; 2; 3; 4; 5; 6; 7; 8; 9]; [11; 12; 13; 14; 15; 16; 17; 18; 19]]%float in
  let po' := [[0.5; 2; 3; 4; 2.5; 6; 7; 8; -1000]; [-1000; 12; 13; 14; -1000; 16; 17; 18; 9.5]]%float in
  Forall2 (fun row row' : list float => length row' = length row) po po'
  /\ apply_mask (- 1000)%float (Some [[false; false; true]; [true; true; false]])
       (map (fun row => map (fun x => (x / 2)%float)
                            (stride 0 (n_params_per_dim self) row)) po)
     = Ok (map (stride 0 (n_params_per_dim self)) po')
  /\ forall k, (0 < k < n_params_per_dim self)%nat ->
       map (stride k (n_params_per_dim self)) po'
       = map (stride k (n_params_per_dim self)) po.
Proof.
  cbv zeta.
  apply (sample_actions_writes_logits (self_ (init_world 2 1 true))
           (map (fun x => (x - 100)%float)) (fun x => x)
           (fun loc k x : float => Some (loc + k * x)%float) (fun _ => Some 0%float)
           (fun i _ => Some (if Nat.eqb i 0 then 0 else 2))
           (fun _ loc _ => Some (loc + 0.5)%float) (fun _ => 0%float)
           [[1; 2; 3; 4; 5; 6; 7; 8; 9]; [11; 12; 13; 14; 15; 16; 17; 18; 19]]%float
           (Some [[false; false; true]; [true; true; false]]) 2 1000
           [(0, 2.5%float); (2, 0%float)]
           [(0.5 - 100 + (2 + (3 + vonmises_concentration_epsilon) * 2.5))%float;
            (9.5 - 100 + 0)%float]).
  vm_compute. reflexivity.
Defined.

(** ** Scoring *)

Section Scoring.

Variable self : HybridTorus.
Variable logsoftmax : list float -> list float.
Variable torch_exp : float -> float.
Variable vonmises_log_prob : float -> float -> float -> option float.
Variable bernoulli_log_prob : float -> float -> option float.

Let get_logprobs' :=
  get_logprobs self logsoftmax torch_exp vonmises_log_prob bernoulli_log_prob.

(** X26: [get_logprobs] can be repeated. When a call returns, a second call
    on the tensor that the first one left, with the same arguments, returns
    the same log-probabilities and leaves the tensor as it is. The first
    call writes [-loginf] into the logit columns where the mask is set and
    nothing else: every row keeps its length and the columns of the other
    parameters are as they were. *)
Theorem get_logprobs_repeatable
    (batch : list (list float * action * list float)) (is_forward : bool)
    (mask : option (list (list bool))) (loginf : float)
    (logprobs : list float) (policy_outputs' : list (list float)) :
  get_logprobs' batch is_forward mask loginf = Ok (logprobs, policy_outputs') ->
  get_logprobs' (with_policy_outputs policy_outputs' batch) is_forward mask loginf
  = Ok (logprobs, policy_outputs')
  /\ Forall2 (fun row row' => length row' = length row)
       (policy_outputs_of batch) policy_outputs'
  /\ apply_mask (- loginf)%float mask
       (map (stride 0 (n_params_per_dim self)) (policy_outputs_of batch))
     = Ok (map (stride 0 (n_params_per_dim self)) policy_outputs')
  /\ forall k, (0 < k < n_params_per_dim self)%nat ->
       map (stride k (n_params_per_dim self)) policy_outputs'
       = map (stride k (n_params_per_dim self)) (policy_outputs_of batch).
Proof.
  intros Hs. set (policy_outputs := policy_outputs_of batch).
  apply get_logprobs_rows in Hs as (Hne & Hnpd & L & HL & Hpo' & Hrows).
  fold policy_outputs in HL, Hpo'. set (npd := n_params_per_dim self) in *.
  pose proof (apply_mask_Ok _ _ _ _ HL) as [HF Hidem].
  apply Forall2_fmap_l in HF.
  destruct (view_of_masked npd policy_outputs L HF) as (Hview & Hsame & Hlen & Hrest).
  rewrite <- Hpo' in Hview, Hsame, Hlen, Hrest.
  assert (Hlenb : length policy_outputs' = length batch).
  { apply Forall2_length in Hlen. unfold policy_outputs, policy_outputs_of in Hlen.
    rewrite length_map in Hlen. lia. }
  destruct (with_policy_outputs_spec policy_outputs' batch Hlenb) as [Hfst Htargets].
  split; [|split; [done|split; [by rewrite Hview|done]]].
  apply get_logprobs_rows. split.
  { intros Hb. apply (f_equal length) in Hb. unfold with_policy_outputs in Hb.
    rewrite length_zip_with in Hb. destruct batch; [done|cbn in *; lia]. }
  split; [done|]. exists L. fold npd. unfold policy_outputs_of at 1 2.
  rewrite Hfst, Htargets, Hview, Hsame.
  done.
Qed.

End Scoring.

Lemma get_logprobs_repeatable_witness :
  let self := self_ (init_world 2 1 true) in
  let get_logprobs' :=
    get_logprobs self (map (fun x => (x - 100)%float)) (fun x => x)
      (fun loc k x : float => Some (loc + k * x)%float)
      (fun l v : float => Some (l * v)%float) in
  let po := [[1; 2; 3; 4; 5; 6; 7; 8; 9]; [11; 12; 13; 14; 15; 16; 17; 18; 19]]%float in
  let po' := [[1; 2; 3; 4; 5; 6; 7; 8; -1000]; [-1000; 12; 13; 14; -1000; 16; 17; 18; 19]]%float in
  let batch := batch_of po [(0, 2.5%float); (2, 0%float)] [[0; 0; 0]; [1; 0; 1]]%float in
  let mask := Some [[false; false; true]; [true; true; false]] in
  get_logprobs' (with_policy_outputs po' batch) false mask 1000%float
  = Ok ([(1 - 100 + 0 + 0)%float; (19 - 100 + 0 + 0)%float], po')
  /\ Forall2 (fun row row' : list float => length row' = length row)
       (policy_outputs_of batch) po'
  /\ apply_mask (- 1000)%float mask
       (map (stride 0 (n_params_per_dim self)) (policy_outputs_of batch))
     = Ok (map (stride 0 (n_params_per_dim self)) po')
  /\ forall k, (0 < k < n_params_per_dim self)%nat ->
       map (stride k (n_params_per_dim self)) po'
       = map (stride k (n_params_per_dim self)) (policy_outputs_of batch).
Proof.
  cbv zeta.
  apply (get_logprobs_repeatable (self_ (init_world 2 1 true))
           (map (fun x => (x - 100)%float)) (fun x => x)
           (fun loc k x : float => Some (loc + k * x)%float)
           (fun l v : float => Some (l * v)%float)
           (batch_of [[1; 2; 3; 4; 5; 6; 7; 8; 9]; [11; 12; 13; 14; 15; 16; 17; 18; 19]]%float
              [(0, 2.5%float); (2, 0%float)] [[0; 0; 0]; [1; 0; 1]]%float)
           false (Some [[false; false; true]; [true; true; false]]) 1000).
  vm_compute. reflexivity.
Defined.

(** ** The readable form: when the round trip works *)

Lemma digits_uint_acc (d : Decimal.uint) (p : positive) :
  PyStr.digits (Zpos p) true (list_ascii_of_string (NilEmpty.string_of_uint d))
  = Some (Zpos (Pos.of_uint_acc d p)).
Proof.
  revert p. induction d; intros p;
    cbn [NilEmpty.string_of_uint list_ascii_of_string PyStr.digits Pos.of_uint_acc];
    [done|..];
    match goal with
    | |- context [PyStr.digit_of ?c] =>
        let v := eval vm_compute in (PyStr.digit_of c) in change (PyStr.digit_of c) with v
    end; cbv iota; rewrite <- IHd; f_equal; lia.
Qed.

Lemma digits_uint (d : Decimal.uint) (seen : bool) :
  d <> Decimal.Nil \/ seen = true ->
  PyStr.digits 0 seen (list_ascii_of_string (NilEmpty.string_of_uint d))
  = Some (Z.of_uint d).
Proof.
  revert seen. induction d; intros seen Hd;
    cbn [NilEmpty.string_of_uint list_ascii_of_string PyStr.digits].
  - destruct Hd as [?|Hs]; [done|by rewrite Hs].
  - change (PyStr.digit_of "0") with (Some 0). cbv iota. change (10 * 0 + 0) with 0.
    rewrite IHd by (by right). reflexivity.
  - exact (digits_uint_acc d 1).
  - exact (digits_uint_acc d 2).
  - exact (digits_uint_acc d 3).
  - exact (digits_uint_acc d 4).
  - exact (digits_uint_acc d 5).
  - exact (digits_uint_acc d 6).
  - exact (digits_uint_acc d 7).
  - exact (digits_uint_acc d 8).
  - exact (digits_uint_acc d 9).
Qed.

Lemma uint_chars (d : Decimal.uint) :
  Forall is_digit (list_ascii_of_string (NilEmpty.string_of_uint d)).
Proof. induction d; cbn; constructor; try done. Qed.

Lemma nilzero_chars (d : Decimal.uint) :
  exists c l, list_ascii_of_string (NilZero.string_of_uint d) = c :: l
              /\ Forall is_digit (c :: l)
              /\ PyStr.digits 0 false (c :: l) = Some (Z.of_uint d).
Proof.
  assert (Hnil : d = Decimal.Nil \/ d <> Decimal.Nil) by (destruct d; [left|right..]; done).
  destruct Hnil as [->|Hd].
  - exists "0"%char, []. split; [done|]. split; [by repeat constructor|done].
  - assert (NilZero.string_of_uint d = NilEmpty.string_of_uint d) as -> by (by destruct d).
    pose proof (uint_chars d) as Hc. pose proof (digits_uint d false (or_introl Hd)) as Hv.
    destruct (list_ascii_of_string (NilEmpty.string_of_uint d)) as [|c l] eqn:Hl.
    + by destruct d.
    + by exists c, l.
Qed.

Lemma is_digit_cases (c : ascii) :
  is_digit c ->
  PyStr.mem c (String (ascii_of_nat 32) (String (ascii_of_nat 9) (String (ascii_of_nat 10)
            (String (ascii_of_nat 11) (String (ascii_of_nat 12)
            (String (ascii_of_nat 13) EmptyString)))))) = false
  /\ Ascii.eqb c "-" = false /\ Ascii.eqb c "+" = false /\ c <> "|"%char.
Proof.
  unfold is_digit.
  destruct c as [[] [] [] [] [] [] [] []]; vm_compute; intros H;
    try (exfalso; apply H; reflexivity); repeat split; discriminate.
Qed.

Lemma lstrip_list_id (chars : string) (l : list ascii) :
  match l with c :: _ => PyStr.mem c chars = false | [] => True end ->
  PyStr.lstrip_list chars l = l.
Proof. destruct l as [|c l]; [done|]. cbn. by intros ->. Qed.

Lemma strip_id (chars : string) (s : string) :
  Forall (fun c => PyStr.mem c chars = false) (list_ascii_of_string s) ->
  PyStr.strip chars s = s.
Proof.
  intros H. unfold PyStr.strip.
  rewrite (lstrip_list_id chars (list_ascii_of_string s)) by (by destruct H).
  rewrite lstrip_list_id.
  - by rewrite rev_involutive, string_of_list_ascii_of_string.
  - apply Forall_rev in H. by destruct H.
Qed.

Lemma int_of_str_string_of_int (i : Decimal.signed_int) :
  PyStr.int_of_str (NilZero.string_of_int i) = Some (Z.of_int i).
Proof.
  unfold PyStr.int_of_str.
  destruct i as [d|d]; cbn [NilZero.string_of_int Z.of_int];
    destruct (nilzero_chars d) as (c & l & Hl & Hd & Hv).
  - rewrite strip_id.
    2:{ rewrite Hl. eapply Forall_impl; [exact Hd|]. intros x Hx. by apply is_digit_cases. }
    rewrite Hl. inversion Hd as [|? ? Hc _]; subst.
    destruct (is_digit_cases c Hc) as (_ & -> & -> & _). exact Hv.
  - rewrite strip_id.
    2:{ cbn [list_ascii_of_string]. rewrite Hl. constructor; [reflexivity|].
        eapply Forall_impl; [exact Hd|]. intros x Hx. by apply is_digit_cases. }
    cbn [list_ascii_of_string]. change (Ascii.eqb "-" "-") with true. cbv iota.
    rewrite Hl, Hv. reflexivity.
Qed.

(** [int(str(n))] is [n]. *)
Lemma int_of_str_of_int (z : Z) : PyStr.int_of_str (PyStr.str_of_int z) = Some z.
Proof. unfold PyStr.str_of_int. by rewrite int_of_str_string_of_int, DecimalZ.of_to. Qed.

Lemma str_of_int_no_bar (z : Z) :
  Forall (fun c => c <> "|"%char) (list_ascii_of_string (PyStr.str_of_int z)).
Proof.
  unfold PyStr.str_of_int. destruct (Z.to_int z) as [d|d]; cbn [NilZero.string_of_int];
    destruct (nilzero_chars d) as (c & l & Hl & Hd & _).
  - rewrite Hl. eapply Forall_impl; [exact Hd|]. intros x Hx. by apply is_digit_cases.
  - cbn [list_ascii_of_string]. rewrite Hl. constructor; [done|].
    eapply Forall_impl; [exact Hd|]. intros x Hx. by apply is_digit_cases.
Qed.

Lemma string_app_assoc (a b c : string) : ((a ++ b) ++ c = a ++ (b ++ c))%string.
Proof.
  induction a as [|x a IH]; [done|].
  change (String x ((a ++ b) ++ c) = String x (a ++ (b ++ c)))%string. by rewrite IH.
Qed.

Lemma string_app_nil_r (s : string) : (s ++ "")%string = s.
Proof.
  induction s as [|c s IH]; [done|].
  change (String c (s ++ "") = String c s)%string. by rewrite IH.
Qed.

Lemma list_ascii_app (a b : string) :
  list_ascii_of_string (a ++ b) = list_ascii_of_string a ++ list_ascii_of_string b.
Proof.
  induction a as [|c a IH]; [done|].
  change (list_ascii_of_string (String c (a ++ b)) = c :: (list_ascii_of_string a ++ list_ascii_of_string b)).
  cbn [list_ascii_of_string]. by rewrite IH.
Qed.

Lemma string_of_list_app (l : list ascii) (s : string) :
  string_of_list_ascii (l ++ list_ascii_of_string s) = (string_of_list_ascii l ++ s)%string.
Proof.
  induction l as [|c l IH]; [apply string_of_list_ascii_of_string|].
  cbn [app string_of_list_ascii]. rewrite IH. reflexivity.
Qed.

Lemma split_aux_cons (sep : string) (skip : nat) (cur : list ascii) (c : ascii) (s : string) :
  PyStr.split_aux sep skip cur (String c s) =
    match skip with
    | S k => PyStr.split_aux sep k cur s
    | O =>
        if String.prefix sep (String c s) then
          string_of_list_ascii (rev cur)
            :: PyStr.split_aux sep (String.length sep - 1) [] s
        else PyStr.split_aux sep 0 (c :: cur) s
    end.
Proof. reflexivity. Qed.

(** No separator [" | "] starts at a character that no bar follows. *)
Lemma prefix_bar_false (c : ascii) (s : string) :
  match s with String c' _ => c' <> "|"%char | EmptyString => True end ->
  String.prefix " | " (String c s) = false.
Proof.
  intros H. cbn [String.prefix]. destruct (ascii_dec " " c); [|done].
  destruct s as [|c' s]; [done|].
  cbn [String.prefix]. destruct (ascii_dec "|" c') as [E|]; [|done]. by subst.
Qed.

Lemma split_bar_none (s : string) (cur : list ascii) :
  Forall (fun c => c <> "|"%char) (list_ascii_of_string s) ->
  PyStr.split_aux " | " 0 cur s = [(string_of_list_ascii (rev cur) ++ s)%string].
Proof.
  revert cur. induction s as [|c s IH]; intros cur H.
  - cbn [PyStr.split_aux]. by rewrite string_app_nil_r.
  - cbn [list_ascii_of_string] in H. inversion H as [|? ? Hc Hs]; subst.
    rewrite split_aux_cons, prefix_bar_false
      by (clear IH; destruct s; [done|]; by inversion Hs).
    rewrite IH by done. f_equal. cbn [rev].
    rewrite <- !string_of_list_app. cbn [list_ascii_of_string]. by rewrite <- app_assoc.
Qed.

Lemma split_bar_first (a b : string) (cur : list ascii) :
  Forall (fun c => c <> "|"%char) (list_ascii_of_string a) ->
  PyStr.split_aux " | " 0 cur (a ++ " | " ++ b)
  = (string_of_list_ascii (rev cur) ++ a)%string :: PyStr.split_aux " | " 0 [] b.
Proof.
  revert cur. induction a as [|c a IH]; intros cur H.
  - change (("" ++ " | " ++ b)%string) with (String " " (String "|" (String " " b))).
    rewrite split_aux_cons.
    assert (Hp : String.prefix " | " (String " " (String "|" (String " " b))) = true).
    { cbn [String.prefix]. destruct (ascii_dec " " " "); [|done].
      destruct (ascii_dec "|" "|"); [|done]. by destruct b. }
    rewrite Hp. change (String.length " | " - 1)%nat with 2%nat.
    rewrite !split_aux_cons. by rewrite string_app_nil_r.
  - cbn [list_ascii_of_string] in H. inversion H as [|? ? Hc Ha]; subst.
    change ((String c a ++ " | " ++ b)%string) with (String c (a ++ " | " ++ b)).
    rewrite split_aux_cons, prefix_bar_false.
    2:{ clear IH. destruct a as [|c' a]; [done|]. by inversion Ha. }
    rewrite IH by done. f_equal. cbn [rev].
    rewrite <- !string_of_list_app. cbn [list_ascii_of_string]. by rewrite <- app_assoc.
Qed.

Lemma split_bar_pair (a b : string) :
  Forall (fun c => c <> "|"%char) (list_ascii_of_string a) ->
  Forall (fun c => c <> "|"%char) (list_ascii_of_string b) ->
  PyStr.split " | " (a ++ " | " ++ b) = [a; b].
Proof.
  intros Ha Hb. unfold PyStr.split. rewrite split_bar_first by done.
  by rewrite split_bar_none.
Qed.

Lemma split_space_none (s : string) (cur : list ascii) :
  Forall (fun c => c <> " "%char) (list_ascii_of_string s) ->
  PyStr.split_aux " " 0 cur s = [(string_of_list_ascii (rev cur) ++ s)%string].
Proof.
  revert cur. induction s as [|c s IH]; intros cur H.
  - cbn [PyStr.split_aux]. by rewrite string_app_nil_r.
  - cbn [list_ascii_of_string] in H. inversion H as [|? ? Hc Hs]; subst.
    rewrite split_aux_cons. cbn [String.prefix].
    destruct (ascii_dec " " c) as [E|]; [by subst|].
    rewrite IH by done. f_equal. cbn [rev].
    rewrite <- !string_of_list_app. cbn [list_ascii_of_string]. by rewrite <- app_assoc.
Qed.

Lemma split_space_first (a b : string) (cur : list ascii) :
  Forall (fun c => c <> " "%char) (list_ascii_of_string a) ->
  PyStr.split_aux " " 0 cur (a ++ " " ++ b)
  = (string_of_list_ascii (rev cur) ++ a)%string :: PyStr.split_aux " " 0 [] b.
Proof.
  revert cur. induction a as [|c a IH]; intros cur H.
  - change (("" ++ " " ++ b)%string) with (String " " b).
    rewrite split_aux_cons.
    assert (Hp : String.prefix " " (String " " b) = true).
    { cbn [String.prefix]. destruct (ascii_dec " " " "); [|done]. by destruct b. }
    rewrite Hp. change (String.length " " - 1)%nat with 0%nat.
    by rewrite string_app_nil_r.
  - cbn [list_ascii_of_string] in H. inversion H as [|? ? Hc Ha]; subst.
    change ((String c a ++ " " ++ b)%string) with (String c (a ++ " " ++ b)).
    rewrite split_aux_cons. cbn [String.prefix].
    destruct (ascii_dec " " c) as [E|]; [by subst|].
    rewrite IH by done. f_equal. cbn [rev].
    rewrite <- !string_of_list_app. cbn [list_ascii_of_string]. by rewrite <- app_assoc.
Qed.

Lemma split_space_concat (pieces : list string) :
  pieces <> [] ->
  Forall (fun p => Forall (fun c => c <> " "%char) (list_ascii_of_string p)) pieces ->
  PyStr.split " " (String.concat " " pieces) = pieces.
Proof.
  intros Hne H. unfold PyStr.split.
  induction H as [|p ps Hp Hps IH]; [done|]. clear Hne.
  destruct ps as [|q ps].
  - cbn [String.concat]. by rewrite split_space_none.
  - change (String.concat " " (p :: q :: ps)) with (p ++ " " ++ String.concat " " (q :: ps))%string.
    rewrite split_space_first by done. cbn [rev string_of_list_ascii String.append].
    f_equal. by apply IH.
Qed.

Lemma replace_absent (old : ascii) (new s : string) :
  Forall (fun c => c <> old) (list_ascii_of_string s) ->
  PyStr.replace old new s = s.
Proof.
  induction s as [|c s IH]; intros H; [done|].
  cbn [list_ascii_of_string] in H. inversion H as [|? ? Hc Hs]; subst.
  cbn [PyStr.replace]. rewrite (proj2 (Ascii.eqb_neq c old) Hc). by rewrite IH.
Qed.

Lemma plain_char (c : ascii) :
  PyStr.mem c " []|()," = false ->
  c <> " "%char /\ c <> "["%char /\ c <> "]"%char /\ c <> "|"%char
  /\ c <> "("%char /\ c <> ")"%char /\ c <> ","%char /\ PyStr.mem c "[]" = false.
Proof.
  unfold PyStr.mem. cbn [list_ascii_of_string existsb].
  intros H. repeat (apply orb_false_elim in H as [?%Ascii.eqb_neq H]).
  repeat split; try done. cbn. 
  rewrite (proj2 (Ascii.eqb_neq c "[")), (proj2 (Ascii.eqb_neq c "]")) by done. done.
Qed.

(** The characters of the pieces joined by single spaces. *)
Lemma concat_chars (P : ascii -> Prop) (pieces : list string) :
  P " "%char ->
  Forall (fun p => Forall P (list_ascii_of_string p)) pieces ->
  Forall P (list_ascii_of_string (String.concat " " pieces)).
Proof.
  intros Hsp H. induction H as [|p ps Hp Hps IH]; [constructor|].
  destruct ps as [|q ps]; [done|].
  change (String.concat " " (p :: q :: ps)) with (p ++ " " ++ String.concat " " (q :: ps))%string.
  rewrite !list_ascii_app. apply Forall_app. split; [done|].
  apply Forall_app. split; [by repeat constructor|done].
Qed.

Lemma strip_brackets (s : string) :
  Forall (fun c => PyStr.mem c "[]" = false) (list_ascii_of_string s) ->
  PyStr.strip "[]" ("[" ++ s ++ "]") = s.
Proof.
  intros H. unfold PyStr.strip.
  change (list_ascii_of_string ("[" ++ s ++ "]"))
    with ("["%char :: list_ascii_of_string (s ++ "]")).
  rewrite list_ascii_app. cbn [list_ascii_of_string].
  change (PyStr.lstrip_list "[]" ("["%char :: list_ascii_of_string s ++ ["]"%char]))
    with (PyStr.lstrip_list "[]" (list_ascii_of_string s ++ ["]"%char])).
  destruct (list_ascii_of_string s) as [|c l] eqn:Hl.
  - cbn. destruct s; [done|discriminate].
  - rewrite (lstrip_list_id "[]" ((c :: l) ++ ["]"%char])) by (by inversion H).
    rewrite rev_app_distr.
    change (PyStr.lstrip_list "[]" (rev ["]"%char] ++ rev (c :: l)))
      with (PyStr.lstrip_list "[]" (rev (c :: l))).
    rewrite lstrip_list_id.
    + by rewrite rev_involutive, <- Hl, string_of_list_ascii_of_string.
    + apply Forall_rev in H. by destruct H.
Qed.

Lemma sequence_map_Ok {A B : Type} (f : A -> result B) (l : list A) (r : list B) :
  Forall2 (fun x y => f x = Ok y) l r -> sequence (map f l) = Ok r.
Proof.
  intros H. apply sequence_Ok. induction H; cbn [map]; by constructor.
Qed.

Section RoundTrip.

Variable np_array_str : list float -> string.
Variable np_float32 : string -> option float.

(** X6: the round trip of the readable form works when numpy separates the
    angles by single spaces. For a state of float angles whose array numpy
    prints as the pieces joined by single spaces between brackets (at least
    one piece; no piece holds a space, a bracket, a parenthesis, a comma or a
    bar), [state2readable] writes these pieces, [" | "] and the counter, and
    [readable2state] reads that string back as the angles that
    [np.float32] reads from the pieces, converted to radians, and the
    counter, which is exact. *)
Theorem readable_roundtrip (xs : list float) (c : pyval) (n : Z)
    (pieces : list string) (ys : list float) :
  np_array_str (map (fun a => (a * 180 / np_pi)%float) xs)
    = ("[" ++ String.concat " " pieces ++ "]")%string ->
  pieces <> [] -> Forall plain pieces ->
  Forall2 (fun p y => np_float32 p = Some y) pieces ys ->
  py_int c = Ok n ->
  exists readable,
    state2readable np_array_str (map PyFloat xs ++ [c]) = Ok readable
    /\ readable = ("[" ++ String.concat " " pieces ++ "] | " ++ PyStr.str_of_int n)%string
    /\ readable2state np_float32 readable
       = Ok (map (fun y => PyFloat (y * np_pi / 180)) ys ++ [PyInt n]).
Proof.
  intros Hstr Hne Hplain Hys Hn.
  set (body := String.concat " " pieces) in *.
  assert (Hbody : Forall (fun ch => PyStr.mem ch " []|()," = false \/ ch = " "%char)
                    (list_ascii_of_string body)).
  { apply concat_chars; [by right|].
    eapply Forall_impl; [exact Hplain|]. intros p Hp.
    eapply Forall_impl; [exact Hp|]. by left. }
  assert (Hb : forall ch, PyStr.mem ch " []|()," = false \/ ch = " "%char ->
            ch <> "["%char /\ ch <> "]"%char /\ ch <> "|"%char
            /\ ch <> "("%char /\ ch <> ")"%char /\ ch <> ","%char /\ PyStr.mem ch "[]" = false).
  { intros ch [H| ->]; [apply plain_char in H; tauto|repeat split; done]. }
  set (A := ("[" ++ body ++ "]")%string) in *.
  assert (HA : forall old, old = "("%char \/ old = ")"%char \/ old = ","%char \/ old = "|"%char ->
            Forall (fun ch => ch <> old) (list_ascii_of_string A)).
  { intros old Hold. unfold A.
    change (list_ascii_of_string ("[" ++ body ++ "]"))
      with ("["%char :: list_ascii_of_string (body ++ "]")).
    rewrite list_ascii_app. constructor; [by destruct Hold as [->|[->|[->| ->]]]|].
    apply Forall_app. split.
    - eapply Forall_impl; [exact Hbody|]. intros ch Hch. apply Hb in Hch.
      destruct Hold as [->|[->|[->| ->]]]; tauto.
    - constructor; [by destruct Hold as [->|[->|[->| ->]]]|constructor]. }
  exists (A ++ " | " ++ PyStr.str_of_int n)%string. split; [|split].
  - unfold state2readable. rewrite removelast_snoc.
    rewrite (sequence_map_Ok py_float (map PyFloat xs) xs).
    2:{ clear. induction xs; cbn; by constructor. }
    rewrite Hstr. fold A.
    rewrite (replace_absent "(") by (apply HA; tauto).
    rewrite (replace_absent ")") by (apply HA; tauto).
    rewrite (replace_absent ",") by (apply HA; tauto).
    by rewrite list_getitem_snoc, Hn.
  - unfold A. by rewrite !string_app_assoc.
  - unfold readable2state.
    rewrite split_bar_pair; [|apply HA; tauto|apply str_of_int_no_bar].
    change (list_getitem [A; PyStr.str_of_int n] 0) with (Ok (A : string)).
    change (list_getitem [A; PyStr.str_of_int n] 1) with (Ok (PyStr.str_of_int n)).
    unfold A. rewrite strip_brackets.
    2:{ eapply Forall_impl; [exact Hbody|]. intros ch Hch. apply Hb in Hch. tauto. }
    unfold body. rewrite split_space_concat; [|done|].
    2:{ eapply Forall_impl; [exact Hplain|]. intros p Hp.
        eapply Forall_impl; [exact Hp|]. intros ch Hch. apply plain_char in Hch. tauto. }
    rewrite (sequence_map_Ok _ pieces (map (fun y => PyFloat (y * np_pi / 180)) ys)).
    2:{ clear -Hys. induction Hys as [|p y ps ys Hp _ IH]; cbn [map]; constructor; [|done].
        by rewrite Hp. }
    by rewrite int_of_str_of_int.
Qed.

(** X7: a string without a bar holds no separator [" | "]:
    [readable2state] does not return on it. It raises [ValueError] when
    [np.float32] rejects a piece, and [IndexError] at [pair[1]] otherwise. *)
Theorem readable2state_without_separator (readable : string) :
  Forall (fun c => c <> "|"%char) (list_ascii_of_string readable) ->
  readable2state np_float32 readable = Raise ValueError
  \/ readable2state np_float32 readable = Raise IndexError.
Proof.
  intros H. unfold readable2state.
  assert (Hsplit : PyStr.split " | " readable = [readable])
    by (unfold PyStr.split; by rewrite split_bar_none).
  rewrite Hsplit.
  change (list_getitem [readable] 0) with (Ok readable).
  change (list_getitem [readable] 1) with (@Raise string IndexError).
  cbv beta iota.
  match goal with
  | |- context [@sequence ?T ?l] => destruct (@sequence T l) as [angles|e] eqn:Hs
  end; [by right|].
  left. f_equal.
  revert Hs. generalize (PyStr.split " " (PyStr.strip "[]" readable)).
  intros l. induction l as [|p l IH]; [done|]. cbn [map sequence].
  destruct (np_float32 p); [|by intros [= <-]].
  match goal with
  | |- context [@sequence ?T ?l] => destruct (@sequence T l)
  end; [done|]. intros [= <-]. by apply IH.
Qed.

End RoundTrip.

Lemma readable_roundtrip_witness :
  exists readable,
    state2readable np_array_str_zeros (map PyFloat [0%float; 0%float] ++ [PyInt 0])
      = Ok readable
    /\ readable
       = ("[" ++ String.concat " " ["0."; "0."] ++ "] | " ++ PyStr.str_of_int 0)%string
    /\ readable2state np_float32_sample readable
       = Ok (map (fun y => PyFloat (y * np_pi / 180)) [0%float; 0%float] ++ [PyInt 0]).
Proof.
  apply (readable_roundtrip np_array_str_zeros np_float32_sample [0%float; 0%float]
           (PyInt 0) 0 ["0."%string; "0."%string] [0%float; 0%float]);
    [reflexivity|discriminate|repeat constructor|repeat constructor|reflexivity].
Defined.

Lemma readable2state_without_separator_witness :
  readable2state np_float32_sample "[0. 0.]" = Raise ValueError
  \/ readable2state np_float32_sample "[0. 0.]" = Raise IndexError.
Proof.
  apply (readable2state_without_separator np_float32_sample "[0. 0.]").
  repeat constructor; discriminate.
Defined.

(** ** The utilities *)

Lemma lower_ascii_letter (c : ascii) :
  (PyStr.lower_ascii c = "c"%char <-> letter "c" "C" c)
  /\ (PyStr.lower_ascii c = "u"%char <-> letter "u" "U" c)
  /\ (PyStr.lower_ascii c = "d"%char <-> letter "d" "D" c)
  /\ (PyStr.lower_ascii c = "a"%char <-> letter "a" "A" c).
Proof.
  unfold letter.
  destruct c as [[] [] [] [] [] [] [] []]; vm_compute;
    repeat split; intros H; try discriminate H; try tauto;
    destruct H as [H|H]; discriminate H.
Qed.

(** X22: [set_device] never raises. It returns the cuda device exactly when
    cuda is available and the name given is one of the spellings of "cuda"
    in lower and upper case letters, and the cpu device for every other
    name, "cuda:0" included. *)
Theorem set_device_cuda (dev : string) (cuda_is_available : bool) :
  (Common.set_device dev cuda_is_available = Ok Common.cuda
   \/ Common.set_device dev cuda_is_available = Ok Common.cpu)
  /\ (Common.set_device dev cuda_is_available = Ok Common.cuda <->
      cuda_is_available = true
      /\ exists c u d a,
           dev = String c (String u (String d (String a EmptyString)))
           /\ letter "c" "C" c /\ letter "u" "U" u
           /\ letter "d" "D" d /\ letter "a" "A" a).
Proof.
  unfold Common.set_device.
  assert (Hl : PyStr.lower dev = "cuda"%string <->
               exists c u d a,
                 dev = String c (String u (String d (String a EmptyString)))
                 /\ letter "c" "C" c /\ letter "u" "U" u
                 /\ letter "d" "D" d /\ letter "a" "A" a).
  { split.
    - destruct dev as [|c [|u [|d [|a [|x dev]]]]]; cbn [PyStr.lower]; try discriminate.
      intros [= Hc Hu Hd Ha]. exists c, u, d, a. split; [done|].
      split; [by apply (lower_ascii_letter c)|]. split; [by apply (lower_ascii_letter u)|].
      split; [by apply (lower_ascii_letter d)|by apply (lower_ascii_letter a)].
    - intros (c & u & d & a & -> & Hc & Hu & Hd & Ha). cbn [PyStr.lower].
      apply (lower_ascii_letter c) in Hc. apply (lower_ascii_letter u) in Hu.
      apply (lower_ascii_letter d) in Hd. apply (lower_ascii_letter a) in Ha.
      by rewrite Hc, Hu, Hd, Ha. }
  destruct (String.eqb_spec (PyStr.lower dev) "cuda") as [He|Hne].
  - destruct cuda_is_available; cbn [andb].
    + split; [by left|]. split; [intros _; split; [done|by apply Hl]|done].
    + split; [by right|]. split; [done|]. by intros [? _].
  - cbn [andb]. split; [by right|]. split; [done|]. intros [_ H]. by apply Hl in H.
Qed.

Example set_device_examples :
  Common.set_device "CuDa" true = Ok Common.cuda
  /\ Common.set_device "cuda" false = Ok Common.cpu
  /\ Common.set_device "cuda:0" true = Ok Common.cpu.
Proof. repeat split. Qed.

Lemma config_nested_ind (P : Common.config -> Prop) :
  (forall v, P (Common.Value v)) ->
  (forall items, Forall (fun kv => P (snd kv)) items -> P (Common.Mapping items)) ->
  forall c, P c.
Proof.
  intros HV HM. fix IH 1. intros [v|items]; [apply HV|]. apply HM.
  induction items as [|[k c] items IHi]; constructor; [apply IH|apply IHi].
Qed.

Lemma dict_set_keys (d : list (string * string)) (k v : string) :
  map fst (Common.dict_set d k v)
  = if decide (k ∈ map fst d) then map fst d else map fst d ++ [k].
Proof.
  induction d as [|[k' v'] d IH]; [done|].
  cbn [Common.dict_set map fst]. destruct (String.eqb_spec k' k) as [->|Hne].
  - rewrite decide_True by left. done.
  - cbn [map fst]. rewrite IH. destruct (decide (k ∈ map fst d)) as [Hin|Hnin].
    + rewrite decide_True by (by right). done.
    + rewrite decide_False; [done|]. intros [?|?]%elem_of_cons; done.
Qed.

Lemma dict_set_fresh (d : list (string * string)) (k v : string) :
  k ∉ map fst d -> Common.dict_set d k v = d ++ [(k, v)].
Proof.
  induction d as [|[k' v'] d IH]; intros Hk; [done|].
  cbn [Common.dict_set]. cbn [map fst] in Hk. apply not_elem_of_cons in Hk as [Hne Hk].
  destruct (String.eqb_spec k' k) as [->|_]; [done|]. cbn. by rewrite IH.
Qed.

Lemma fold_dict_set_keys (items acc : list (string * string)) :
  NoDup (map fst acc) ->
  let r := fold_left (fun d kv => Common.dict_set d (fst kv) (snd kv)) items acc in
  NoDup (map fst r) /\ (forall k, k ∈ map fst r -> k ∈ map fst acc \/ k ∈ map fst items).
Proof.
  revert acc. induction items as [|[k v] items IH]; intros acc Hacc; cbn [fold_left].
  - split; [done|]. intros k Hk. by left.
  - cbn [fst snd].
    assert (Hnd : NoDup (map fst (Common.dict_set acc k v))).
    { rewrite dict_set_keys. destruct (decide _) as [|Hnin]; [done|].
      apply NoDup_app. split; [done|]. split; [|apply NoDup_singleton].
      intros x Hx Hx'%list_elem_of_singleton. by subst. }
    destruct (IH _ Hnd) as [H1 H2]. split; [exact H1|].
    intros k' Hk'. apply H2 in Hk' as [Hk'|Hk'].
    + rewrite dict_set_keys in Hk'. destruct (decide _); [by left|].
      apply elem_of_app in Hk' as [?|Hk'%list_elem_of_singleton]; [by left|].
      subst. right. cbn. left.
    + right. cbn. by right.
Qed.

Lemma fold_dict_set_id (items acc : list (string * string)) :
  NoDup (map fst (acc ++ items)) ->
  fold_left (fun d kv => Common.dict_set d (fst kv) (snd kv)) items acc = acc ++ items.
Proof.
  revert acc. induction items as [|[k v] items IH]; intros acc Hnd; cbn [fold_left].
  - by rewrite app_nil_r.
  - cbn [fst snd]. rewrite dict_set_fresh.
    + rewrite IH; [by rewrite <- app_assoc|]. by rewrite <- app_assoc.
    + rewrite map_app in Hnd. apply NoDup_app in Hnd as (_ & Hd & _).
      intros Hin. apply (Hd k Hin). cbn. left.
Qed.

Lemma dict_of_items_keys_distinct (items : list (string * string)) :
  NoDup (map fst (Common.dict_of_items items)).
Proof. unfold Common.dict_of_items. apply (fold_dict_set_keys _ []). constructor. Qed.

(** When the joined keys of two entries collide, the entry keeps its first
    place and takes the last value. *)
Example flatten_config_collision :
  Common.flatten_config
    [("a", Common.Mapping [("b", Common.Value "1")]); ("c", Common.Value "2");
     ("a_b", Common.Value "3")]%string "" "_"
  = Ok [("a_b", "3"); ("c", "2")]%string.
Proof. reflexivity. Qed.

(** X24: flattening is idempotent. The dict that [flatten_config] returns,
    read as a configuration, is flattened to itself, with no parent key and
    any separator. *)
Theorem flatten_config_idempotent
    (d : list (string * Common.config)) (parent_key sep sep' : string) :
  exists r,
    Common.flatten_config d parent_key sep = Ok r
    /\ Common.flatten_config (config_of_dict r) EmptyString sep' = Ok r.
Proof.
  eexists. split; [reflexivity|].
  set (r := Common.dict_of_items _).
  pose proof (dict_of_items_keys_distinct
                (flat_map (fun kv => Common.flatten_item parent_key sep (fst kv) (snd kv)) d))
    as Hnd. fold r in Hnd.
  unfold Common.flatten_config.
  assert (Hflat : flat_map (fun kv : string * Common.config =>
                              Common.flatten_item EmptyString sep' (fst kv) (snd kv))
                    (config_of_dict r) = r).
  { clear. induction r as [|[k v] r IH]; [done|].
    change (config_of_dict ((k, v) :: r)) with ((k, Common.Value v) :: config_of_dict r).
    cbn [flat_map]. rewrite IH. reflexivity. }
  rewrite Hflat. unfold Common.dict_of_items. by rewrite fold_dict_set_id.
Qed.

Lemma flatten_item_keys (sep : string) (v : Common.config) :
  forall parent_key k key,
    parent_key <> EmptyString ->
    key ∈ map fst (Common.flatten_item parent_key sep k v) ->
    exists rest, key = (parent_key ++ sep ++ rest)%string.
Proof.
  induction v as [x|items IH] using config_nested_ind; intros p k key Hp Hkey.
  - destruct p as [|c p]; [done|]. cbn in Hkey.
    apply list_elem_of_singleton in Hkey as ->. by exists k.
  - cbn [Common.flatten_item] in Hkey.
    set (new_key := match p with EmptyString => k | _ => (p ++ sep ++ k)%string end) in *.
    assert (Hnk : new_key = (p ++ sep ++ k)%string) by (by destruct p).
    assert (Hne : new_key <> EmptyString) by (rewrite Hnk; by destruct p).
    unfold Common.dict_of_items in Hkey.
    apply (fold_dict_set_keys _ [] ltac:(constructor)) in Hkey as [Hkey|Hkey];
      [by apply elem_of_nil in Hkey|].
    revert Hkey. induction IH as [|[k' v'] items Hv' _ IHitems]; intros Hkey;
      [by apply elem_of_nil in Hkey|].
    rewrite map_app in Hkey. apply elem_of_app in Hkey as [Hkey|Hkey]; [|by apply IHitems].
    destruct (Hv' new_key k' key Hne Hkey) as [rest ->].
    exists (k ++ sep ++ rest)%string. rewrite Hnk.
    by rewrite !string_app_assoc.
Qed.

(** X25: with a parent key that is not empty, every key of the dict that
    [flatten_config] returns starts with the parent key and the separator. *)
Theorem flatten_config_keys_prefixed
    (d : list (string * Common.config)) (parent_key sep : string)
    (r : list (string * string)) (key : string) :
  parent_key <> EmptyString ->
  Common.flatten_config d parent_key sep = Ok r ->
  key ∈ map fst r ->
  exists rest, key = (parent_key ++ sep ++ rest)%string.
Proof.
  intros Hp [= <-] Hkey. unfold Common.dict_of_items in Hkey.
  apply (fold_dict_set_keys _ [] ltac:(constructor)) in Hkey as [Hkey|Hkey];
    [by apply elem_of_nil in Hkey|].
  induction d as [|[k v] d IH]; [by apply elem_of_nil in Hkey|].
  cbn [flat_map fst snd] in Hkey. rewrite map_app in Hkey.
  apply elem_of_app in Hkey as [Hkey|Hkey]; [|by apply IH].
  by apply (flatten_item_keys sep v parent_key k).
Qed.

Lemma flatten_config_keys_prefixed_witness :
  exists rest, "p_a_b"%string = ("p" ++ "_" ++ rest)%string.
Proof.
  apply (flatten_config_keys_prefixed
           [("a", Common.Mapping [("b", Common.Value "1")]); ("c", Common.Value "2")]%string
           "p" "_" [("p_a_b", "1"); ("p_c", "2")]%string "p_a_b");
    [discriminate|reflexivity|left].
Defined.
